(** * awesome-typescript-loader: the dependency tracker of [src/host.ts]

    A shallow embedding of [DependencyManager], [ValidManager] and [State]
    (the unit store, the two dependency resolution modes, the chain
    applier, the recompile-reason finder and the compilation facade),
    followed by the properties of the specification that were checked
    against it.

    Conventions of the embedding.
    - Unit identities and specifiers are strings, a string being a sequence
      of 8-bit characters.
    - A JavaScript object used as a dictionary keyed by file names is a
      finite map ([gmap string _]) when its keys are never enumerated, and
      an insertion-ordered association list when [Object.keys] is taken of
      it.  Keys are file names: the members a JavaScript object inherits
      from [Object.prototype] are not file names and are not modelled.
    - A thrown exception is a [Throw] completion; the store that the
      statement mutated before throwing is kept.
    - Recursion that follows the import graph takes a [fuel] argument;
      [None] means that the fuel ran out, never that the program failed. *)

From Stdlib Require Import NArith Ascii String List Lia.
From stdpp Require Import gmap strings list fin_maps pretty.

#[local] Set Warnings "-clear-no-such-hyp".


(** ** Strings, regular expressions and Node's [path] module *)

(** The characters of a string, last character first: the suffix tests of
    the source ([/\.js$/] and the like) read a string from its end. *)
Definition charsRev (s : string) : list ascii :=
  rev (list_ascii_of_string s).

Definition isSlash (c : ascii) : bool := bool_decide (c = "/"%char).
Definition isDot (c : ascii) : bool := bool_decide (c = "."%char).

(** A regular expression's [.] matches any character but a line terminator. *)
Definition isLineTerminator (c : ascii) : bool :=
  bool_decide (c = "010"%char) || bool_decide (c = "013"%char).

(** [/\.js$/] *)
Definition matchesJs (s : string) : bool :=
  match charsRev s with
  | c3 :: c2 :: c1 :: _ =>
      bool_decide (c1 = "."%char) && bool_decide (c2 = "j"%char)
      && bool_decide (c3 = "s"%char)
  | _ => false
  end.

(** [/\.d\.ts$/], the test of [resolveSync] and [resolveAsync]. *)
Definition matchesDts (s : string) : bool :=
  match charsRev s with
  | c5 :: c4 :: c3 :: c2 :: c1 :: _ =>
      bool_decide (c1 = "."%char) && bool_decide (c2 = "d"%char)
      && bool_decide (c3 = "."%char) && bool_decide (c4 = "t"%char)
      && bool_decide (c5 = "s"%char)
  | _ => false
  end.

(** [/\.d.ts$/], the test of the two [checkDependenciesInternal] functions:
    its second dot is not escaped and matches any character. *)
Definition matchesDAnyTs (s : string) : bool :=
  match charsRev s with
  | c5 :: c4 :: c3 :: c2 :: c1 :: _ =>
      bool_decide (c1 = "."%char) && bool_decide (c2 = "d"%char)
      && negb (isLineTerminator c3) && bool_decide (c4 = "t"%char)
      && bool_decide (c5 = "s"%char)
  | _ => false
  end.

(** [path.extname] of Node (POSIX flavour), on the reversed characters:
    trailing slashes are skipped, the last path component is cut out, and
    its extension starts at its last dot, unless that dot is the first
    character of the component or the component is [".."]. *)
Fixpoint dropSlashes (cs : list ascii) : list ascii :=
  match cs with
  | c :: cs' => if isSlash c then dropSlashes cs' else cs
  | [] => []
  end.

Fixpoint lastComponent (cs : list ascii) : list ascii :=
  match cs with
  | c :: cs' => if isSlash c then [] else c :: lastComponent cs'
  | [] => []
  end.

(** Splits a reversed component at its first dot (the last dot of the
    component): what follows the dot, and what precedes it. *)
Fixpoint splitAtDot (cs : list ascii) : option (list ascii * list ascii) :=
  match cs with
  | c :: cs' =>
      if isDot c then Some ([], cs')
      else match splitAtDot cs' with
           | Some (ext, before) => Some (c :: ext, before)
           | None => None
           end
  | [] => None
  end.

Definition extname (p : string) : string :=
  match splitAtDot (lastComponent (dropSlashes (charsRev p))) with
  | None => ""
  | Some (_, []) => ""
  | Some ([], [c]) =>
      if isDot c then "" else "."
  | Some (ext, _) => string_of_list_ascii ("."%char :: rev ext)
  end.

(** ** Errors and completions *)

Record Diagnostic := { diagnosticFile : string; messageText : string }.

Inductive Error :=
| ResolverError (operational : bool) (message : string)
    (** what the resolver callback fails with; [operational] tells whether
        Bluebird's [.error] handlers catch it *)
| ResolutionError (message : string) (fileName : string) (cause : Error)
| ReadError (fileName : string)
| TypeScriptCompilationError (diagnostics : list Diagnostic)
| EmitSkipped.

Definition errorMessage (e : Error) : string :=
  match e with
  | ResolverError _ m => m
  | ResolutionError m _ _ => m
  | ReadError f => "ENOENT, open '" +:+ f +:+ "'"
  | TypeScriptCompilationError _ => ""
  | EmitSkipped => "Emit skipped"
  end.

Definition isOperational (e : Error) : bool :=
  match e with
  | ResolverError op _ => op
  | ReadError _ => true
  | _ => false
  end.

Definition isResolutionError (e : Error) : bool :=
  match e with
  | ResolutionError _ _ _ => true
  | _ => false
  end.

Inductive Completion (A : Type) :=
| Normal (a : A)
| Throw (e : Error).
Arguments Normal {A} a.
Arguments Throw {A} e.

(** ** The data model *)

Record File := { text : string; version : N }.

(** [State.files]: [Object.keys] is taken of it, so insertion order is kept. *)
Definition Files := list (string * File).

Fixpoint filesGet (fileName : string) (fs : Files) : option File :=
  match fs with
  | (k, v) :: fs' => if decide (k = fileName) then Some v else filesGet fileName fs'
  | [] => None
  end.

(** [files[fileName] = file]: an existing key keeps its place. *)
Fixpoint filesSet (fileName : string) (file : File) (fs : Files) : Files :=
  match fs with
  | (k, v) :: fs' =>
      if decide (k = fileName) then (k, file) :: fs'
      else (k, v) :: filesSet fileName file fs'
  | [] => [(fileName, file)]
  end.

Definition filesKeys (fs : Files) : list string := map fst fs.

(** [DependencyManager]: the Dependency Graph and the Declaration Registry.
    The registry is a [FileSet] whose keys are enumerated by [applyChain];
    only its keys matter. *)
Record DependencyManager := {
  dependencies : gmap string (list string);
  knownTypeDeclarations : list string
}.

Record ValidManager := { validFlags : gmap string bool }.

Record State := {
  files : Files;
  depManager : DependencyManager;
  validFiles : ValidManager;
  runtimeRead : bool
}.

(** The caller's dependency sink, [interface Dependency]. *)
Class Dependency (D : Type) := {
  add : string -> D -> D;
  clear : D -> D
}.

(** The sink that records the calls it receives, oldest first. *)
Inductive DependencyCall :=
| CallAdd (fileName : string)
| CallClear.

Global Instance DependencyCall_eq_dec : EqDecision DependencyCall.
Proof. solve_decision. Defined.

Global Instance callLog : Dependency (list DependencyCall) := {
  add fileName log := log ++ [CallAdd fileName];
  clear log := log ++ [CallClear]
}.

(** ** [DependencyManager] *)

Definition clearDependencies (fileName : string) (dm : DependencyManager)
  : DependencyManager :=
  {| dependencies := <[fileName := []]> (dependencies dm);
     knownTypeDeclarations := knownTypeDeclarations dm |}.

Definition hasDependencies (fileName : string) (dm : DependencyManager) : bool :=
  bool_decide (is_Some (dependencies dm !! fileName)).

(** The entry of a unit once it has been defaulted to the empty list. *)
Definition depsOf (dm : DependencyManager) (fileName : string) : list string :=
  default [] (dependencies dm !! fileName).

Definition addDependency (fileName depFileName : string) (dm : DependencyManager)
  : DependencyManager :=
  let dm1 := if hasDependencies fileName dm then dm
             else clearDependencies fileName dm in
  {| dependencies :=
       <[fileName := depsOf dm1 fileName ++ [depFileName]]> (dependencies dm1);
     knownTypeDeclarations := knownTypeDeclarations dm1 |}.

Definition getDependencies (fileName : string) (dm : DependencyManager)
  : list string * DependencyManager :=
  let dm1 := if hasDependencies fileName dm then dm
             else clearDependencies fileName dm in
  (depsOf dm1 fileName, dm1).

Definition hasTypeDeclaration (fileName : string) (dm : DependencyManager) : bool :=
  bool_decide (fileName ∈ knownTypeDeclarations dm).

Definition addTypeDeclaration (fileName : string) (dm : DependencyManager)
  : DependencyManager :=
  {| dependencies := dependencies dm;
     knownTypeDeclarations :=
       if hasTypeDeclaration fileName dm then knownTypeDeclarations dm
       else knownTypeDeclarations dm ++ [fileName] |}.

(** [!!set[key]] for a [FileSet], whose values are booleans. *)
Definition truthy (o : option bool) : bool := default false o.

Record ChainState (D : Type) := {
  chainManager : DependencyManager;
  chainDeps : D;
  appliedChains : gmap string bool;
  appliedDeps : gmap string bool
}.
Arguments chainManager {D} _.
Arguments chainDeps {D} _.
Arguments appliedChains {D} _.
Arguments appliedDeps {D} _.

(** The body of the [forEach] of [applyChain], without the recursive call. *)
Definition applyDep {D} `{Dependency D} (depFileName : string) (s : ChainState D)
  : ChainState D :=
  if bool_decide (is_Some (appliedDeps s !! depFileName)) then s
  else {| chainManager := chainManager s;
          chainDeps := add depFileName (chainDeps s);
          appliedChains := appliedChains s;
          appliedDeps := <[depFileName := true]> (appliedDeps s) |}.

(** What [applyChain] does before it walks the dependencies of the unit. *)
Definition enterChain {D} `{Dependency D} (fileName : string) (s : ChainState D)
  : ChainState D :=
  let dm1 := if hasDependencies fileName (chainManager s) then chainManager s
             else clearDependencies fileName (chainManager s) in
  let chains1 := <[fileName := true]> (appliedChains s) in
  if bool_decide (is_Some (chains1 !! ".d.ts")) then
    {| chainManager := dm1; chainDeps := chainDeps s;
       appliedChains := chains1; appliedDeps := appliedDeps s |}
  else
    {| chainManager := dm1;
       chainDeps := fold_left (fun d declFileName => add declFileName d)
                      (knownTypeDeclarations dm1) (chainDeps s);
       appliedChains := <[".d.ts" := true]> chains1;
       appliedDeps := appliedDeps s |}.

(** The [forEach] of [applyChain]; [recur] is [applyChain] itself. *)
Fixpoint applyEach {D} `{Dependency D}
    (recur : string -> ChainState D -> option (ChainState D))
    (fileDeps : list string) (s : ChainState D) : option (ChainState D) :=
  match fileDeps with
  | [] => Some s
  | depFileName :: rest =>
      let s' := applyDep depFileName s in
      if truthy (appliedChains s' !! depFileName) then applyEach recur rest s'
      else match recur depFileName s' with
           | Some s'' => applyEach recur rest s''
           | None => None
           end
  end.

Definition withChainManager {D} (dm : DependencyManager) (s : ChainState D)
  : ChainState D :=
  {| chainManager := dm; chainDeps := chainDeps s;
     appliedChains := appliedChains s; appliedDeps := appliedDeps s |}.

Fixpoint applyChain {D} `{Dependency D} (fuel : nat) (fileName : string)
    (s : ChainState D) : option (ChainState D) :=
  match fuel with
  | O => None
  | S fuel' =>
      let s1 := enterChain fileName s in
      let '(fileDeps, dm2) := getDependencies fileName (chainManager s1) in
      applyEach (applyChain fuel') fileDeps (withChainManager dm2 s1)
  end.

(** The [for] loop of [recompileReasonInternal]; [recur] is the function
    itself, applied to the changed set and the visited set of the call. *)
Fixpoint reasonLoop
    (recur : string -> DependencyManager -> option (list string * DependencyManager))
    (changedFilesSet currentVisitedFiles : gmap string bool)
    (fileDeps : list string) (dm : DependencyManager)
  : option (list string * DependencyManager) :=
  match fileDeps with
  | [] => Some ([], dm)
  | depFileName :: rest =>
      if bool_decide (is_Some (changedFilesSet !! depFileName))
      then Some ([depFileName], dm)
      else if bool_decide (is_Some (currentVisitedFiles !! depFileName))
      then reasonLoop recur changedFilesSet currentVisitedFiles rest dm
      else match recur depFileName dm with
           | Some ([], dm') =>
               reasonLoop recur changedFilesSet currentVisitedFiles rest dm'
           | Some (internal, dm') => Some (depFileName :: internal, dm')
           | None => None
           end
  end.

(** [recompileReasonInternal]; the visited set is copied at every call, so
    it is passed by value. *)
Fixpoint recompileReasonInternal (fuel : nat) (fileName : string)
    (changedFilesSet visitedFiles : gmap string bool) (dm : DependencyManager)
  : option (list string * DependencyManager) :=
  match fuel with
  | O => None
  | S fuel' =>
      let '(fileDeps, dm1) := getDependencies fileName dm in
      let currentVisitedFiles := <[fileName := true]> visitedFiles in
      reasonLoop
        (fun depFileName =>
           recompileReasonInternal fuel' depFileName changedFilesSet
             currentVisitedFiles)
        changedFilesSet currentVisitedFiles fileDeps dm1
  end.

Definition toFileSet (fileNames : list string) : gmap string bool :=
  fold_left (fun (m : gmap string bool) f => <[f := true]> m) fileNames ∅.

Definition recompileReason (fuel : nat) (fileName : string)
    (changedFiles : list string) (dm : DependencyManager)
  : option (list string * DependencyManager) :=
  recompileReasonInternal fuel fileName (toFileSet changedFiles) ∅ dm.

(** ** The external collaborators

    The semantic engine, the file system and Node's [path] module are
    outside this file; [Env] gathers what the code asks of them.  The
    language service reads the unit store through [Host], so its answers
    take the store as an argument. *)

#[local] Set Warnings "-register-all".
Inductive Node :=
| ImportEqualsDeclaration (externalModuleReference : option string)
    (children : list Node)
| SourceFile (sourceFileName : string) (referencedFiles : list string)
    (children : list Node)
| OtherNode (children : list Node).

Record EmitOutput := {
  outputFiles : list (string * string);
  emitSkipped : bool
}.

Record Env := {
  (** [this.fs.readFile], promisified; [None] when the read fails *)
  fsReadFile : string -> option string;
  (** the global [fs.readFileSync] *)
  fsReadFileSync : string -> option string;
  getSourceFile : Files -> string -> Node;
  getEmitOutput : Files -> string -> EmitOutput;
  getCompilerOptionsDiagnostics : Files -> list Diagnostic;
  getSyntacticDiagnostics : Files -> string -> list Diagnostic;
  getSemanticDiagnostics : Files -> string -> list Diagnostic;
  pathDirname : string -> string;
  pathResolve : string -> string -> string;
  (** [RUNTIME.fileName], from [helpers.loadLib] *)
  runtimeFileName : string
}.

(** The resolver callbacks.  A [SyncResolver] returns or throws; an
    [AsyncResolver] returns a promise, modelled by what it settles to. *)
Definition SyncResolver := string -> string -> Completion string.
Definition AsyncResolver := string -> string -> Completion string.

(** ** Store updates *)

Definition withFiles (fs : Files) (st : State) : State :=
  {| files := fs; depManager := depManager st;
     validFiles := validFiles st; runtimeRead := runtimeRead st |}.

Definition withDepManager (dm : DependencyManager) (st : State) : State :=
  {| files := files st; depManager := dm;
     validFiles := validFiles st; runtimeRead := runtimeRead st |}.

Definition withValidFiles (vm : ValidManager) (st : State) : State :=
  {| files := files st; depManager := depManager st;
     validFiles := vm; runtimeRead := runtimeRead st |}.

Definition withRuntimeRead (b : bool) (st : State) : State :=
  {| files := files st; depManager := depManager st;
     validFiles := validFiles st; runtimeRead := b |}.

(** A method of [this.dependencies], and one of [this.validFiles], called
    on the store. *)
Definition onManager (f : DependencyManager -> DependencyManager) (st : State)
  : State :=
  withDepManager (f (depManager st)) st.

Definition onValidFiles (f : ValidManager -> ValidManager) (st : State) : State :=
  withValidFiles (f (validFiles st)) st.

(** [ValidManager] *)
Definition isFileValid (fileName : string) (vm : ValidManager) : bool :=
  truthy (validFlags vm !! fileName).

Definition markFileValid (fileName : string) (vm : ValidManager) : ValidManager :=
  {| validFlags := <[fileName := true]> (validFlags vm) |}.

Definition markFileInvalid (fileName : string) (vm : ValidManager) : ValidManager :=
  {| validFlags := <[fileName := false]> (validFlags vm) |}.

(** [State.updateFile] and [State.addFile], on the unit store. *)
Definition updateFile (fileName : string) (newText : string) (checked : bool)
    (fs : Files) : bool * Files :=
  let prevFile := filesGet fileName fs in
  let '(newVersion, changed) :=
    match prevFile with
    | Some prev =>
        if negb checked || (checked && negb (String.eqb newText (text prev)))
        then ((version prev + 1)%N, true)
        else (0%N, false)
    | None => (0%N, true)
    end in
  (changed, filesSet fileName {| text := newText; version := newVersion |} fs).

Definition addFile (fileName : string) (newText : string) (fs : Files) : Files :=
  filesSet fileName {| text := newText; version := 0%N |} fs.

(** ** Path resolution, with the resolver calls it makes *)

Definition Trace := list (string * string).

Definition callResolver (resolver : string -> string -> Completion string)
    (base dep : string) : Completion string * Trace :=
  (resolver base dep, [(base, dep)]).

(** [try { ... } catch (e) { handler }] *)
Definition catchAll (c : Completion string * Trace)
    (handler : Error -> Completion string * Trace) : Completion string * Trace :=
  match c with
  | (Throw e, t) => let '(r, t') := handler e in (r, t ++ t')
  | _ => c
  end.

(** Bluebird's [promise.error(handler)]: only operational errors are caught. *)
Definition promiseError (c : Completion string * Trace)
    (handler : Error -> Completion string * Trace) : Completion string * Trace :=
  match c with
  | (Throw e, t) =>
      if isOperational e then let '(r, t') := handler e in (r, t ++ t') else c
  | _ => c
  end.

Definition newline : string := String "010"%char "".

Definition detailedError (error : Error) (fileName : string) : Error :=
  ResolutionError
    (errorMessage error +:+ newline +:+ "    Required in " +:+ fileName)
    fileName error.

Definition hasNoExtension (defPath : string) : bool :=
  Nat.eqb (String.length (extname defPath)) 0.

Definition resolveSync (env : Env) (resolver : SyncResolver)
    (fileName defPath : string) : Completion string * Trace :=
  let base := pathDirname env fileName in
  catchAll
    (if hasNoExtension defPath then
       catchAll (callResolver resolver base (defPath +:+ ".ts"))
         (fun _ =>
            catchAll (callResolver resolver base (defPath +:+ ".d.ts"))
              (fun _ => callResolver resolver base defPath))
     else if matchesDts defPath then (Normal defPath, [])
     else callResolver resolver base defPath)
    (fun error => (Throw (detailedError error fileName), [])).

Definition resolveAsync (env : Env) (resolver : AsyncResolver)
    (fileName defPath : string) : Completion string * Trace :=
  let base := pathDirname env fileName in
  promiseError
    (if hasNoExtension defPath then
       promiseError
         (promiseError (callResolver resolver base (defPath +:+ ".ts"))
            (fun _ => callResolver resolver base (defPath +:+ ".d.ts")))
         (fun _ => callResolver resolver base defPath)
     else if matchesDts defPath then (Normal defPath, [])
     else callResolver resolver base defPath)
    (fun error => (Throw (detailedError error fileName), [])).

(** ** The import extractor, [State.findImportDeclarations] *)

Fixpoint visit (env : Env) (node : Node) (result : list string) : list string :=
  match node with
  | ImportEqualsDeclaration ref children =>
      fold_left (fun r child => visit env child r) children
        (match ref with Some t => result ++ [t] | None => result end)
  | SourceFile fileName referencedFiles children =>
      fold_left (fun r child => visit env child r) children
        (result ++ map (pathResolve env (pathDirname env fileName)) referencedFiles)
  | OtherNode children =>
      fold_left (fun r child => visit env child r) children result
  end.

Definition findImportDeclarations (env : Env) (fileName : string) (st : State)
  : list string :=
  visit env (getSourceFile env (files st) fileName) [].

(** ** Sequential code: a state, exception and fuel monad

    [M A] is a statement of a method of [State]: it runs on the store and
    either runs out of fuel or completes, normally or by throwing, in a new
    store. *)

Definition M (A : Type) : Type := State -> option (Completion A * State).

Definition ret {A} (a : A) : M A := fun st => Some (Normal a, st).

Definition throw {A} (e : Error) : M A := fun st => Some (Throw e, st).

Definition outOfFuel {A} : M A := fun _ => None.

Definition bind {A B} (c : M A) (k : A -> M B) : M B :=
  fun st =>
    match c st with
    | Some (Normal a, st') => k a st'
    | Some (Throw e, st') => Some (Throw e, st')
    | None => None
    end.

Notation "x <- c ;; k" := (bind c (fun x => k))
  (at level 100, c at next level, right associativity).
Notation "c ;;; k" := (bind c (fun _ => k))
  (at level 100, right associativity).

Definition getState : M State := fun st => Some (Normal st, st).

Definition modify (f : State -> State) : M unit :=
  fun st => Some (Normal tt, f st).

Definition liftCompletion {A} (c : Completion A) : M A :=
  fun st => Some (c, st).

(** [try { body } finally { cleanup }], for a cleanup that cannot throw. *)
Definition tryFinally {A} (body : M A) (cleanup : State -> State) : M A :=
  fun st =>
    match body st with
    | Some (r, st') => Some (r, cleanup st')
    | None => None
    end.

(** [array.map(f)] for an [f] with effects: elements in order, the first
    exception ends the loop. *)
Fixpoint mapM {A B} (f : A -> M B) (xs : list A) : M (list B) :=
  match xs with
  | [] => ret []
  | x :: xs' => y <- f x ;; ys <- mapM f xs' ;; ret (y :: ys)
  end.

(** [array.filter(val => val != null)]: [None] stands for [null] and for
    [undefined]. *)
Definition filterNotNull (xs : list (option string)) : list string :=
  omap id xs.

Definition readFileSync (env : Env) (fileName : string) : M string :=
  match fsReadFileSync env fileName with
  | Some contents => ret contents
  | None => throw (ReadError fileName)
  end.

Definition readFileAndUpdateSync (env : Env) (fileName : string) (checked : bool)
  : M bool :=
  contents <- readFileSync env fileName ;;
  st <- getState ;;
  let '(changed, fs) := updateFile fileName contents checked (files st) in
  modify (withFiles fs) ;;;
  ret changed.

(** The callback of the second [map] of [checkDependenciesInternalSync];
    [checkDependenciesSync] is passed in for the recursive calls. *)
Definition processImportSync (recur : string -> M (list string))
    (fileName depFileName : string) : M (option string) :=
  if matchesDAnyTs depFileName then
    st <- getState ;;
    if hasTypeDeclaration depFileName (depManager st) then ret None
    else
      modify (onManager (addTypeDeclaration depFileName)) ;;;
      recur depFileName ;;;
      ret None
  else if matchesJs depFileName then ret None
  else
    modify (onManager (addDependency fileName depFileName)) ;;;
    st <- getState ;;
    if isFileValid depFileName (validFiles st) then ret None
    else
      modify (onValidFiles (markFileValid depFileName)) ;;;
      tryFinally (recur depFileName)
        (onValidFiles (markFileInvalid depFileName)) ;;;
      ret None.

Definition checkDependenciesInternalSync (env : Env)
    (recur : string -> M (list string)) (resolver : SyncResolver)
    (fileName : string) : M (list string) :=
  st <- getState ;;
  resolved <- mapM (fun depRelFileName =>
                      liftCompletion (fst (resolveSync env resolver fileName depRelFileName)))
                (findImportDeclarations env fileName st) ;;
  results <- mapM (processImportSync recur fileName) resolved ;;
  ret (filterNotNull results).

Fixpoint checkDependenciesSync (env : Env) (fuel : nat) (resolver : SyncResolver)
    (fileName : string) : M (list string) :=
  match fuel with
  | O => outOfFuel
  | S fuel' =>
      modify (onManager (clearDependencies fileName)) ;;;
      st <- getState ;;
      match filesGet fileName (files st) with
      | None => readFileAndUpdateSync env fileName false ;;; ret tt
      | Some _ => ret tt
      end ;;;
      checkDependenciesInternalSync env (checkDependenciesSync env fuel' resolver)
        resolver fileName
  end.

(** ** The compilation facade, sequential mode *)

(** [invokeRuntime]: the output that the engine emits for the runtime
    declarations is dropped; only the latch is kept. *)
Definition invokeRuntime (env : Env) (st : State) : State :=
  if runtimeRead st then st
  else let _ := getEmitOutput env (files st) (runtimeFileName env) in
       withRuntimeRead true st.

Definition allDiagnostics (env : Env) (fs : Files) : list Diagnostic :=
  fold_left
    (fun diagnostics fileName =>
       diagnostics ++ getSyntacticDiagnostics env fs fileName
                   ++ getSemanticDiagnostics env fs fileName)
    (filesKeys fs) (getCompilerOptionsDiagnostics env fs).

Definition emitAndCheck (env : Env) (fileName : string) (st : State)
  : Completion EmitOutput :=
  let output := getEmitOutput env (files st) fileName in
  let diagnostics := allDiagnostics env (files st) in
  if negb (Nat.eqb (length diagnostics) 0)
  then Throw (TypeScriptCompilationError diagnostics)
  else if negb (emitSkipped output) then Normal output
  else Throw EmitSkipped.

Definition applyDeps {D} `{Dependency D} (fuel : nat) (fileName : string)
    (depsManager : D) (st : State) : option (D * State) :=
  match applyChain fuel fileName
          {| chainManager := depManager st;
             chainDeps := add fileName (clear depsManager);
             appliedChains := ∅; appliedDeps := ∅ |} with
  | Some s => Some (chainDeps s, withDepManager (chainManager s) st)
  | None => None
  end.

(** [emitSync]: what it returns or throws, the store and the caller's sink
    when it is left.  Its [text] argument is not used by the source. *)
Definition emitSync {D} `{Dependency D} (env : Env) (fuel : nat)
    (resolver : SyncResolver) (fileName : string) (depsManager : D) (st : State)
  : option (Completion EmitOutput * State * D) :=
  let st1 := invokeRuntime env st in
  match checkDependenciesSync env fuel resolver fileName st1 with
  | None => None
  | Some (Throw e, st2) => Some (Throw e, st2, depsManager)
  | Some (Normal _, st2) =>
      let result := emitAndCheck env fileName st2 in
      match applyDeps fuel fileName depsManager st2 with
      | Some (depsManager', st3) => Some (result, st3, depsManager')
      | None => None
      end
  end.

(** ** Concurrent mode: promises as pending tasks

    [checkDependencies] and [checkDependenciesInternalAsync] build a tree of
    promises.  Every call of [checkDependencies] is an [Activation]; its
    promise settles once, when [Promise.all] of its imports is fulfilled or
    at the first rejection.  A [Task] is a continuation that waits for a
    promise of the outside world (a file read, the resolver) or for a
    settled promise of the tree; running one task is one step.  Which
    pending task runs next depends on when those promises settle, so a run
    is driven by a schedule, the list of the positions picked. *)

(** What is attached to the promise that [checkDependencies] returns. *)
Inductive Continuation :=
| KRoot
    (** the promise is handed to the caller *)
| KDeclaration (parent : nat)
    (** [.then(() => result)], an element of the parent's [Promise.all] *)
| KDependency (parent : nat) (depFileName : string)
    (** [.catch(ResolutionError, err => { markFileInvalid(depFileName);
        throw err }).then(() => result)] *).

Record Activation := {
  continuation : Continuation;
  pendingImports : nat;
  settled : bool
}.

Inductive Task :=
| TaskFlow (activation : nat) (fileName : string) (reads : bool)
    (** [flow.then(() => checkDependenciesInternalAsync(resolver, fileName))];
        [reads] when [flow] is [readFileAndUpdateAsync(fileName)] *)
| TaskImport (activation : nat) (fileName : string) (depRelFileName : string)
    (** [resolveAsync(resolver, fileName, depRelFileName).then(callback)] *)
| TaskSettled (activation : nat) (outcome : Completion unit)
    (** the handlers attached to the promise of a settled activation *).

Record AsyncState := {
  store : State;
  activations : list Activation;
  tasks : list Task;
  rootOutcome : option (Completion unit)
}.

Definition withStore (st : State) (a : AsyncState) : AsyncState :=
  {| store := st; activations := activations a;
     tasks := tasks a; rootOutcome := rootOutcome a |}.

Definition enqueue (t : Task) (a : AsyncState) : AsyncState :=
  {| store := store a; activations := activations a;
     tasks := tasks a ++ [t]; rootOutcome := rootOutcome a |}.

Definition setActivation (id : nat) (act : Activation) (a : AsyncState)
  : AsyncState :=
  {| store := store a; activations := <[id := act]> (activations a);
     tasks := tasks a; rootOutcome := rootOutcome a |}.

(** The promise of activation [id] settles, unless it already has. *)
Definition settle (id : nat) (outcome : Completion unit) (a : AsyncState)
  : AsyncState :=
  match activations a !! id with
  | Some act =>
      if settled act then a
      else enqueue (TaskSettled id outcome)
             (setActivation id
                {| continuation := continuation act;
                   pendingImports := pendingImports act;
                   settled := true |} a)
  | None => a
  end.

(** One element of the [Promise.all] of activation [id] is fulfilled. *)
Definition importFulfilled (id : nat) (a : AsyncState) : AsyncState :=
  match activations a !! id with
  | Some act =>
      let act' := {| continuation := continuation act;
                     pendingImports := Nat.pred (pendingImports act);
                     settled := settled act |} in
      let a' := setActivation id act' a in
      if Nat.eqb (pendingImports act') 0 then settle id (Normal tt) a' else a'
  | None => a
  end.

(** One element of the [Promise.all] of activation [id] is rejected. *)
Definition importRejected (id : nat) (e : Error) (a : AsyncState) : AsyncState :=
  settle id (Throw e) a.

(** [checkDependencies(resolver, fileName)] up to the promise it returns:
    the entry of the unit is cleared at once, the rest waits for [flow]. *)
Definition checkDependencies (k : Continuation) (fileName : string)
    (a : AsyncState) : AsyncState :=
  let st := store a in
  let st1 := onManager (clearDependencies fileName) st in
  let reads := match filesGet fileName (files st1) with
               | None => false
               | Some _ => true
               end in
  let id := length (activations a) in
  {| store := st1;
     activations := activations a
                    ++ [{| continuation := k; pendingImports := 0; settled := false |}];
     tasks := tasks a ++ [TaskFlow id fileName reads];
     rootOutcome := rootOutcome a |}.

(** The callback of the second [map] of [checkDependenciesInternalAsync],
    for the import of [fileName] that resolved to [depFileName]. *)
Definition processImportAsync (id : nat) (fileName depFileName : string)
    (a : AsyncState) : AsyncState :=
  let st := store a in
  if matchesDAnyTs depFileName then
    if hasTypeDeclaration depFileName (depManager st) then importFulfilled id a
    else
      checkDependencies (KDeclaration id) depFileName
        (withStore (onManager (addTypeDeclaration depFileName) st) a)
  else if matchesJs depFileName then importFulfilled id a
  else
    let st1 := onManager (addDependency fileName depFileName) st in
    if isFileValid depFileName (validFiles st1) then importFulfilled id (withStore st1 a)
    else
      checkDependencies (KDependency id depFileName) depFileName
        (withStore (onValidFiles (markFileValid depFileName) st1) a).

(** [checkDependenciesInternalAsync(resolver, fileName)] for activation [id]:
    one pending promise per import. *)
Definition checkDependenciesInternalAsync (env : Env) (id : nat)
    (fileName : string) (a : AsyncState) : AsyncState :=
  let imports := findImportDeclarations env fileName (store a) in
  match activations a !! id with
  | Some act =>
      let a1 := setActivation id
                  {| continuation := continuation act;
                     pendingImports := length imports;
                     settled := settled act |} a in
      match imports with
      | [] => settle id (Normal tt) a1
      | _ => fold_left (fun a depRelFileName =>
                          enqueue (TaskImport id fileName depRelFileName) a)
               imports a1
      end
  | None => a
  end.

Definition runTask (env : Env) (resolver : AsyncResolver) (t : Task)
    (a : AsyncState) : AsyncState :=
  match t with
  | TaskFlow id fileName reads =>
      if reads then
        match fsReadFile env fileName with
        | None => settle id (Throw (ReadError fileName)) a
        | Some contents =>
            let st := store a in
            let '(_, fs) := updateFile fileName contents false (files st) in
            checkDependenciesInternalAsync env id fileName
              (withStore (withFiles fs st) a)
        end
      else checkDependenciesInternalAsync env id fileName a
  | TaskImport id fileName depRelFileName =>
      match fst (resolveAsync env resolver fileName depRelFileName) with
      | Normal depFileName => processImportAsync id fileName depFileName a
      | Throw e => importRejected id e a
      end
  | TaskSettled id outcome =>
      match activations a !! id with
      | Some act =>
          match continuation act, outcome with
          | KRoot, _ =>
              {| store := store a; activations := activations a;
                 tasks := tasks a; rootOutcome := Some outcome |}
          | KDeclaration parent, Normal _ => importFulfilled parent a
          | KDeclaration parent, Throw e => importRejected parent e a
          | KDependency parent _, Normal _ => importFulfilled parent a
          | KDependency parent depFileName, Throw e =>
              let st := store a in
              let st1 := if isResolutionError e
                         then onValidFiles (markFileInvalid depFileName) st
                         else st in
              importRejected parent e (withStore st1 a)
          end
      | None => a
      end
  end.

(** One step: the pending task at position [pick] runs.  A position past
    the end picks nothing. *)
Definition asyncStep (env : Env) (resolver : AsyncResolver) (pick : nat)
    (a : AsyncState) : AsyncState :=
  match tasks a !! pick with
  | Some t =>
      runTask env resolver t
        {| store := store a; activations := activations a;
           tasks := take pick (tasks a) ++ drop (S pick) (tasks a);
           rootOutcome := rootOutcome a |}
  | None => a
  end.

Definition asyncRun (env : Env) (resolver : AsyncResolver) (schedule : list nat)
    (a : AsyncState) : AsyncState :=
  fold_left (fun a pick => asyncStep env resolver pick a) schedule a.

(** The private [checkDependencies(resolver, fileName)] called by
    [emitAsync] on store [st], before any promise has settled. *)
Definition startCheckDependencies (fileName : string) (st : State) : AsyncState :=
  checkDependencies KRoot fileName
    {| store := st; activations := []; tasks := []; rootOutcome := None |}.

(** Promises that settle in the order in which they were created: the
    oldest pending task runs first. *)
Definition fifo (steps : nat) : list nat := repeat O steps.

(** A state in which no continuation is pending. *)
Definition quiescent (a : AsyncState) : Prop := tasks a = [].

(** ** The compilation facade, concurrent mode

    [emitAsync] chains [emitAndCheck] and, in a [finally] handler,
    [applyDeps] on the promise of [checkDependencies].  [schedule] lists the
    steps that ran before the handlers did; the promise is still pending
    ([None]) when the schedule does not settle it. *)
Definition emitAsync {D} `{Dependency D} (env : Env) (fuel : nat)
    (resolver : AsyncResolver) (schedule : list nat) (fileName : string)
    (depsManager : D) (st : State)
  : option (Completion EmitOutput * State * D) :=
  let a := asyncRun env resolver schedule
             (startCheckDependencies fileName (invokeRuntime env st)) in
  match rootOutcome a with
  | None => None
  | Some outcome =>
      let result := match outcome with
                    | Normal _ => emitAndCheck env fileName (store a)
                    | Throw e => Throw e
                    end in
      match applyDeps fuel fileName depsManager (store a) with
      | Some (depsManager', st') => Some (result, st', depsManager')
      | None => None
      end
  end.

(** ** Arrays as objects: [DependencyManager] with an explicit heap

    [dependencies] maps a unit to the address of its array; [push] updates
    the array in place and [slice] allocates a copy.  This is the model in
    which handing out an array can be told from handing out a copy; the
    lists of [DependencyManager] above are what it stores. *)
Module Ref.

Record Manager := {
  heap : gmap nat (list string);
  dependencies : gmap string nat
}.

Definition alloc (contents : list string) (h : gmap nat (list string))
  : nat * gmap nat (list string) :=
  let address := fresh (dom h) in
  (address, <[address := contents]> h).

Definition clearDependencies (fileName : string) (m : Manager) : Manager :=
  let '(address, h) := alloc [] (heap m) in
  {| heap := h; dependencies := <[fileName := address]> (dependencies m) |}.

Definition ensureEntry (fileName : string) (m : Manager) : Manager :=
  match dependencies m !! fileName with
  | Some _ => m
  | None => clearDependencies fileName m
  end.

(** [array.push(x)] on the array at [address] *)
Definition push (address : nat) (x : string) (h : gmap nat (list string))
  : gmap nat (list string) :=
  match h !! address with
  | Some contents => <[address := contents ++ [x]]> h
  | None => h
  end.

Definition addDependency (fileName depFileName : string) (m : Manager) : Manager :=
  let m1 := ensureEntry fileName m in
  match dependencies m1 !! fileName with
  | Some address =>
      {| heap := push address depFileName (heap m1);
         dependencies := dependencies m1 |}
  | None => m1
  end.

(** [getDependencies] returns the address of the array that [slice] made. *)
Definition getDependencies (fileName : string) (m : Manager) : nat * Manager :=
  let m1 := ensureEntry fileName m in
  let contents := default [] (dependencies m1 !! fileName ≫= (heap m1 !!.)) in
  let '(address, h) := alloc contents (heap m1) in
  (address, {| heap := h; dependencies := dependencies m1 |}).

(** Any mutation of the array at [address] by the caller: it ends up
    holding [contents]. *)
Definition mutate (address : nat) (contents : list string) (m : Manager)
  : Manager :=
  {| heap := <[address := contents]> (heap m); dependencies := dependencies m |}.

(** The contents of the array stored for a unit. *)
Definition entry (m : Manager) (fileName : string) : option (list string) :=
  dependencies m !! fileName ≫= (heap m !!.).

(** Every stored address is that of an allocated array, and no two units
    share an array. *)
Definition wellFormed (m : Manager) : Prop :=
  (forall f address, dependencies m !! f = Some address -> is_Some (heap m !! address))
  /\ (forall f g address, dependencies m !! f = Some address ->
                         dependencies m !! g = Some address -> f = g).

(** The graph as lists. *)
Definition graph (m : Manager) : gmap string (list string) :=
  omap (heap m !!.) (dependencies m).

Definition empty : Manager := {| heap := ∅; dependencies := ∅ |}.

End Ref.

(** ** The properties of the specification, as predicates on the code *)

(** Extension fallback order, for the resolver calls [calls] made and the
    [result] obtained while resolving a specifier without an extension;
    [caught] tells which failures of the resolver the mode recovers from. *)
Definition extensionFallback (caught : Error -> bool)
    (resolver : string -> string -> Completion string) (base defPath : string)
    (outcome : Completion string * Trace) : Prop :=
  let ts := (base, defPath +:+ ".ts") in
  let dts := (base, defPath +:+ ".d.ts") in
  let raw := (base, defPath) in
  (exists rest, outcome.2 = ts :: rest)
  /\ (dts ∈ outcome.2 -> exists e, resolver base (defPath +:+ ".ts") = Throw e)
  /\ (raw ∈ outcome.2 ->
      dts ∈ outcome.2 /\ exists e, resolver base (defPath +:+ ".d.ts") = Throw e)
  /\ (forall p, resolver base (defPath +:+ ".ts") = Normal p ->
                outcome = (Normal p, [ts]))
  /\ (forall e, resolver base (defPath +:+ ".ts") = Throw e -> caught e = true ->
                dts ∈ outcome.2)
  /\ (forall e e', resolver base (defPath +:+ ".ts") = Throw e -> caught e = true ->
                   resolver base (defPath +:+ ".d.ts") = Throw e' -> caught e' = true ->
                   raw ∈ outcome.2).

(** What is common to the two modes: the three attempts of a specifier
    without extension, for the failures that [caught] recovers from. *)
Definition attempts (caught : Error -> bool)
    (resolver : string -> string -> Completion string) (base defPath : string)
  : Completion string * Trace :=
  let ts := (base, defPath +:+ ".ts") in
  let dts := (base, defPath +:+ ".d.ts") in
  let raw := (base, defPath) in
  match resolver base (defPath +:+ ".ts") with
  | Normal p => (Normal p, [ts])
  | Throw e =>
      if caught e then
        match resolver base (defPath +:+ ".d.ts") with
        | Normal p => (Normal p, [ts; dts])
        | Throw e' =>
            if caught e' then (resolver base defPath, [ts; dts; raw])
            else (Throw e', [ts; dts])
        end
      else (Throw e, [ts])
  end.

(** Idempotence of unchanged content: writing back the text a unit already
    has does not increment its version. *)
Definition sameTextKeepsVersion (checked : bool) (fileName : string) (fs : Files)
  : Prop :=
  forall file file',
    filesGet fileName fs = Some file ->
    filesGet fileName (updateFile fileName (text file) checked fs).2 = Some file' ->
    (version file' <= version file)%N.

(** An edge of the Dependency Graph, and a dependency path of one edge or
    more. *)
Definition edge (dm : DependencyManager) (x y : string) : Prop :=
  y ∈ depsOf dm x.

Definition dependencyPath (dm : DependencyManager) : string -> string -> Prop :=
  tc (edge dm).

(** No [.js] path among the edges and the declarations. *)
Definition jsFree (dm : DependencyManager) : Prop :=
  (forall f d, d ∈ depsOf dm f -> matchesJs d = false)
  /\ (forall d, d ∈ knownTypeDeclarations dm -> matchesJs d = false).

(** How often [add] was called with a unit, on the sink that records. *)
Definition addCalls (fileName : string) (log : list DependencyCall) : nat :=
  length (filter (fun c => c = CallAdd fileName) log).

(** The units that occur as a dependency of some unit. *)
Definition targets (dm : DependencyManager) : gset string :=
  ⋃ ((fun kv : string * list string => list_to_set kv.2)
       <$> map_to_list (dependencies dm)).



(** ** Invariants of the graph and of its traversals *)

(** Two managers with the same edges and the same declarations; reading an
    unknown unit installs its empty entry and changes nothing else. *)
Definition sameGraph (dm dm' : DependencyManager) : Prop :=
  (forall x, depsOf dm' x = depsOf dm x)
  /\ knownTypeDeclarations dm' = knownTypeDeclarations dm.

(** A list of units that follows the edges of the graph from [x]. *)
Fixpoint followsEdges (dm : DependencyManager) (x : string) (l : list string)
  : Prop :=
  match l with
  | [] => True
  | y :: l' => edge dm x y /\ followsEdges dm y l'
  end.

(** What a call returns: nothing, or a path that ends in a changed unit. *)
Definition reasonFrom (dm0 : DependencyManager)
    (changedFilesSet : gmap string bool) (x : string) (r : list string) : Prop :=
  r = [] \/ (followsEdges dm0 x r
             /\ exists c, last r = Some c /\ is_Some (changedFilesSet !! c)).

(** Every edge leads to a unit that satisfies [P], every declaration
    satisfies [Q]. *)
Definition graphSatisfies (P Q : string -> Prop) (dm : DependencyManager) : Prop :=
  (forall f d, d ∈ depsOf dm f -> P d)
  /\ (forall d, d ∈ knownTypeDeclarations dm -> Q d).

(** The graphs of the engine: edges lead to units that are not declaration
    files, and the registry holds declaration files only. *)
Definition engineGraph : DependencyManager -> Prop :=
  graphSatisfies (fun d => matchesDAnyTs d = false)
                 (fun d => matchesDAnyTs d = true).

(** Statements that keep the invariant of the graph, however they end. *)
Definition keeps (I : State -> Prop) {A} (c : M A) : Prop :=
  forall st r st', I st -> c st = Some (r, st') -> I st'.

(** How often a unit is in [appliedDeps]: once or not at all. *)
Definition appliedCount (x : string) (s : ChainState (list DependencyCall))
  : nat :=
  if decide (x ∈ dom (appliedDeps s)) then 1 else 0.

(** Every unit that was expanded, and is not being expanded still ([busy]),
    has all its dependencies among the applied ones.  The key [".d.ts"] of
    [appliedChains] is the latch of the declarations. *)
Definition expandedClosed (dm0 : DependencyManager) (busy : gset string)
    (s : ChainState (list DependencyCall)) : Prop :=
  forall x d, x ∈ dom (appliedChains s) -> x ∉ busy -> x <> ".d.ts" ->
              d ∈ depsOf dm0 x -> d ∈ dom (appliedDeps s).

(** What holds between two steps of a traversal of the graph [dm0]. *)
Definition chainInv (dm0 : DependencyManager) (busy : gset string)
    (s : ChainState (list DependencyCall)) : Prop :=
  sameGraph dm0 (chainManager s)
  /\ (forall x v, appliedChains s !! x = Some v -> v = true)
  /\ expandedClosed dm0 busy s.

(** From [s] to [s']: the sets grow, and [add] is called with a unit that
    is not a declaration exactly when the unit enters [appliedDeps]. *)
Definition chainExt (dm0 : DependencyManager)
    (s s' : ChainState (list DependencyCall)) : Prop :=
  dom (appliedChains s) ⊆ dom (appliedChains s')
  /\ dom (appliedDeps s) ⊆ dom (appliedDeps s')
  /\ (forall x, x ∉ knownTypeDeclarations dm0 ->
                addCalls x (chainDeps s') + appliedCount x s
                = addCalls x (chainDeps s) + appliedCount x s').

(** ** [Host], the view of the store that the language service gets *)

(** [string.substring(start, end)] for non-negative integers: both ends are
    clamped to the length and swapped when they come in the wrong order. *)
Definition jsSubstring (s : string) (first last : nat) : string :=
  let a := Nat.min first (String.length s) in
  let b := Nat.min last (String.length s) in
  String.substring (Nat.min a b) (Nat.max a b - Nat.min a b) s.

Record ScriptSnapshot := {
  getText : nat -> nat -> string;
  getLength : nat;
  getLineStartPositions : list nat
}.

Definition getScriptFileNames (st : State) : list string :=
  filesKeys (files st).

(** [files[fileName] && files[fileName].version.toString()]: [None] is the
    [undefined] of a unit that is not in the store. *)
Definition getScriptVersion (fileName : string) (st : State) : option string :=
  (fun file => pretty (version file)) <$> filesGet fileName (files st).

Definition getScriptSnapshot (fileName : string) (st : State)
  : option ScriptSnapshot :=
  (fun file =>
     {| getText := jsSubstring (text file);
        getLength := String.length (text file);
        getLineStartPositions := [] |}) <$> filesGet fileName (files st).

Definition getScriptIsOpen : bool := true.

(** ** How a pass relates the store it starts from to the store it leaves *)

(** Statements whose runs are all in the relation [R]. *)
Definition relates (R : State -> State -> Prop) {A} (c : M A) : Prop :=
  forall st r st', c st = Some (r, st') -> R st st'.

(** The store only grows: the registry and the keys of the unit store are
    extended at their end, and no entry of the graph is removed. *)
Definition storeGrows (st st' : State) : Prop :=
  knownTypeDeclarations (depManager st)
    `prefix_of` knownTypeDeclarations (depManager st')
  /\ dom (dependencies (depManager st)) ⊆ dom (dependencies (depManager st'))
  /\ filesKeys (files st) `prefix_of` filesKeys (files st').

(** The units of the registry stay distinct. *)
Definition registryStaysDistinct (st st' : State) : Prop :=
  NoDup (knownTypeDeclarations (depManager st)) ->
  NoDup (knownTypeDeclarations (depManager st')).

(** The text and the version of every loaded unit are left as they are. *)
Definition loadedUnitsKept (st st' : State) : Prop :=
  forall g file,
    filesGet g (files st) = Some file -> filesGet g (files st') = Some file.

(** How often a unit occurs in a list of units. *)
Definition occurrences (x : string) (l : list string) : nat :=
  length (filter (fun y => y = x) l).

(** The flows of the pending tasks that read a file read a loaded unit. *)
Definition flowsReadLoaded (a : AsyncState) : Prop :=
  forall id fileName,
    TaskFlow id fileName true ∈ tasks a ->
    is_Some (filesGet fileName (files (store a))).

(** Everything that [visit] finds below a node, in the order of the visit. *)
Definition importsBelow (env : Env) (node : Node) : list string :=
  visit env node [].

(** ** What the passes and the traversals are measured against *)

(** The version of every loaded unit is at least what it was. *)
Definition versionsNotLowered (st st' : State) : Prop :=
  forall g file,
    filesGet g (files st) = Some file ->
    exists file', filesGet g (files st') = Some file'
                  /\ (version file <= version file')%N.

(** The latch of the runtime declarations is left as it is. *)
Definition latchKept (st st' : State) : Prop :=
  runtimeRead st' = runtimeRead st.

(** From [st] to [st'] flags are only set: the flag of every unit is what
    it was, or is [true]; none is reset and none is removed. *)
Definition flagsOnlyRaised (st st' : State) : Prop :=
  forall d,
    validFlags (validFiles st') !! d = validFlags (validFiles st) !! d
    \/ validFlags (validFiles st') !! d = Some true.

(** No pending handler holds a rejection with a [ResolutionError]. *)
Definition noResolutionFailure (a : AsyncState) : Prop :=
  forall id e, TaskSettled id (Throw e) ∈ tasks a -> isResolutionError e = false.

(** The resolver finds every specifier. *)
Definition alwaysResolves (resolver : string -> string -> Completion string)
  : Prop :=
  forall base dep, exists p, resolver base dep = Normal p.

(** The resolver fails with operational errors only. *)
Definition failsOperationally (resolver : string -> string -> Completion string)
  : Prop :=
  forall base dep e, resolver base dep = Throw e -> isOperational e = true.

(** [e] is what the resolver answered to the last call of the trace. *)
Definition lastAttemptFailed (resolver : string -> string -> Completion string)
    (t : Trace) (e : Error) : Prop :=
  exists base dep, last t = Some (base, dep) /\ resolver base dep = Throw e.

(** Whether the declarations have been reported: the key [".d.ts"] of
    [appliedChains]. *)
Definition latched (s : ChainState (list DependencyCall)) : nat :=
  if decide (".d.ts" ∈ dom (appliedChains s)) then 1 else 0.

(** The latch is set, with the value the source gives it. *)
Definition latchSet (s : ChainState (list DependencyCall)) : Prop :=
  appliedChains s !! ".d.ts" = Some true.

(** What is applied is reachable from [root], and is expanded unless it is
    the unit the traversal is about to enter. *)
Definition chainReached (dm0 : DependencyManager) (root : string)
    (pending : gset string) (s : ChainState (list DependencyCall)) : Prop :=
  sameGraph dm0 (chainManager s)
  /\ (forall d, d ∈ dom (appliedDeps s) -> dependencyPath dm0 root d)
  /\ (forall d, d ∈ dom (appliedDeps s) ->
                d ∈ dom (appliedChains s) \/ d ∈ pending).

(** From [s] to [s']: [add] is called with a unit once when it enters
    [appliedDeps], and once per occurrence in the registry when the latch
    is set. *)
Definition chainCounts (dm0 : DependencyManager)
    (s s' : ChainState (list DependencyCall)) : Prop :=
  forall x,
    addCalls x (chainDeps s') + appliedCount x s
    + occurrences x (knownTypeDeclarations dm0) * latched s
    = addCalls x (chainDeps s) + appliedCount x s'
      + occurrences x (knownTypeDeclarations dm0) * latched s'.

(** Only the last unit of a reason is a changed one. *)
Definition endsAtFirstChange (changedFilesSet : gmap string bool)
    (r : list string) : Prop :=
  forall l c, r = l ++ [c] -> forall y, y ∈ l -> changedFilesSet !! y = None.

(** What a node contributes itself, before its children are visited. *)
Definition ownImports (env : Env) (node : Node) : list string :=
  match node with
  | ImportEqualsDeclaration (Some t) _ => [t]
  | ImportEqualsDeclaration None _ => []
  | SourceFile fileName referencedFiles _ =>
      map (pathResolve env (pathDirname env fileName)) referencedFiles
  | OtherNode _ => []
  end.

(** The children that [forEachChild] visits. *)
Definition childrenOf (node : Node) : list Node :=
  match node with
  | ImportEqualsDeclaration _ children => children
  | SourceFile _ _ children => children
  | OtherNode children => children
  end.

(** The calls of a log, made again on a sink. *)
Definition replay {D} `{Dependency D} (log : list DependencyCall) (depsManager : D)
  : D :=
  fold_left (fun d call => match call with
                           | CallAdd fileName => add fileName d
                           | CallClear => clear d
                           end) log depsManager.

(** A traversal with the sink [depsManager0] and the same traversal with the
    sink that records: the same sets, and the sink has received the calls
    recorded. *)
Definition sameTraversal {D} `{Dependency D} (depsManager0 : D)
    (s : ChainState D) (sl : ChainState (list DependencyCall)) : Prop :=
  chainManager s = chainManager sl
  /\ appliedChains s = appliedChains sl
  /\ appliedDeps s = appliedDeps sl
  /\ chainDeps s = replay (chainDeps sl) depsManager0.

(** Two runs that both run out of fuel, or both return, in related states. *)
Definition bothReturn {A B} (R : A -> B -> Prop) (x : option A) (y : option B)
  : Prop :=
  match x, y with
  | Some a, Some b => R a b
  | None, None => True
  | _, _ => False
  end.

(** The validity flags read the same in [st'] as in [st]. *)
Definition flagsRestored (st st' : State) : Prop :=
  forall d, isFileValid d (validFiles st') = isFileValid d (validFiles st).

(** A set of units that holds whatever an import of one of its units
    resolves to, whatever the store. *)
Definition importsClosed (env : Env) (resolver : SyncResolver) (U : gset string)
  : Prop :=
  forall fs fileName specifier p,
    fileName ∈ U ->
    specifier ∈ importsBelow env (getSourceFile env fs fileName) ->
    (resolveSync env resolver fileName specifier).1 = Normal p ->
    p ∈ U.

(** Whether a pass that meets the unit would enter it: a declaration that
    is not registered, or another unit whose flag is not set. *)
Definition pending (st : State) (u : string) : bool :=
  if matchesDAnyTs u then negb (hasTypeDeclaration u (depManager st))
  else negb (isFileValid u (validFiles st)).

(** The units of [U] that a pass would enter. *)
Definition pendingUnits (U : gset string) (st : State) : gset string :=
  filter (fun u => pending st u = true) U.

(** No unit is pending in [st'] that was not pending in [st]. *)
Definition pendingShrinks (st st' : State) : Prop :=
  forall u, pending st' u = true -> pending st u = true.

(** The same for the concurrent mode, which resolves with [resolveAsync]. *)
Definition importsClosedAsync (env : Env) (resolver : AsyncResolver)
    (U : gset string) : Prop :=
  forall fs fileName specifier p,
    fileName ∈ U ->
    specifier ∈ importsBelow env (getSourceFile env fs fileName) ->
    (resolveAsync env resolver fileName specifier).1 = Normal p ->
    p ∈ U.

(** A pending task that works on a unit of [U]: a flow for such a unit, or
    one of the imports of such a unit. *)
Definition taskWithin (env : Env) (U : gset string) (t : Task) : Prop :=
  match t with
  | TaskFlow _ fileName _ => fileName ∈ U
  | TaskImport _ fileName depRelFileName =>
      fileName ∈ U
      /\ exists fs, depRelFileName ∈ importsBelow env (getSourceFile env fs fileName)
  | TaskSettled _ _ => True
  end.

(** Every pending task works on a unit of [U]. *)
Definition tasksWithin (env : Env) (U : gset string) (a : AsyncState) : Prop :=
  forall t, t ∈ tasks a -> taskWithin env U t.

(** The entries of the units outside [U] are left as they are. *)
Definition entriesOutsideKept (U : gset string) (st st' : State) : Prop :=
  forall g, g ∉ U ->
    dependencies (depManager st') !! g = dependencies (depManager st) !! g.

(** The paths that the dependency checks record as edges: neither
    declarations nor compiled modules. *)
Definition isRecorded (d : string) : bool :=
  negb (matchesDAnyTs d) && negb (matchesJs d).

(** ** Scenarios: a source graph given as a table

    Every unit of the table is a file whose text is its own name and whose
    imports are the specifiers listed; the resolver finds exactly the units
    of the table. *)
Definition importsIn (table : list (string * list string)) (fileName : string)
  : list string :=
  match filter (fun kv => kv.1 = fileName) table with
  | (_, specifiers) :: _ => specifiers
  | [] => []
  end.

Definition tableRead (table : list (string * list string)) (fileName : string)
  : option string :=
  if bool_decide (fileName ∈ map fst table) then Some fileName else None.

Definition tableEnv (table : list (string * list string)) : Env :=
  {| fsReadFile := tableRead table;
     fsReadFileSync := tableRead table;
     getSourceFile := fun _ fileName =>
       OtherNode (map (fun specifier => ImportEqualsDeclaration (Some specifier) [])
                    (importsIn table fileName));
     getEmitOutput := fun _ fileName =>
       {| outputFiles := [(fileName +:+ ".js", "")]; emitSkipped := false |};
     getCompilerOptionsDiagnostics := fun _ => [];
     getSyntacticDiagnostics := fun _ _ => [];
     getSemanticDiagnostics := fun _ _ => [];
     pathDirname := fun _ => "/src";
     pathResolve := fun _ fileName => fileName;
     runtimeFileName := "runtime.d.ts" |}.

Definition tableResolver (table : list (string * list string))
  : string -> string -> Completion string :=
  fun _ dep =>
    if bool_decide (dep ∈ map fst table) then Normal dep
    else Throw (ResolverError true ("Cannot resolve " +:+ dep)).

Definition emptyManager : DependencyManager :=
  {| dependencies := ∅; knownTypeDeclarations := [] |}.

(** The store in which every unit of the table is loaded and nothing has
    been resolved yet. *)
Definition loadedState (table : list (string * list string)) : State :=
  {| files := map (fun kv => (kv.1, {| text := kv.1; version := 0 |})) table;
     depManager := emptyManager;
     validFiles := {| validFlags := ∅ |};
     runtimeRead := false |}.

(** [A.ts] imports [B] and [C], and [B.ts] imports [A] back. *)
Definition cycleTable : list (string * list string) :=
  [("A.ts", ["B"; "C"]); ("B.ts", ["A"]); ("C.ts", [])].

(** [A.ts] imports [B]. *)
Definition pairTable : list (string * list string) :=
  [("A.ts", ["B"]); ("B.ts", [])].

(** [main.ts] imports [missing], which the resolver does not find. *)
Definition brokenTable : list (string * list string) :=
  [("main.ts", ["missing"])].

(** [main.ts] imports [B], which is found, and then [missing]. *)
Definition halfBrokenTable : list (string * list string) :=
  [("main.ts", ["B"; "missing"]); ("B.ts", [])].

(** The graph that the sequential mode builds for two units that import
    each other. *)
Definition mutualTable : list (string * list string) :=
  [("A.ts", ["B"]); ("B.ts", ["A"])].

Definition mutualGraph : DependencyManager :=
  match checkDependenciesSync (tableEnv mutualTable) 3 (tableResolver mutualTable)
          "A.ts" (loadedState mutualTable) with
  | Some (_, st) => depManager st
  | None => emptyManager
  end.

(** A graph with a diamond below [A.ts], a cycle through [A.ts] and a unit
    that nothing depends on, and one declaration in the registry. *)
Definition diamondGraph : DependencyManager :=
  {| dependencies := {[ "A.ts" := ["B.ts"; "C.ts"]; "B.ts" := ["D.ts"; "A.ts"];
                        "C.ts" := ["D.ts"]; "E.ts" := ["A.ts"] ]};
     knownTypeDeclarations := ["lib.d.ts"] |}.

(** The resolver that finds every specifier where it is asked to look. *)
Definition identityResolver : string -> string -> Completion string :=
  fun _ dep => Normal dep.

(** [main.ts] references a declaration file that imports a specifier the
    resolver does not find. *)
Definition brokenDeclarationTable : list (string * list string) :=
  [("main.ts", ["lib.d.ts"]); ("lib.d.ts", ["missing"])].

(** [main.ts] imports a unit, a declaration file and a compiled module;
    nothing leads back to [main.ts]. *)
Definition layeredTable : list (string * list string) :=
  [("main.ts", ["B"; "lib.d.ts"; "mod.js"]); ("B.ts", ["C"]); ("C.ts", []);
   ("lib.d.ts", []); ("mod.js", [])].

(** The units below [main.ts]. *)
Definition layeredUnits : gset string :=
  list_to_set ["B.ts"; "C.ts"; "lib.d.ts"; "mod.js"].

(** The store of [pairTable] after an earlier failure: the flag of [B.ts]
    was reset, the flag of [C.ts] is set. *)
Definition staleFlagsState : State :=
  withValidFiles {| validFlags := {[ "B.ts" := false; "C.ts" := true ]} |}
    (loadedState pairTable).



(** * Properties *)

(** ** Strings and paths *)

Lemma matchesDts_has_extension p :
  matchesDts p = true -> hasNoExtension p = false.
Proof.
  unfold matchesDts, hasNoExtension, extname.
  destruct (charsRev p) as [|c5 [|c4 [|c3 [|c2 [|c1 l]]]]]; try discriminate.
  rewrite !andb_true_iff, !bool_decide_eq_true.
  intros [[[[-> ->] ->] ->] ->]. cbn.
  destruct (splitAtDot (lastComponent l)) as [[? ?]|]; reflexivity.
Qed.

Lemma append_ne_self (p s : string) : s <> "" -> p +:+ s <> p.
Proof.
  intros Hs. induction p as [|c p IH].
  - exact Hs.
  - unfold String.append; fold String.append. intros Heq.
    injection Heq as Heq. exact (IH Heq).
Qed.

Lemma append_suffix_ne (p s s' : string) : s <> s' -> p +:+ s <> p +:+ s'.
Proof. intros Hs Heq. apply Hs. exact (String.app_inj p _ _ Heq). Qed.

(** ** Path resolution *)

Section Resolution.
Variable env : Env.
Variable resolver : string -> string -> Completion string.
Variables fileName defPath : string.

Let base := pathDirname env fileName.
Let ts := (base, defPath +:+ ".ts").
Let dts := (base, defPath +:+ ".d.ts").
Let raw := (base, defPath).

Lemma ts_ne_dts : ts <> dts.
Proof.
  unfold ts, dts. intros Heq. injection Heq as Heq.
  revert Heq. apply append_suffix_ne. discriminate.
Qed.

Lemma raw_ne_ts : raw <> ts.
Proof.
  unfold raw, ts. intros Heq. injection Heq as Heq.
  symmetry in Heq. revert Heq. apply append_ne_self. discriminate.
Qed.

Lemma raw_ne_dts : raw <> dts.
Proof.
  unfold raw, dts. intros Heq. injection Heq as Heq.
  symmetry in Heq. revert Heq. apply append_ne_self. discriminate.
Qed.

Lemma attempts_fallback caught (outcome : Completion string * Trace) :
  outcome.2 = (attempts caught resolver base defPath).2 ->
  (forall p, resolver base (defPath +:+ ".ts") = Normal p ->
             outcome = (Normal p, [ts])) ->
  extensionFallback caught resolver base defPath outcome.
Proof.
  intros Htrace Hfirst. unfold extensionFallback. fold base ts dts raw.
  rewrite Htrace. unfold attempts.
  pose proof ts_ne_dts as H1. pose proof raw_ne_ts as H2.
  pose proof raw_ne_dts as H3.
  destruct (resolver base (defPath +:+ ".ts")) as [p|e] eqn:E1;
    [|destruct (caught e) eqn:C1;
      [destruct (resolver base (defPath +:+ ".d.ts")) as [p'|e'] eqn:E2;
       [|destruct (caught e') eqn:C2]|]];
    cbn [snd]; repeat split; eauto;
    try (intros ?; exfalso; set_solver);
    try (intros; set_solver);
    try (intros; congruence).
Qed.

Lemma resolveSync_attempts :
  hasNoExtension defPath = true ->
  (resolveSync env resolver fileName defPath).2
  = (attempts (fun _ => true) resolver base defPath).2
  /\ forall p, resolver base (defPath +:+ ".ts") = Normal p ->
               resolveSync env resolver fileName defPath = (Normal p, [ts]).
Proof.
  intros Hext. unfold resolveSync, attempts, callResolver, catchAll.
  fold base. rewrite Hext. fold ts dts raw.
  destruct (resolver base (defPath +:+ ".ts")) as [p|e];
    [|destruct (resolver base (defPath +:+ ".d.ts")) as [p'|e'];
      [|destruct (resolver base defPath)]];
    cbn; split; try reflexivity; intros; congruence.
Qed.

Lemma resolveAsync_attempts :
  hasNoExtension defPath = true ->
  (resolveAsync env resolver fileName defPath).2
  = (attempts isOperational resolver base defPath).2
  /\ forall p, resolver base (defPath +:+ ".ts") = Normal p ->
               resolveAsync env resolver fileName defPath = (Normal p, [ts]).
Proof.
  intros Hext. unfold resolveAsync, attempts, callResolver, promiseError.
  fold base. rewrite Hext. fold ts dts raw.
  destruct (resolver base (defPath +:+ ".ts")) as [p|e];
    [|destruct (isOperational e) eqn:O1;
      [destruct (resolver base (defPath +:+ ".d.ts")) as [p'|e'];
       [|destruct (isOperational e') eqn:O2;
         [destruct (resolver base defPath) as [p''|e'']; [|destruct (isOperational e'')]|]]|]];
    cbn; rewrite ?O1, ?O2; cbn; split; try reflexivity;
    intros; congruence.
Qed.

(** C5. A specifier without extension is tried with [.ts] first, with
    [.d.ts] only after that failed, and as it is only after both failed, in
    the sequential and in the concurrent mode; when the [.ts] attempt
    succeeds it is the only call of the resolver.  A specifier that ends in
    [.d.ts] is returned as it is and the resolver is not called. *)
Theorem resolve_extension_fallback :
  (hasNoExtension defPath = true ->
   extensionFallback (fun _ => true) resolver base defPath
     (resolveSync env resolver fileName defPath)
   /\ extensionFallback isOperational resolver base defPath
        (resolveAsync env resolver fileName defPath))
  /\ (matchesDts defPath = true ->
      resolveSync env resolver fileName defPath = (Normal defPath, [])
      /\ resolveAsync env resolver fileName defPath = (Normal defPath, [])).
Proof.
  split.
  - intros Hext.
    destruct (resolveSync_attempts Hext) as [Hs1 Hs2].
    destruct (resolveAsync_attempts Hext) as [Ha1 Ha2].
    split; apply attempts_fallback; assumption.
  - intros Hdts. pose proof (matchesDts_has_extension _ Hdts) as Hext.
    unfold resolveSync, resolveAsync. rewrite Hext, Hdts. split; reflexivity.
Qed.

End Resolution.

Lemma resolve_extension_fallback_witness :
  resolveSync (tableEnv cycleTable) (tableResolver cycleTable) "A.ts" "B"
  = (Normal "B.ts", [("/src", "B.ts")])
  /\ resolveAsync (tableEnv cycleTable) (tableResolver cycleTable) "A.ts" "B"
     = (Normal "B.ts", [("/src", "B.ts")])
  /\ resolveSync (tableEnv cycleTable) (tableResolver cycleTable) "A.ts" "lib.d.ts"
     = (Normal "lib.d.ts", []).
Proof.
  pose proof (resolve_extension_fallback (tableEnv cycleTable)
                (tableResolver cycleTable) "A.ts" "B") as [Hfallback _].
  destruct (Hfallback eq_refl)
    as [(_ & _ & _ & Hsync & _) (_ & _ & _ & Hasync & _)].
  pose proof (resolve_extension_fallback (tableEnv cycleTable)
                (tableResolver cycleTable) "A.ts" "lib.d.ts") as [_ Hdts].
  split; [exact (Hsync "B.ts" eq_refl)|].
  split; [exact (Hasync "B.ts" eq_refl)|].
  exact (proj1 (Hdts eq_refl)).
Defined.

(** ** The unit store *)

Lemma filesGet_filesSet_eq fileName file fs :
  filesGet fileName (filesSet fileName file fs) = Some file.
Proof.
  induction fs as [|[k v] fs IH]; simpl.
  - rewrite decide_True; done.
  - destruct (decide (k = fileName)) as [->|Hne]; simpl.
    + rewrite decide_True; done.
    + rewrite decide_False; done.
Qed.

Lemma filesGet_filesSet_ne fileName other file fs :
  other <> fileName ->
  filesGet other (filesSet fileName file fs) = filesGet other fs.
Proof.
  intros Hne. induction fs as [|[k v] fs IH]; simpl.
  - rewrite decide_False; congruence.
  - destruct (decide (k = fileName)) as [->|Hk]; simpl.
    + rewrite !decide_False; congruence.
    + destruct (decide (k = other)); done.
Qed.

Lemma updateFile_stored fileName newText checked fs :
  exists v, filesGet fileName (updateFile fileName newText checked fs).2
            = Some {| text := newText; version := v |}.
Proof.
  unfold updateFile.
  destruct (filesGet fileName fs) as [prev|];
    [destruct (negb checked || checked && negb (newText =? text prev)%string)|];
    cbn; eexists; apply filesGet_filesSet_eq.
Qed.

Lemma updateFile_changed_text fileName newText checked fs prev :
  filesGet fileName fs = Some prev ->
  newText <> text prev ->
  updateFile fileName newText checked fs
  = (true, filesSet fileName
             {| text := newText; version := (version prev + 1)%N |} fs).
Proof.
  intros Hprev Hne. unfold updateFile. rewrite Hprev.
  apply String.eqb_neq in Hne. rewrite Hne.
  destruct checked; reflexivity.
Qed.

Lemma updateFile_unchecked fileName newText fs prev :
  filesGet fileName fs = Some prev ->
  updateFile fileName newText false fs
  = (true, filesSet fileName
             {| text := newText; version := (version prev + 1)%N |} fs).
Proof. intros Hprev. unfold updateFile. rewrite Hprev. reflexivity. Qed.

Lemma updateFile_checked_same_text fileName fs prev :
  filesGet fileName fs = Some prev ->
  (updateFile fileName (text prev) true fs).1 = false
  /\ sameTextKeepsVersion true fileName fs.
Proof.
  intros Hprev. unfold sameTextKeepsVersion, updateFile. rewrite Hprev.
  rewrite String.eqb_refl. cbn. split; [reflexivity|].
  intros file file' Hfile. simplify_eq. rewrite String.eqb_refl. cbn.
  rewrite filesGet_filesSet_eq. intros [= <-]. cbn. lia.
Qed.

(** With [checked] set, writing the same text back stores version 0
    whatever the version was: [updateFile] starts from [var version = 0]
    and leaves it there on this branch. *)
Example updateFile_checked_same_text_resets :
  filesGet "main.ts"
    (updateFile "main.ts" "var x;" true
       [("main.ts", {| text := "var x;"; version := 3 |})]).2
  = Some {| text := "var x;"; version := 0 |}.
Proof. reflexivity. Qed.

(** C3, as the specification states it, fails: with the default
    [checked = false] the version of a loaded unit is incremented by an
    update that writes its own text back. *)
Lemma updateFile_same_text_counterexample :
  ~ sameTextKeepsVersion false "main.ts"
      [("main.ts", {| text := "var x;"; version := 0 |})].
Proof.
  intros H.
  specialize (H {| text := "var x;"; version := 0 |}
                {| text := "var x;"; version := 1 |} eq_refl eq_refl).
  cbn in H. lia.
Qed.

(** C3, amended.  For a unit present in the store, an update with
    [checked] set and the unit's own text reports no change and does not
    increment the version, and an update with a different text that follows
    increments the version by exactly 1; with [checked] unset every update
    of the unit increments the version by exactly 1. *)
Theorem updateFile_version_steps fileName fs prev
    (Hpresent : filesGet fileName fs = Some prev) :
  let checkedSame := updateFile fileName (text prev) true fs in
  checkedSame.1 = false
  /\ sameTextKeepsVersion true fileName fs
  /\ (forall file1 newText checked,
        filesGet fileName checkedSame.2 = Some file1 ->
        newText <> text prev ->
        (updateFile fileName newText checked checkedSame.2).1 = true
        /\ filesGet fileName (updateFile fileName newText checked checkedSame.2).2
           = Some {| text := newText; version := (version file1 + 1)%N |})
  /\ (forall newText,
        (updateFile fileName newText false fs).1 = true
        /\ filesGet fileName (updateFile fileName newText false fs).2
           = Some {| text := newText; version := (version prev + 1)%N |}).
Proof.
  intros checkedSame.
  destruct (updateFile_checked_same_text _ _ _ Hpresent) as [Hsame Hkeep].
  destruct (updateFile_stored fileName (text prev) true fs) as [v Hv].
  fold checkedSame in Hv.
  split; [exact Hsame|]. split; [exact Hkeep|]. split.
  - intros file1 newText checked Hfile1 Hne.
    rewrite Hv in Hfile1. injection Hfile1 as <-.
    rewrite (updateFile_changed_text _ _ _ _ _ Hv Hne). cbn.
    split; [reflexivity|apply filesGet_filesSet_eq].
  - intros newText. rewrite (updateFile_unchecked _ _ _ _ Hpresent). cbn.
    split; [reflexivity|apply filesGet_filesSet_eq].
Qed.

Lemma updateFile_version_steps_witness :
  let fs := [("main.ts", {| text := "var x;"; version := 3 |})] in
  (updateFile "main.ts" "var x;" true fs).1 = false
  /\ (updateFile "main.ts" "var y;" false fs).1 = true.
Proof.
  intros fs.
  pose proof (updateFile_version_steps "main.ts" fs
                {| text := "var x;"; version := 3 |} eq_refl) as H.
  destruct H as (H1 & _ & _ & H4). split.
  - exact H1.
  - exact (proj1 (H4 "var y;")).
Defined.

(** ** The compilation facade: diagnostics and emission *)

Lemma allDiagnostics_fold env fs (keys : list string) (start : list Diagnostic) d :
  d ∈ fold_left
        (fun diagnostics fileName =>
           diagnostics ++ getSyntacticDiagnostics env fs fileName
                       ++ getSemanticDiagnostics env fs fileName)
        keys start
  <-> d ∈ start
      \/ exists fileName, fileName ∈ keys
           /\ (d ∈ getSyntacticDiagnostics env fs fileName
               \/ d ∈ getSemanticDiagnostics env fs fileName).
Proof.
  revert start. induction keys as [|k keys IH]; intros start; simpl.
  - split; [auto|]. intros [?|(f & Hf & _)]; [done|]. inversion Hf.
  - rewrite IH, !elem_of_app. split.
    + intros [[?|[?|?]]|(f & Hf & Hd)]; eauto.
      * right. exists k. split; [left|auto].
      * right. exists k. split; [left|auto].
      * right. exists f. split; [right; done|done].
    + intros [?|(f & Hf & Hd)]; [auto|].
      apply elem_of_cons in Hf as [->|Hf]; [|eauto].
      left. destruct Hd; auto.
Qed.

(** C7. [emitAndCheck] throws the compilation error, with all the
    diagnostics, exactly when the configuration diagnostics and the
    syntactic and semantic diagnostics of the units of the store are not
    all empty; without diagnostics it throws the emission failure exactly
    when the engine skipped the emission; otherwise it returns the output. *)
Theorem emitAndCheck_outcomes env fileName st :
  let diagnostics := allDiagnostics env (files st) in
  let output := getEmitOutput env (files st) fileName in
  (forall d, d ∈ diagnostics <->
     d ∈ getCompilerOptionsDiagnostics env (files st)
     \/ exists unit, unit ∈ filesKeys (files st)
          /\ (d ∈ getSyntacticDiagnostics env (files st) unit
              \/ d ∈ getSemanticDiagnostics env (files st) unit))
  /\ ((exists ds, emitAndCheck env fileName st = Throw (TypeScriptCompilationError ds))
      <-> diagnostics <> [])
  /\ (forall ds, emitAndCheck env fileName st = Throw (TypeScriptCompilationError ds) ->
                 ds = diagnostics)
  /\ (emitAndCheck env fileName st = Throw EmitSkipped
      <-> diagnostics = [] /\ emitSkipped output = true)
  /\ (emitAndCheck env fileName st = Normal output
      <-> diagnostics = [] /\ emitSkipped output = false)
  /\ (forall o, emitAndCheck env fileName st = Normal o -> o = output).
Proof.
  intros diagnostics output. split.
  { intros d. apply allDiagnostics_fold. }
  unfold emitAndCheck. fold diagnostics output.
  destruct diagnostics as [|d ds]; cbn.
  - destruct (emitSkipped output) eqn:Hskip; cbn;
      repeat split; try congruence; try (intros [? ?]; congruence);
      try (intros (? & ?); congruence).
  - repeat split; try congruence; try (intros [? ?]; congruence); eauto.
Qed.

(** ** The Dependency Graph as lists *)

Lemma sameGraph_refl dm : sameGraph dm dm.
Proof. split; reflexivity. Qed.

Lemma sameGraph_trans dm1 dm2 dm3 :
  sameGraph dm1 dm2 -> sameGraph dm2 dm3 -> sameGraph dm1 dm3.
Proof.
  intros [H1 K1] [H2 K2]. split; [|congruence].
  intros x. rewrite H2. apply H1.
Qed.

Lemma getDependencies_reads fileName dm :
  (getDependencies fileName dm).1 = depsOf dm fileName
  /\ sameGraph dm (getDependencies fileName dm).2.
Proof.
  unfold getDependencies, hasDependencies. cbn. case_bool_decide as Hsome.
  - split; [reflexivity|apply sameGraph_refl].
  - apply eq_None_not_Some in Hsome. split.
    + unfold depsOf, clearDependencies. cbn. rewrite lookup_insert_eq.
      rewrite Hsome. reflexivity.
    + split; [|reflexivity]. intros x. unfold depsOf, clearDependencies. cbn.
      destruct (decide (x = fileName)) as [->|Hne].
      * rewrite lookup_insert_eq, Hsome. reflexivity.
      * rewrite lookup_insert_ne by congruence. reflexivity.
Qed.

Lemma elem_of_targets dm fileName d :
  d ∈ depsOf dm fileName -> d ∈ targets dm.
Proof.
  unfold depsOf, targets. intros Hd.
  destruct (dependencies dm !! fileName) as [l|] eqn:Hl; [|inversion Hd].
  cbn in Hd. apply elem_of_union_list.
  exists (list_to_set l). split.
  - apply list_elem_of_fmap. exists (fileName, l). split; [reflexivity|].
    by apply elem_of_map_to_list.
  - by apply elem_of_list_to_set.
Qed.

Lemma toFileSet_lookup fileNames x :
  is_Some (toFileSet fileNames !! x) <-> x ∈ fileNames.
Proof.
  unfold toFileSet.
  assert (forall (m : gmap string bool),
            is_Some (fold_left (fun (m : gmap string bool) f => <[f := true]> m)
                       fileNames m !! x)
            <-> x ∈ fileNames \/ is_Some (m !! x)) as Hgen.
  { induction fileNames as [|f fs IH]; intros m; cbn.
    - split; [auto|]. intros [H|H]; [inversion H|done].
    - rewrite IH, elem_of_cons. destruct (decide (f = x)) as [->|Hne].
      + rewrite lookup_insert_eq. split; [intros _; auto|].
        intros _. right. eauto.
      + rewrite lookup_insert_ne by done. split; [tauto|].
        intros [[?|?]|?]; [congruence|auto..]. }
  rewrite Hgen, lookup_empty. split; [|auto].
  intros [?|[? ?]]; done.
Qed.

(** ** The Dependency Graph, with arrays as objects *)

Section References.

Lemma alloc_fresh contents (h : gmap nat (list string)) :
  h !! (Ref.alloc contents h).1 = None.
Proof.
  unfold Ref.alloc. cbn. apply not_elem_of_dom. apply is_fresh.
Qed.

Lemma entry_clearDependencies fileName m g :
  Ref.wellFormed m ->
  Ref.entry (Ref.clearDependencies fileName m) g
  = if decide (g = fileName) then Some [] else Ref.entry m g.
Proof.
  intros [Hallocated _]. unfold Ref.entry, Ref.clearDependencies.
  pose proof (alloc_fresh [] (Ref.heap m)) as Hfresh.
  unfold Ref.alloc in *. cbn in *.
  destruct (decide (g = fileName)) as [->|Hne].
  - rewrite lookup_insert_eq. cbn. apply lookup_insert_eq.
  - rewrite lookup_insert_ne by congruence.
    destruct (Ref.dependencies m !! g) as [b|] eqn:Hg; [|reflexivity]. cbn.
    apply lookup_insert_ne. intros <-.
    destruct (Hallocated _ _ Hg) as [? Hb]. congruence.
Qed.

Lemma wellFormed_clearDependencies fileName m :
  Ref.wellFormed m -> Ref.wellFormed (Ref.clearDependencies fileName m).
Proof.
  intros [Hallocated Hshare].
  pose proof (alloc_fresh [] (Ref.heap m)) as Hfresh.
  unfold Ref.wellFormed, Ref.clearDependencies, Ref.alloc in *. cbn in *. split.
  - intros f a Hf. destruct (decide (f = fileName)) as [->|Hne].
    + rewrite lookup_insert_eq in Hf. injection Hf as <-.
      rewrite lookup_insert_eq. eauto.
    + rewrite lookup_insert_ne in Hf by congruence.
      destruct (Hallocated _ _ Hf) as [x Hx].
      rewrite lookup_insert_ne by congruence. eauto.
  - intros f g a Hf Hg.
    destruct (decide (f = fileName)) as [->|Hnf];
      destruct (decide (g = fileName)) as [->|Hng]; [done| | |].
    + rewrite lookup_insert_eq in Hf. injection Hf as <-.
      rewrite lookup_insert_ne in Hg by congruence.
      destruct (Hallocated _ _ Hg) as [x Hx]. congruence.
    + rewrite lookup_insert_eq in Hg. injection Hg as <-.
      rewrite lookup_insert_ne in Hf by congruence.
      destruct (Hallocated _ _ Hf) as [x Hx]. congruence.
    + rewrite lookup_insert_ne in Hf, Hg by congruence. eauto.
Qed.

Lemma wellFormed_ensureEntry fileName m :
  Ref.wellFormed m -> Ref.wellFormed (Ref.ensureEntry fileName m).
Proof.
  intros Hwf. unfold Ref.ensureEntry.
  destruct (Ref.dependencies m !! fileName); [done|].
  by apply wellFormed_clearDependencies.
Qed.

Lemma entry_ensureEntry fileName m g :
  Ref.wellFormed m ->
  Ref.entry (Ref.ensureEntry fileName m) g
  = if decide (g = fileName) then Some (default [] (Ref.entry m fileName))
    else Ref.entry m g.
Proof.
  intros Hwf. unfold Ref.ensureEntry.
  destruct (Ref.dependencies m !! fileName) as [a|] eqn:Hf.
  - destruct (decide (g = fileName)) as [->|]; [|reflexivity].
    unfold Ref.entry. rewrite Hf. cbn.
    destruct (proj1 Hwf _ _ Hf) as [x ->]. reflexivity.
  - rewrite entry_clearDependencies by done.
    destruct (decide (g = fileName)); [|reflexivity].
    unfold Ref.entry. rewrite Hf. reflexivity.
Qed.

Lemma ensureEntry_present fileName m :
  is_Some (Ref.dependencies (Ref.ensureEntry fileName m) !! fileName).
Proof.
  unfold Ref.ensureEntry.
  destruct (Ref.dependencies m !! fileName) as [a|] eqn:Hf; [by rewrite Hf|].
  unfold Ref.clearDependencies, Ref.alloc. cbn. rewrite lookup_insert_eq. eauto.
Qed.

Lemma heap_ensureEntry_None fileName m address :
  Ref.heap (Ref.ensureEntry fileName m) !! address = None ->
  Ref.heap m !! address = None.
Proof.
  unfold Ref.ensureEntry.
  destruct (Ref.dependencies m !! fileName); [done|].
  unfold Ref.clearDependencies, Ref.alloc. cbn. intros H.
  apply lookup_insert_None in H as [H _]. exact H.
Qed.

(** The lists stored by the heap model are those of [DependencyManager]:
    clearing, adding and reading agree with the functions on lists. *)
Lemma graph_lookup m g : Ref.graph m !! g = Ref.entry m g.
Proof. unfold Ref.graph, Ref.entry. apply lookup_omap. Qed.

Lemma graph_clearDependencies fileName m known :
  Ref.wellFormed m ->
  Ref.graph (Ref.clearDependencies fileName m)
  = dependencies
      (clearDependencies fileName
         {| dependencies := Ref.graph m; knownTypeDeclarations := known |}).
Proof.
  intros Hwf. apply map_eq. intros g.
  unfold clearDependencies. cbn [dependencies].
  rewrite graph_lookup, entry_clearDependencies by done.
  destruct (decide (g = fileName)) as [->|Hne].
  - by rewrite lookup_insert_eq.
  - rewrite lookup_insert_ne by congruence. by rewrite graph_lookup.
Qed.

Lemma graph_addDependency fileName depFileName m known :
  Ref.wellFormed m ->
  Ref.graph (Ref.addDependency fileName depFileName m)
  = dependencies
      (addDependency fileName depFileName
         {| dependencies := Ref.graph m; knownTypeDeclarations := known |}).
Proof.
  intros Hwf. apply map_eq. intros g.
  pose proof (wellFormed_ensureEntry fileName m Hwf) as Hwf1.
  pose proof (entry_ensureEntry fileName m) as Hentry.
  unfold Ref.addDependency.
  destruct (ensureEntry_present fileName m) as [a Ha]. rewrite Ha.
  destruct (proj1 Hwf1 _ _ Ha) as [contents Hcontents].
  rewrite graph_lookup. unfold Ref.entry at 1, Ref.push. cbn. rewrite Hcontents.
  assert (default [] (Ref.entry m fileName) = contents) as Hdefault.
  { specialize (Hentry fileName Hwf). rewrite decide_True in Hentry by done.
    unfold Ref.entry at 1 in Hentry. rewrite Ha in Hentry. cbn in Hentry.
    congruence. }
  assert (depsOf
            (if hasDependencies fileName
                  {| dependencies := Ref.graph m; knownTypeDeclarations := known |}
             then {| dependencies := Ref.graph m; knownTypeDeclarations := known |}
             else clearDependencies fileName
                    {| dependencies := Ref.graph m; knownTypeDeclarations := known |})
            fileName = contents) as Hdeps.
  { unfold hasDependencies, depsOf. cbn. case_bool_decide as Hsome.
    - cbn. rewrite graph_lookup. by rewrite <- Hdefault.
    - cbn. rewrite lookup_insert_eq. cbn. rewrite <- Hdefault.
      apply eq_None_not_Some in Hsome. rewrite graph_lookup in Hsome.
      by rewrite Hsome. }
  unfold addDependency. cbn [dependencies]. rewrite Hdeps.
  destruct (decide (g = fileName)) as [->|Hne].
  - rewrite Ha. cbn. rewrite !lookup_insert_eq. reflexivity.
  - rewrite lookup_insert_ne by congruence.
    destruct (Ref.dependencies (Ref.ensureEntry fileName m) !! g) as [b|] eqn:Hg; cbn.
    + assert (b <> a) as Hba.
      { intros ->. apply Hne. exact (proj2 Hwf1 _ _ _ Hg Ha). }
      rewrite lookup_insert_ne by congruence.
      specialize (Hentry g Hwf). rewrite decide_False in Hentry by done.
      unfold Ref.entry at 1 in Hentry. rewrite Hg in Hentry. cbn in Hentry.
      rewrite Hentry. unfold hasDependencies. cbn. case_bool_decide; cbn.
      * by rewrite graph_lookup.
      * rewrite lookup_insert_ne by congruence. by rewrite graph_lookup.
    + specialize (Hentry g Hwf). rewrite decide_False in Hentry by done.
      unfold Ref.entry at 1 in Hentry. rewrite Hg in Hentry. cbn in Hentry.
      unfold hasDependencies. cbn. case_bool_decide; cbn.
      * by rewrite graph_lookup.
      * rewrite lookup_insert_ne by congruence. by rewrite graph_lookup.
Qed.

Lemma wellFormed_addDependency fileName depFileName m :
  Ref.wellFormed m -> Ref.wellFormed (Ref.addDependency fileName depFileName m).
Proof.
  intros Hwf. pose proof (wellFormed_ensureEntry fileName m Hwf) as Hwf1.
  unfold Ref.addDependency.
  destruct (Ref.dependencies (Ref.ensureEntry fileName m) !! fileName)
    as [a|] eqn:Ha; [|exact Hwf1].
  destruct Hwf1 as [Hallocated Hshare]. split; cbn; [|exact Hshare].
  intros f b Hf. destruct (Hallocated _ _ Hf) as [x Hx]. unfold Ref.push.
  destruct (Ref.heap (Ref.ensureEntry fileName m) !! a) as [contents|];
    [|eauto].
  destruct (decide (a = b)) as [->|Hne].
  - rewrite lookup_insert_eq. eauto.
  - rewrite lookup_insert_ne by done. eauto.
Qed.

Lemma wellFormed_empty : Ref.wellFormed Ref.empty.
Proof.
  split; cbn.
  - intros f a Hf. rewrite lookup_empty in Hf. discriminate.
  - intros f g a Hf. rewrite lookup_empty in Hf. discriminate.
Qed.

Lemma getDependencies_frame fileName m (Hwf : Ref.wellFormed m) :
  let address := (Ref.getDependencies fileName m).1 in
  let m' := (Ref.getDependencies fileName m).2 in
  Ref.heap m !! address = None
  /\ Ref.heap m' !! address = Some (default [] (Ref.entry m fileName))
  /\ Ref.entry m' fileName = Some (default [] (Ref.entry m fileName))
  /\ (forall g a, Ref.dependencies m' !! g = Some a -> a <> address)
  /\ (forall contents g, Ref.entry (Ref.mutate address contents m') g = Ref.entry m' g)
  /\ (forall g, g <> fileName -> Ref.entry m' g = Ref.entry m g)
  /\ (Ref.dependencies m !! fileName = None -> Ref.entry m' fileName = Some [])
  /\ Ref.wellFormed m'.
Proof.
  intros address m'.
  pose proof (wellFormed_ensureEntry fileName m Hwf) as Hwf1.
  pose proof (entry_ensureEntry fileName m) as Hentry.
  set (m1 := Ref.ensureEntry fileName m) in *.
  set (contents := default [] (Ref.dependencies m1 !! fileName ≫= (Ref.heap m1 !!.))).
  pose proof (alloc_fresh contents (Ref.heap m1)) as Hfresh.
  assert (address = fresh (dom (Ref.heap m1))) as Haddress by reflexivity.
  assert (m' = {| Ref.heap := <[address := contents]> (Ref.heap m1);
                  Ref.dependencies := Ref.dependencies m1 |}) as Hm' by reflexivity.
  unfold Ref.alloc in Hfresh. cbn in Hfresh. rewrite <- Haddress in Hfresh.
  assert (contents = default [] (Ref.entry m fileName)) as Hcontents.
  { unfold contents. fold (Ref.entry m1 fileName). rewrite Hentry by done.
    rewrite decide_True by done. reflexivity. }
  assert (forall g a, Ref.dependencies m1 !! g = Some a -> a <> address) as Hother.
  { intros g a Hg ->. destruct (proj1 Hwf1 _ _ Hg) as [x Hx]. congruence. }
  assert (forall g, Ref.entry m' g = Ref.entry m1 g) as Hsame.
  { intros g. rewrite Hm'. unfold Ref.entry. cbn.
    destruct (Ref.dependencies m1 !! g) as [a|] eqn:Hg; [|reflexivity]. cbn.
    apply lookup_insert_ne. intros <-. exact (Hother _ _ Hg eq_refl). }
  split.
  { exact (heap_ensureEntry_None fileName m address Hfresh). }
  split. { rewrite Hm'. cbn. rewrite lookup_insert_eq. by rewrite Hcontents. }
  split. { rewrite Hsame, Hentry by done. by rewrite decide_True. }
  split. { intros g a. rewrite Hm'. cbn. apply Hother. }
  split.
  { intros contents' g. rewrite Hm'. unfold Ref.entry, Ref.mutate. cbn.
    destruct (Ref.dependencies m1 !! g) as [a|] eqn:Hg; [|reflexivity]. cbn.
    rewrite !lookup_insert_ne; [reflexivity|..];
      intros <-; exact (Hother _ _ Hg eq_refl). }
  split. { intros g Hne. rewrite Hsame, Hentry by done. by rewrite decide_False. }
  split.
  { intros Hnone. rewrite Hsame, Hentry by done. rewrite decide_True by done.
    unfold Ref.entry. rewrite Hnone. reflexivity. }
  rewrite Hm'. destruct Hwf1 as [Hallocated Hshare]. split; cbn.
  - intros f a Hf. destruct (Hallocated _ _ Hf) as [x Hx].
    rewrite lookup_insert_ne; [eauto|].
    intros Heq. exact (Hother _ _ Hf (eq_sym Heq)).
  - exact Hshare.
Qed.

Lemma graph_getDependencies fileName m known :
  Ref.wellFormed m ->
  let dm := {| dependencies := Ref.graph m; knownTypeDeclarations := known |} in
  Ref.heap (Ref.getDependencies fileName m).2 !! (Ref.getDependencies fileName m).1
  = Some (getDependencies fileName dm).1
  /\ Ref.graph (Ref.getDependencies fileName m).2
     = dependencies (getDependencies fileName dm).2.
Proof.
  intros Hwf dm.
  destruct (getDependencies_frame fileName m Hwf)
    as (_ & Hcopy & Hentry & _ & _ & Hothers & _).
  assert (depsOf dm fileName = default [] (Ref.entry m fileName)) as Hdeps
    by (unfold depsOf, dm; cbn; by rewrite graph_lookup).
  destruct (getDependencies_reads fileName dm) as [Hread _].
  split; [by rewrite Hcopy, Hread, Hdeps|].
  subst dm. apply map_eq. intros g. rewrite graph_lookup.
  unfold getDependencies, hasDependencies. cbn [snd dependencies].
  destruct (decide (g = fileName)) as [->|Hne].
  - rewrite Hentry. case_bool_decide as Hsome; cbn.
    + rewrite graph_lookup in Hsome |- *. destruct Hsome as [l Hl].
      by rewrite Hl.
    + rewrite lookup_insert_eq. apply eq_None_not_Some in Hsome.
      rewrite graph_lookup in Hsome. by rewrite Hsome.
  - rewrite (Hothers g Hne). case_bool_decide; cbn.
    + by rewrite graph_lookup.
    + rewrite lookup_insert_ne by congruence. by rewrite graph_lookup.
Qed.

(** C10. [getDependencies] returns a fresh copy: the array it returns holds
    the list stored for the unit, it is the array of no unit, and whatever
    the caller writes into it leaves the entry of every unit unchanged; a
    unit that had no entry is given the empty one, and no entry of another
    unit changes. *)
Theorem getDependencies_returns_copy fileName m (Hwf : Ref.wellFormed m) :
  let address := (Ref.getDependencies fileName m).1 in
  let m' := (Ref.getDependencies fileName m).2 in
  Ref.heap m !! address = None
  /\ Ref.heap m' !! address = Some (default [] (Ref.entry m fileName))
  /\ Ref.entry m' fileName = Some (default [] (Ref.entry m fileName))
  /\ (forall g a, Ref.dependencies m' !! g = Some a -> a <> address)
  /\ (forall contents g,
        Ref.entry (Ref.mutate address contents m') g = Ref.entry m' g)
  /\ (forall g, g <> fileName -> Ref.entry m' g = Ref.entry m g)
  /\ (Ref.dependencies m !! fileName = None -> Ref.entry m' fileName = Some [])
  /\ Ref.wellFormed m'.
Proof. exact (getDependencies_frame fileName m Hwf). Qed.

Lemma getDependencies_returns_copy_witness :
  let m := Ref.addDependency "A.ts" "B.ts" Ref.empty in
  let address := (Ref.getDependencies "A.ts" m).1 in
  let m' := (Ref.getDependencies "A.ts" m).2 in
  Ref.heap m' !! address = Some ["B.ts"]
  /\ Ref.entry (Ref.mutate address ["B.ts"; "injected.ts"] m') "A.ts"
     = Some ["B.ts"].
Proof.
  intros m address m'.
  pose proof (getDependencies_returns_copy "A.ts" m
                (wellFormed_addDependency "A.ts" "B.ts" Ref.empty wellFormed_empty))
    as (_ & Hcopy & Hentry & _ & Hframe & _).
  split.
  - exact Hcopy.
  - exact (eq_trans (Hframe ["B.ts"; "injected.ts"] "A.ts") Hentry).
Defined.

End References.

(** ** The recompile-reason finder *)

Lemma followsEdges_path dm x l c :
  followsEdges dm x l -> last l = Some c -> dependencyPath dm x c.
Proof.
  revert x. induction l as [|y l IH]; intros x Hl Hlast; [discriminate|].
  destruct Hl as [Hedge Hrest]. destruct l as [|z l].
  - cbn in Hlast. injection Hlast as <-. by apply tc_once.
  - eapply tc_l; [exact Hedge|]. apply IH; [exact Hrest|exact Hlast].
Qed.

Lemma recompileReasonInternal_step fuel fileName changed visited dm :
  recompileReasonInternal (S fuel) fileName changed visited dm
  = reasonLoop
      (fun depFileName =>
         recompileReasonInternal fuel depFileName changed
           (<[fileName := true]> visited))
      changed (<[fileName := true]> visited)
      (getDependencies fileName dm).1 (getDependencies fileName dm).2.
Proof. cbn [recompileReasonInternal]. by destruct (getDependencies fileName dm). Qed.

Section RecompileReason.
Variable dm0 : DependencyManager.
Variable changedFilesSet : gmap string bool.

Lemma reasonLoop_sound recur current x ds dm r dm' :
  (forall d, d ∈ ds -> edge dm0 x d) ->
  (forall d dm1 r1 dm1', recur d dm1 = Some (r1, dm1') ->
                         sameGraph dm0 dm1 ->
                         reasonFrom dm0 changedFilesSet d r1 /\ sameGraph dm0 dm1') ->
  sameGraph dm0 dm ->
  reasonLoop recur changedFilesSet current ds dm = Some (r, dm') ->
  reasonFrom dm0 changedFilesSet x r /\ sameGraph dm0 dm'.
Proof.
  intros Hedges Hrecur. revert dm.
  induction ds as [|d ds IH]; intros dm Hsame Hloop; cbn in Hloop.
  - injection Hloop as <- <-. split; [by left|done].
  - assert (edge dm0 x d) as Hd by (apply Hedges; left).
    assert (forall d', d' ∈ ds -> edge dm0 x d') as Hrest
      by (intros; apply Hedges; by right).
    case_bool_decide as Hchanged.
    { injection Hloop as <- <-. split; [|done]. right. cbn. eauto. }
    case_bool_decide as Hvisited; [by apply (IH Hrest dm)|].
    destruct (recur d dm) as [[r1 dm1]|] eqn:Hcall; [|discriminate].
    destruct (Hrecur _ _ _ _ Hcall Hsame) as [Hr1 Hsame1].
    destruct r1 as [|y r1]; [by apply (IH Hrest dm1)|].
    injection Hloop as <- <-. split; [|done].
    destruct Hr1 as [?|(Hfollow & c & Hlast & Hc)]; [discriminate|].
    right. split; [by split|]. exists c. split; [|done]. exact Hlast.
Qed.

Lemma recompileReasonInternal_sound fuel :
  forall fileName visited dm r dm',
    sameGraph dm0 dm ->
    recompileReasonInternal fuel fileName changedFilesSet visited dm = Some (r, dm') ->
    reasonFrom dm0 changedFilesSet fileName r /\ sameGraph dm0 dm'.
Proof.
  induction fuel as [|fuel IH]; intros fileName visited dm r dm' Hsame Hrun;
    [discriminate|].
  rewrite recompileReasonInternal_step in Hrun.
  destruct (getDependencies_reads fileName dm) as [Hdeps Hsame1].
  destruct (getDependencies fileName dm) as [fileDeps dm1]. cbn in Hdeps, Hsame1.
  cbn [fst snd] in Hrun.
  eapply reasonLoop_sound; [| |eapply sameGraph_trans; eassumption|exact Hrun].
  - intros d Hd. unfold edge. subst fileDeps.
    destruct Hsame as [Hsame _]. by rewrite <- Hsame.
  - intros d dm2 r1 dm2' Hcall Hsame2.
    eapply IH; [exact Hsame2|exact Hcall].
Qed.

Lemma reasonLoop_returns recur current ds dm :
  (forall d dm1, d ∈ ds -> ~ is_Some (current !! d) -> sameGraph dm0 dm1 ->
                 exists r1 dm1', recur d dm1 = Some (r1, dm1')
                                 /\ sameGraph dm0 dm1') ->
  sameGraph dm0 dm ->
  exists r dm', reasonLoop recur changedFilesSet current ds dm = Some (r, dm').
Proof.
  revert dm. induction ds as [|d ds IH]; intros dm Hrecur Hsame; cbn; [eauto|].
  assert (forall d' dm1, d' ∈ ds -> ~ is_Some (current !! d') -> sameGraph dm0 dm1 ->
            exists r1 dm1', recur d' dm1 = Some (r1, dm1') /\ sameGraph dm0 dm1')
    as Hrest by (intros; apply Hrecur; [by right|done..]).
  case_bool_decide as Hchanged; [eauto|].
  case_bool_decide as Hvisited; [by apply IH|].
  destruct (Hrecur d dm) as (r1 & dm1 & -> & Hsame1); [by left|done..|].
  destruct r1; [by apply IH|eauto].
Qed.

(** The search returns once the fuel exceeds the number of units that are
    the dependency of some unit and are not yet on the current path. *)
Lemma recompileReasonInternal_returns fuel :
  forall fileName visited dm,
    sameGraph dm0 dm ->
    size (targets dm0 ∖ dom (<[fileName := true]> visited)) < fuel ->
    exists r dm',
      recompileReasonInternal fuel fileName changedFilesSet visited dm
      = Some (r, dm').
Proof.
  induction fuel as [|fuel IH]; intros fileName visited dm Hsame Hsize; [lia|].
  rewrite recompileReasonInternal_step.
  destruct (getDependencies_reads fileName dm) as [Hdeps Hsame1].
  destruct (getDependencies fileName dm) as [fileDeps dm1]. cbn in Hdeps, Hsame1.
  cbn [fst snd].
  apply reasonLoop_returns; [|eapply sameGraph_trans; eassumption].
  intros d dm2 Hd Hvisited Hsame2.
  assert (d ∈ targets dm0) as Htarget.
  { apply (elem_of_targets dm0 fileName). subst fileDeps.
    destruct Hsame as [Hsame _]. by rewrite <- Hsame. }
  assert (d ∉ dom (<[fileName := true]> visited)) as Hfresh
    by (rewrite elem_of_dom; exact Hvisited).
  destruct (IH d (<[fileName := true]> visited) dm2 Hsame2) as (r1 & dm2' & Hcall).
  - rewrite (dom_insert_L (<[fileName := true]> visited)).
    assert (targets dm0 ∖ ({[d]} ∪ dom (<[fileName := true]> visited))
            ⊂ targets dm0 ∖ dom (<[fileName := true]> visited)) as Hsub
      by set_solver.
    apply subset_size in Hsub. lia.
  - exists r1, dm2'. split; [exact Hcall|].
    by destruct (recompileReasonInternal_sound _ _ _ _ _ _ Hsame2 Hcall).
Qed.

End RecompileReason.

(** C8. In a graph whose edges from [A] and [B] are A→B and B→C, with [C]
    changed and [B] not, [recompileReason] returns the path [B; C]; for a
    unit from which no dependency path leads to a changed unit it returns
    the empty sequence. *)
Theorem recompileReason_explains dm changedFiles :
  (forall A B C,
     depsOf dm A = [B] -> depsOf dm B = [C] ->
     C ∈ changedFiles -> B ∉ changedFiles ->
     forall fuel, 2 <= fuel ->
       exists dm', recompileReason fuel A changedFiles dm = Some ([B; C], dm')
                   /\ sameGraph dm dm')
  /\ (forall fileName,
        (forall c, c ∈ changedFiles -> ~ dependencyPath dm fileName c) ->
        forall fuel, size (targets dm) < fuel ->
          exists dm', recompileReason fuel fileName changedFiles dm = Some ([], dm')
                      /\ sameGraph dm dm').
Proof.
  split.
  - intros A B C HA HB HC HnB fuel Hfuel.
    destruct fuel as [|[|fuel]]; [lia..|].
    assert (B <> A) as Hne.
    { intros ->. rewrite HA in HB. injection HB as ->. done. }
    unfold recompileReason. rewrite recompileReasonInternal_step.
    destruct (getDependencies_reads A dm) as [Hdeps Hsame1].
    destruct (getDependencies A dm) as [fileDeps dm1]. cbn in Hdeps, Hsame1.
    cbn [fst snd]. rewrite Hdeps, HA. cbn [reasonLoop].
    rewrite bool_decide_eq_false_2 by (by rewrite toFileSet_lookup).
    rewrite bool_decide_eq_false_2
      by (rewrite lookup_insert_ne, lookup_empty by done; by intros [? ?]).
    rewrite recompileReasonInternal_step.
    destruct (getDependencies_reads B dm1) as [Hdeps2 Hsame2].
    destruct (getDependencies B dm1) as [fileDeps2 dm2]. cbn in Hdeps2, Hsame2.
    cbn [fst snd]. rewrite Hdeps2, (proj1 Hsame1), HB. cbn [reasonLoop].
    rewrite bool_decide_eq_true_2 by (by rewrite toFileSet_lookup).
    exists dm2. split; [reflexivity|]. by eapply sameGraph_trans.
  - intros fileName Hnone fuel Hfuel. unfold recompileReason.
    destruct (recompileReasonInternal_returns dm (toFileSet changedFiles) fuel
                fileName ∅ dm (sameGraph_refl dm)) as (r & dm' & Hrun).
    { assert (targets dm ∖ dom (<[fileName := true]> (∅ : gmap string bool))
              ⊆ targets dm) as Hsub by set_solver.
      apply subseteq_size in Hsub. lia. }
    destruct (recompileReasonInternal_sound dm _ _ _ _ _ _ _
                (sameGraph_refl dm) Hrun) as [Hr Hsame].
    exists dm'. split; [|exact Hsame]. rewrite Hrun.
    destruct Hr as [->|(Hfollow & c & Hlast & Hc)]; [reflexivity|].
    exfalso. apply (Hnone c); [by apply toFileSet_lookup|].
    by eapply followsEdges_path.
Qed.

Lemma recompileReason_explains_witness :
  let dm := {| dependencies := {[ "A" := ["B"]; "B" := ["C"] ]};
               knownTypeDeclarations := [] |} in
  exists dm', recompileReason 2 "A" ["C"] dm = Some (["B"; "C"], dm')
              /\ sameGraph dm dm'.
Proof.
  intros dm.
  apply (proj1 (recompileReason_explains dm ["C"]) "A" "B" "C").
  - reflexivity.
  - reflexivity.
  - apply (bool_decide_unpack _). vm_compute. exact I.
  - apply (bool_decide_unpack _). vm_compute. exact I.
  - lia.
Defined.

(** ** The chain applier *)

Lemma applyChain_step {D} `{Dependency D} fuel fileName (s : ChainState D) :
  applyChain (S fuel) fileName s
  = applyEach (applyChain fuel)
      (getDependencies fileName (chainManager (enterChain fileName s))).1
      (withChainManager
         (getDependencies fileName (chainManager (enterChain fileName s))).2
         (enterChain fileName s)).
Proof.
  cbn [applyChain].
  by destruct (getDependencies fileName (chainManager (enterChain fileName s))).
Qed.

Lemma addCalls_add x d (log : list DependencyCall) :
  addCalls x (add d log) = addCalls x log + (if decide (x = d) then 1 else 0).
Proof.
  unfold addCalls. cbn. rewrite filter_app, length_app. f_equal.
  rewrite filter_cons, filter_nil.
  destruct (decide (x = d)) as [->|Hne].
  - rewrite decide_True; done.
  - rewrite decide_False; [done|]. congruence.
Qed.

Lemma addCalls_declarations x (known : list string) (log : list DependencyCall) :
  x ∉ known ->
  addCalls x (fold_left (fun d declFileName => add declFileName d) known log)
  = addCalls x log.
Proof.
  revert log. induction known as [|k known IH]; intros log Hx; [reflexivity|].
  cbn [fold_left]. rewrite IH by set_solver. rewrite addCalls_add.
  rewrite decide_False by set_solver. lia.
Qed.

Section ChainApplier.
Variable dm0 : DependencyManager.
Variable root : string.

Local Abbreviation CS := (ChainState (list DependencyCall)).

(** The units the traversal can meet. *)
Let universe : gset string := targets dm0 ∪ {[root]}.

Lemma chainExt_refl s : chainExt dm0 s s.
Proof. repeat split; auto. Qed.

Lemma chainExt_trans s1 s2 s3 :
  chainExt dm0 s1 s2 -> chainExt dm0 s2 s3 -> chainExt dm0 s1 s3.
Proof.
  intros (C1 & A1 & N1) (C2 & A2 & N2). repeat split; [set_solver..|].
  intros x Hx. specialize (N1 x Hx). specialize (N2 x Hx). lia.
Qed.

Lemma truthy_false_not_dom busy (s : CS) d :
  chainInv dm0 busy s -> truthy (appliedChains s !! d) = false ->
  d ∉ dom (appliedChains s).
Proof.
  intros (_ & Htrue & _) Hd. rewrite elem_of_dom. intros [v Hv].
  rewrite Hv in Hd. cbn in Hd. specialize (Htrue _ _ Hv). congruence.
Qed.

Lemma truthy_true_dom (s : CS) d :
  truthy (appliedChains s !! d) = true -> d ∈ dom (appliedChains s).
Proof.
  rewrite elem_of_dom. destruct (appliedChains s !! d); [eauto|discriminate].
Qed.

Lemma applyDep_inv busy d (s : CS) :
  chainInv dm0 busy s ->
  chainInv dm0 busy (applyDep d s) /\ chainExt dm0 s (applyDep d s)
  /\ d ∈ dom (appliedDeps (applyDep d s)).
Proof.
  intros (Hsame & Htrue & Hclosed). unfold applyDep.
  case_bool_decide as Happlied.
  - split; [done|]. split; [apply chainExt_refl|]. by apply elem_of_dom.
  - apply eq_None_not_Some in Happlied.
    assert (d ∉ dom (appliedDeps s)) as Hnew by (by apply not_elem_of_dom).
    split; [|split].
    + split; [exact Hsame|]. split; [exact Htrue|].
      intros x e Hx Hbusy Hlatch He. cbn. rewrite dom_insert_L.
      apply elem_of_union_r. by eapply Hclosed.
    + split; [done|]. split; [cbn; rewrite dom_insert_L; set_solver|].
      intros x Hx. cbn [chainDeps]. rewrite addCalls_add.
      unfold appliedCount. cbn [appliedDeps]. rewrite dom_insert_L.
      destruct (decide (x = d)) as [->|Hne].
      * rewrite decide_False by done. rewrite decide_True by set_solver. lia.
      * destruct (decide (x ∈ dom (appliedDeps s))).
        -- rewrite decide_True by set_solver. lia.
        -- rewrite decide_False by set_solver. lia.
    + cbn. rewrite dom_insert_L. set_solver.
Qed.

Lemma enterChain_inv busy fileName (s : CS) :
  chainInv dm0 busy s ->
  chainInv dm0 (busy ∪ {[fileName]}) (enterChain fileName s)
  /\ chainExt dm0 s (enterChain fileName s)
  /\ fileName ∈ dom (appliedChains (enterChain fileName s)).
Proof.
  intros (Hsame & Htrue & Hclosed). unfold enterChain.
  set (dm1 := if hasDependencies fileName (chainManager s) then chainManager s
              else clearDependencies fileName (chainManager s)).
  assert (sameGraph dm0 dm1) as Hsame1.
  { eapply sameGraph_trans; [exact Hsame|].
    exact (proj2 (getDependencies_reads fileName (chainManager s))). }
  assert (forall x v, <[fileName := true]> (appliedChains s) !! x = Some v -> v = true)
    as Htrue1.
  { intros x v. destruct (decide (fileName = x)) as [->|Hne].
    - rewrite lookup_insert_eq. congruence.
    - rewrite lookup_insert_ne by done. apply Htrue. }
  case_bool_decide as Hlatch.
  - split; [|split].
    + split; [exact Hsame1|]. split; [exact Htrue1|].
      intros x d Hx Hbusy Hne Hd. cbn in *. rewrite dom_insert_L in Hx.
      apply (Hclosed x d); set_solver.
    + split; [cbn; rewrite dom_insert_L; set_solver|].
      split; [done|]. intros x Hx. reflexivity.
    + cbn. rewrite dom_insert_L. set_solver.
  - split; [|split].
    + split; [exact Hsame1|]. split.
      * intros x v. cbn. destruct (decide (".d.ts" = x)) as [<-|Hne].
        -- rewrite lookup_insert_eq. congruence.
        -- rewrite lookup_insert_ne by done. apply Htrue1.
      * intros x d Hx Hbusy Hne Hd. cbn in *. rewrite !dom_insert_L in Hx.
        apply (Hclosed x d); set_solver.
    + split; [cbn; rewrite !dom_insert_L; set_solver|].
      split; [done|]. intros x Hx. cbn [chainDeps].
      rewrite addCalls_declarations; [reflexivity|].
      by rewrite (proj2 Hsame1).
    + cbn. rewrite !dom_insert_L. set_solver.
Qed.

Lemma applyEach_inv recur busy fuel (ds : list string) :
  (forall d s1,
     d ∈ ds -> chainInv dm0 busy s1 -> d ∉ dom (appliedChains s1) ->
     size (universe ∖ dom (appliedChains s1)) <= fuel ->
     exists s2, recur d s1 = Some s2 /\ chainInv dm0 busy s2 /\ chainExt dm0 s1 s2
                /\ d ∈ dom (appliedChains s2)) ->
  forall s : CS,
    chainInv dm0 busy s ->
    size (universe ∖ dom (appliedChains s)) <= fuel ->
    exists s', applyEach recur ds s = Some s' /\ chainInv dm0 busy s' /\ chainExt dm0 s s'
               /\ forall d, d ∈ ds -> d ∈ dom (appliedDeps s')
                                      /\ d ∈ dom (appliedChains s').
Proof.
  induction ds as [|d ds IH]; intros Hrecur s Hinv Hsize; cbn [applyEach].
  - exists s. split; [done|]. split; [done|]. split; [apply chainExt_refl|].
    intros d Hd. inversion Hd.
  - assert (forall d' s1,
              d' ∈ ds -> chainInv dm0 busy s1 -> d' ∉ dom (appliedChains s1) ->
              size (universe ∖ dom (appliedChains s1)) <= fuel ->
              exists s2, recur d' s1 = Some s2 /\ chainInv dm0 busy s2 /\ chainExt dm0 s1 s2
                         /\ d' ∈ dom (appliedChains s2)) as Hrest
      by (intros; apply Hrecur; [by right|done..]).
    destruct (applyDep_inv busy d s Hinv) as (Hinv1 & Hext1 & Hd1).
    assert (appliedChains (applyDep d s) = appliedChains s) as Hchains
      by (unfold applyDep; by case_bool_decide).
    destruct (truthy (appliedChains (applyDep d s) !! d)) eqn:Hexpanded.
    + destruct (IH Hrest (applyDep d s) Hinv1) as (s' & Hrun & Hinv' & Hext' & Hall).
      { by rewrite Hchains. }
      exists s'. split; [exact Hrun|]. split; [exact Hinv'|].
      split; [by eapply chainExt_trans|].
      intros e He. apply elem_of_cons in He as [->|He]; [|by apply Hall].
      destruct Hext' as (C & A & _). apply truthy_true_dom in Hexpanded.
      split; set_solver.
    + pose proof (truthy_false_not_dom _ _ _ Hinv1 Hexpanded) as Hnew.
      destruct (Hrecur d (applyDep d s)) as (s2 & -> & Hinv2 & Hext2 & Hd2);
        [by left|done|done|by rewrite Hchains|].
      destruct (IH Hrest s2 Hinv2) as (s' & Hrun & Hinv' & Hext' & Hall).
      { destruct Hext2 as (C & _).
        assert (universe ∖ dom (appliedChains s2)
                ⊆ universe ∖ dom (appliedChains s)) as Hsub
          by (rewrite <- Hchains; set_solver).
        apply subseteq_size in Hsub. lia. }
      exists s'. split; [exact Hrun|]. split; [exact Hinv'|].
      split; [eapply chainExt_trans; [exact Hext1|by eapply chainExt_trans]|].
      intros e He. apply elem_of_cons in He as [->|He]; [|by apply Hall].
      destruct Hext2 as (_ & A2 & _). destruct Hext' as (C & A & _).
      split; set_solver.
Qed.

(** [applyChain] returns as soon as the fuel covers the units that are not
    expanded yet; it leaves the unit expanded, its dependencies applied,
    and the invariants in place. *)
Lemma applyChain_inv fuel :
  forall busy fileName (s : CS),
    chainInv dm0 busy s ->
    fileName ∈ universe ->
    fileName ∉ dom (appliedChains s) ->
    size (universe ∖ dom (appliedChains s)) <= fuel ->
    exists s', applyChain fuel fileName s = Some s'
               /\ chainInv dm0 busy s' /\ chainExt dm0 s s'
               /\ fileName ∈ dom (appliedChains s')
               /\ forall d, d ∈ depsOf dm0 fileName ->
                            d ∈ dom (appliedDeps s') /\ d ∈ dom (appliedChains s').
Proof.
  induction fuel as [|fuel IH]; intros busy fileName s Hinv Hin Hnew Hsize.
  { assert (size (universe ∖ dom (appliedChains s)) ≠ 0) as Hne
      by (apply size_non_empty_iff; set_solver).
    lia. }
  rewrite applyChain_step.
  destruct (enterChain_inv busy fileName s Hinv) as (Hinv1 & Hext1 & Hentered).
  set (s1 := enterChain fileName s) in *.
  destruct (getDependencies_reads fileName (chainManager s1)) as [Hdeps Hsame2].
  destruct (getDependencies fileName (chainManager s1)) as [fileDeps dm2].
  cbn [fst snd] in *.
  assert (fileDeps = depsOf dm0 fileName) as HfileDeps.
  { rewrite Hdeps. destruct Hinv1 as ((Hg & _) & _). apply Hg. }
  assert (chainInv dm0 (busy ∪ {[fileName]}) (withChainManager dm2 s1)) as Hinv2.
  { destruct Hinv1 as (Hsame1 & Htrue1 & Hclosed1).
    split; [by eapply sameGraph_trans|]. split; [exact Htrue1|exact Hclosed1]. }
  assert (size (universe ∖ dom (appliedChains s1)) <= fuel) as Hsize1.
  { assert (universe ∖ dom (appliedChains s1)
            ⊂ universe ∖ dom (appliedChains s)) as Hsub.
    { destruct Hext1 as (C & _). split; [set_solver|].
      intros Hcontra. specialize (Hcontra fileName). set_solver. }
    apply subset_size in Hsub. lia. }
  destruct (applyEach_inv (applyChain fuel) (busy ∪ {[fileName]}) fuel fileDeps)
    with (s := withChainManager dm2 s1)
    as (s' & Hrun & Hinv' & Hext' & Hall); [|exact Hinv2|exact Hsize1|].
  { intros d s2 Hd Hinvd Hnewd Hsized.
    destruct (IH (busy ∪ {[fileName]}) d s2 Hinvd) as (s3 & H3 & I3 & E3 & D3 & _);
      [|exact Hnewd|exact Hsized|eauto].
    apply elem_of_union_l. apply (elem_of_targets dm0 fileName).
    by rewrite <- HfileDeps. }
  exists s'. split; [exact Hrun|].
  assert (chainExt dm0 s s') as Hext.
  { eapply chainExt_trans; [exact Hext1|].
    destruct Hext' as (C & A & N). repeat split; assumption. }
  split; [|split; [exact Hext|split]].
  - destruct Hinv' as (Hsame' & Htrue' & Hclosed').
    split; [exact Hsame'|]. split; [exact Htrue'|].
    intros x d Hx Hbusy Hlatch Hd.
    destruct (decide (x = fileName)) as [->|Hne].
    + apply Hall. by rewrite HfileDeps.
    + apply (Hclosed' x d); [done|set_solver|done..].
  - destruct Hext' as (C & _). cbn in C. set_solver.
  - intros d Hd. apply Hall. by rewrite HfileDeps.
Qed.

End ChainApplier.


(** ** What the resolution engine writes into the graph *)

Lemma matchesDAnyTs_not_js d : matchesDAnyTs d = true -> matchesJs d = false.
Proof.
  unfold matchesDAnyTs, matchesJs.
  destruct (charsRev d) as [|c5 [|c4 [|c3 [|c2 [|c1 l]]]]]; try discriminate.
  rewrite !andb_true_iff, !bool_decide_eq_true.
  intros [[[[_ _] _] ->] ->].
  destruct (bool_decide (c3 = "."%char)); reflexivity.
Qed.

Section GraphInvariant.
Variables P Q : string -> Prop.
Hypothesis edges_ok :
  forall d, matchesDAnyTs d = false -> matchesJs d = false -> P d.
Hypothesis declarations_ok : forall d, matchesDAnyTs d = true -> Q d.

Let I (st : State) : Prop := graphSatisfies P Q (depManager st).

Lemma depsOf_clearDependencies fileName dm x :
  depsOf (clearDependencies fileName dm) x
  = if decide (x = fileName) then [] else depsOf dm x.
Proof.
  unfold depsOf, clearDependencies. cbn.
  destruct (decide (x = fileName)) as [->|Hne].
  - by rewrite lookup_insert_eq.
  - by rewrite lookup_insert_ne.
Qed.

Lemma depsOf_addDependency fileName d dm x :
  depsOf (addDependency fileName d dm) x
  = if decide (x = fileName) then depsOf dm fileName ++ [d] else depsOf dm x.
Proof.
  unfold addDependency, hasDependencies. case_bool_decide as Hsome.
  - unfold depsOf at 1. cbn. destruct (decide (x = fileName)) as [->|Hne].
    + by rewrite lookup_insert_eq.
    + by rewrite lookup_insert_ne.
  - apply eq_None_not_Some in Hsome. unfold depsOf at 1. cbn.
    destruct (decide (x = fileName)) as [->|Hne].
    + rewrite lookup_insert_eq. cbn. rewrite depsOf_clearDependencies.
      rewrite decide_True by done. unfold depsOf. by rewrite Hsome.
    + rewrite !lookup_insert_ne by done. reflexivity.
Qed.

Lemma graphSatisfies_clearDependencies fileName dm :
  graphSatisfies P Q dm -> graphSatisfies P Q (clearDependencies fileName dm).
Proof.
  intros [He Hd]. split; [|exact Hd]. intros f d.
  rewrite depsOf_clearDependencies. destruct (decide (f = fileName)).
  - intros H. inversion H.
  - apply He.
Qed.

Lemma graphSatisfies_addDependency fileName d dm :
  P d -> graphSatisfies P Q dm -> graphSatisfies P Q (addDependency fileName d dm).
Proof.
  intros HP [He Hd]. split.
  - intros f e. rewrite depsOf_addDependency. destruct (decide (f = fileName)).
    + rewrite elem_of_app, list_elem_of_singleton. intros [?| ->]; eauto.
    + apply He.
  - unfold addDependency. by destruct (hasDependencies fileName dm).
Qed.

Lemma graphSatisfies_addTypeDeclaration d dm :
  Q d -> graphSatisfies P Q dm -> graphSatisfies P Q (addTypeDeclaration d dm).
Proof.
  intros HQ [He Hd]. split; [exact He|]. intros e. unfold addTypeDeclaration. cbn.
  destruct (hasTypeDeclaration d dm); [apply Hd|].
  rewrite elem_of_app, list_elem_of_singleton. intros [?| ->]; eauto.
Qed.

Lemma keeps_ret {A} (a : A) : keeps I (ret a).
Proof. intros st r st' HI [= <- <-]. exact HI. Qed.

Lemma keeps_liftCompletion {A} (c : Completion A) : keeps I (liftCompletion c).
Proof. intros st r st' HI [= <- <-]. exact HI. Qed.

Lemma keeps_throw {A} e : keeps I (@throw A e).
Proof. intros st r st' HI [= <- <-]. exact HI. Qed.

Lemma keeps_getState : keeps I getState.
Proof. intros st r st' HI [= <- <-]. exact HI. Qed.

Lemma keeps_modify f : (forall st, I st -> I (f st)) -> keeps I (modify f).
Proof. intros Hf st r st' HI [= <- <-]. by apply Hf. Qed.

Lemma keeps_bind {A B} (c : M A) (k : A -> M B) :
  keeps I c -> (forall a, keeps I (k a)) -> keeps I (bind c k).
Proof.
  intros Hc Hk st r st' HI. unfold bind.
  destruct (c st) as [[[a|e] st1]|] eqn:Hrun; [| |discriminate].
  - apply (Hk a). by eapply Hc.
  - intros [= <- <-]. by eapply Hc.
Qed.

Lemma keeps_tryFinally {A} (body : M A) cleanup :
  keeps I body -> (forall st, I st -> I (cleanup st)) -> keeps I (tryFinally body cleanup).
Proof.
  intros Hbody Hcleanup st r st' HI. unfold tryFinally.
  destruct (body st) as [[r1 st1]|] eqn:Hrun; [|discriminate].
  intros [= <- <-]. apply Hcleanup. by eapply Hbody.
Qed.

Lemma keeps_mapM {A B} (f : A -> M B) xs :
  (forall x, keeps I (f x)) -> keeps I (mapM f xs).
Proof.
  intros Hf. induction xs as [|x xs IH]; cbn [mapM]; [apply keeps_ret|].
  apply keeps_bind; [apply Hf|]. intros y.
  apply keeps_bind; [exact IH|]. intros ys. apply keeps_ret.
Qed.

Lemma keeps_readFileAndUpdateSync env fileName checked :
  keeps I (readFileAndUpdateSync env fileName checked).
Proof.
  unfold readFileAndUpdateSync. apply keeps_bind.
  - unfold readFileSync. destruct (fsReadFileSync env fileName);
      [apply keeps_ret|apply keeps_throw].
  - intros contents. apply keeps_bind; [apply keeps_getState|]. intros st.
    destruct (updateFile fileName contents checked (files st)) as [changed fs].
    apply keeps_bind; [|intros; apply keeps_ret].
    apply keeps_modify. intros st1 H1. exact H1.
Qed.

Lemma keeps_processImportSync recur fileName depFileName :
  (forall f, keeps I (recur f)) ->
  keeps I (processImportSync recur fileName depFileName).
Proof.
  intros Hrecur. unfold processImportSync.
  destruct (matchesDAnyTs depFileName) eqn:Hdecl;
    [|destruct (matchesJs depFileName) eqn:Hjs; [apply keeps_ret|]].
  - apply keeps_bind; [apply keeps_getState|]. intros st.
    destruct (hasTypeDeclaration depFileName (depManager st)); [apply keeps_ret|].
    apply keeps_bind.
    + apply keeps_modify. intros st1 H1.
      apply graphSatisfies_addTypeDeclaration; [by apply declarations_ok|exact H1].
    + intros _. apply keeps_bind; [apply Hrecur|]. intros _. apply keeps_ret.
  - apply keeps_bind.
    + apply keeps_modify. intros st1 H1.
      apply graphSatisfies_addDependency; [by apply edges_ok|exact H1].
    + intros _. apply keeps_bind; [apply keeps_getState|]. intros st.
      destruct (isFileValid depFileName (validFiles st)); [apply keeps_ret|].
      apply keeps_bind; [apply keeps_modify; intros st1 H1; exact H1|].
      intros _. apply keeps_bind; [|intros; apply keeps_ret].
      apply keeps_tryFinally; [apply Hrecur|]. intros st1 H1. exact H1.
Qed.

Lemma keeps_checkDependenciesSync env fuel resolver :
  forall fileName, keeps I (checkDependenciesSync env fuel resolver fileName).
Proof.
  induction fuel as [|fuel IH]; intros fileName.
  - intros st r st' _ Hrun. discriminate.
  - cbn [checkDependenciesSync]. apply keeps_bind.
    + apply keeps_modify. intros st1 H1.
      by apply graphSatisfies_clearDependencies.
    + intros _. apply keeps_bind; [apply keeps_getState|]. intros st.
      apply keeps_bind.
      * destruct (filesGet fileName (files st)); [apply keeps_ret|].
        apply keeps_bind; [apply keeps_readFileAndUpdateSync|].
        intros; apply keeps_ret.
      * intros _. unfold checkDependenciesInternalSync.
        apply keeps_bind; [apply keeps_getState|]. intros st1.
        apply keeps_bind.
        -- apply keeps_mapM. intros x. apply keeps_liftCompletion.
        -- intros resolved. apply keeps_bind; [|intros; apply keeps_ret].
           apply keeps_mapM. intros d. apply keeps_processImportSync. exact IH.
Qed.

(** The same for the concurrent mode, step by step. *)
Lemma store_settle id outcome a : store (settle id outcome a) = store a.
Proof.
  unfold settle. destruct (activations a !! id) as [act|]; [|reflexivity].
  by destruct (settled act).
Qed.

Lemma store_importFulfilled id a : store (importFulfilled id a) = store a.
Proof.
  unfold importFulfilled. destruct (activations a !! id) as [act|]; [|reflexivity].
  destruct (Nat.eqb _ 0); [by rewrite store_settle|reflexivity].
Qed.

Lemma store_checkDependencies k fileName a :
  store (checkDependencies k fileName a)
  = onManager (clearDependencies fileName) (store a).
Proof. reflexivity. Qed.

Lemma store_enqueue_imports id fileName imports a :
  store (fold_left (fun a depRelFileName =>
                      enqueue (TaskImport id fileName depRelFileName) a)
           imports a) = store a.
Proof. revert a. induction imports as [|i imports IH]; intros a; cbn; [done|by rewrite IH]. Qed.

Lemma store_checkDependenciesInternalAsync env id fileName a :
  store (checkDependenciesInternalAsync env id fileName a) = store a.
Proof.
  unfold checkDependenciesInternalAsync.
  destruct (activations a !! id) as [act|]; [|reflexivity].
  destruct (findImportDeclarations env fileName (store a)).
  - by rewrite store_settle.
  - by rewrite store_enqueue_imports.
Qed.

Lemma processImportAsync_keeps id fileName depFileName a :
  I (store a) -> I (store (processImportAsync id fileName depFileName a)).
Proof.
  intros HI. unfold processImportAsync.
  destruct (matchesDAnyTs depFileName) eqn:Hdecl;
    [|destruct (matchesJs depFileName) eqn:Hjs].
  - destruct (hasTypeDeclaration depFileName (depManager (store a)));
      [by rewrite store_importFulfilled|].
    rewrite store_checkDependencies. cbn.
    apply graphSatisfies_clearDependencies.
    apply graphSatisfies_addTypeDeclaration; [by apply declarations_ok|exact HI].
  - by rewrite store_importFulfilled.
  - assert (graphSatisfies P Q
              (addDependency fileName depFileName (depManager (store a)))) as H1
      by (apply graphSatisfies_addDependency; [by apply edges_ok|exact HI]).
    destruct (isFileValid depFileName _);
      [by rewrite store_importFulfilled|].
    rewrite store_checkDependencies. cbn.
    by apply graphSatisfies_clearDependencies.
Qed.

Lemma runTask_keeps env resolver t a :
  I (store a) -> I (store (runTask env resolver t a)).
Proof.
  intros HI. destruct t as [id fileName reads|id fileName dep|id outcome]; cbn [runTask].
  - destruct reads; [|by rewrite store_checkDependenciesInternalAsync].
    destruct (fsReadFile env fileName) as [contents|]; [|by rewrite store_settle].
    destruct (updateFile fileName contents false (files (store a))) as [changed fs].
    by rewrite store_checkDependenciesInternalAsync.
  - destruct (resolveAsync env resolver fileName dep).1 as [d|e].
    + by apply processImportAsync_keeps.
    + unfold importRejected. by rewrite store_settle.
  - destruct (activations a !! id) as [act|]; [|exact HI].
    destruct (continuation act) as [|parent|parent d], outcome as [[]|e];
      try exact HI; unfold importRejected;
      rewrite ?store_importFulfilled, ?store_settle; try exact HI.
    cbn. by destruct (isResolutionError e).
Qed.

Lemma asyncRun_keeps env resolver schedule :
  forall a, I (store a) -> I (store (asyncRun env resolver schedule a)).
Proof.
  induction schedule as [|pick schedule IH]; intros a HI; [exact HI|].
  cbn. apply IH. unfold asyncStep.
  destruct (tasks a !! pick) as [t|]; [|exact HI]. by apply runTask_keeps.
Qed.

End GraphInvariant.

Lemma engineGraph_empty : engineGraph emptyManager.
Proof.
  split.
  - intros f d. unfold depsOf. cbn. rewrite lookup_empty. intros H. inversion H.
  - intros d H. inversion H.
Qed.


Lemma engineGraph_asyncRun env resolver schedule a :
  engineGraph (depManager (store a)) ->
  engineGraph (depManager (store (asyncRun env resolver schedule a))).
Proof.
  apply (asyncRun_keeps
           (fun d => matchesDAnyTs d = false) (fun d => matchesDAnyTs d = true));
    auto.
Qed.





(** ** Compiled modules *)

Lemma jsFree_graphSatisfies dm :
  jsFree dm <-> graphSatisfies (fun d => matchesJs d = false)
                               (fun d => matchesJs d = false) dm.
Proof. reflexivity. Qed.

Lemma tasks_settle id outcome a t :
  t ∈ tasks (settle id outcome a) -> t ∈ tasks a \/ t = TaskSettled id outcome.
Proof.
  unfold settle. destruct (activations a !! id) as [act|]; [|auto].
  destruct (settled act); [auto|]. cbn.
  rewrite elem_of_app, list_elem_of_singleton. tauto.
Qed.

Lemma tasks_importFulfilled id a t :
  t ∈ tasks (importFulfilled id a) ->
  t ∈ tasks a \/ t = TaskSettled id (Normal tt).
Proof.
  unfold importFulfilled. destruct (activations a !! id) as [act|]; [|auto].
  destruct (Nat.eqb _ 0); [|auto]. intros Ht. by apply tasks_settle in Ht.
Qed.

Lemma length_activations_settle id outcome a :
  length (activations (settle id outcome a)) = length (activations a).
Proof.
  unfold settle. destruct (activations a !! id) as [act|]; [|reflexivity].
  destruct (settled act); [reflexivity|]. cbn. apply length_insert.
Qed.

Lemma length_activations_importFulfilled id a :
  length (activations (importFulfilled id a)) = length (activations a).
Proof.
  unfold importFulfilled. destruct (activations a !! id) as [act|]; [|reflexivity].
  destruct (Nat.eqb _ 0).
  - rewrite length_activations_settle. cbn. apply length_insert.
  - cbn. apply length_insert.
Qed.

(** C9. An import that resolved to a path ending in [.js] leaves the store
    as it is, in both modes: the sequential callback returns [null]
    whatever the recursive call would do, and the concurrent callback only
    counts the import as done, without a new call of [checkDependencies].
    Hence neither a pass of the sequential mode nor a run of the concurrent
    mode puts a [.js] path among the edges or the declarations. *)
Theorem js_import_is_opaque env fileName depFileName
    (Hjs : matchesJs depFileName = true) :
  (forall recur st,
     processImportSync recur fileName depFileName st = Some (Normal None, st))
  /\ (forall id a,
        processImportAsync id fileName depFileName a = importFulfilled id a
        /\ store (importFulfilled id a) = store a
        /\ length (activations (importFulfilled id a)) = length (activations a)
        /\ (forall t, t ∈ tasks (importFulfilled id a) ->
                      t ∈ tasks a \/ t = TaskSettled id (Normal tt)))
  /\ (forall fuel resolver root st r st',
        jsFree (depManager st) ->
        checkDependenciesSync env fuel resolver root st = Some (r, st') ->
        jsFree (depManager st'))
  /\ (forall resolver schedule a,
        jsFree (depManager (store a)) ->
        jsFree (depManager (store (asyncRun env resolver schedule a)))).
Proof.
  assert (matchesDAnyTs depFileName = false) as Hdecl.
  { destruct (matchesDAnyTs depFileName) eqn:E; [|reflexivity].
    apply matchesDAnyTs_not_js in E. congruence. }
  split; [|split; [|split]].
  - intros recur st. unfold processImportSync. rewrite Hdecl, Hjs. reflexivity.
  - intros id a. unfold processImportAsync. rewrite Hdecl, Hjs.
    split; [reflexivity|]. split; [apply store_importFulfilled|].
    split; [apply length_activations_importFulfilled|].
    intros t. apply tasks_importFulfilled.
  - intros fuel resolver root st r st'. rewrite !jsFree_graphSatisfies.
    apply keeps_checkDependenciesSync; [auto|].
    intros d. apply matchesDAnyTs_not_js.
  - intros resolver schedule a. rewrite !jsFree_graphSatisfies.
    apply asyncRun_keeps; [auto|].
    intros d. apply matchesDAnyTs_not_js.
Qed.

(** A unit that imports a compiled module. *)
Lemma js_import_is_opaque_witness :
  let table := [("A.ts", ["lib.js"]); ("lib.js", [])] in
  processImportSync (fun _ => outOfFuel) "A.ts" "lib.js" (loadedState table)
  = Some (Normal None, loadedState table)
  /\ (forall st',
        checkDependenciesSync (tableEnv table) 2 (tableResolver table) "A.ts"
          (loadedState table) = Some (Normal [], st') ->
        jsFree (depManager st')).
Proof.
  intros table.
  destruct (js_import_is_opaque (tableEnv table) "A.ts" "lib.js" eq_refl)
    as (Hsync & _ & Hpass & _).
  split.
  - apply Hsync.
  - intros st'. apply Hpass.
    split.
    + intros f d. unfold depsOf. cbn. rewrite lookup_empty. intros H. inversion H.
    + intros d H. inversion H.
Defined.

(** ** The sink of the compilation facade *)

Lemma applyDep_log d (s : ChainState (list DependencyCall)) :
  exists rest, chainDeps (applyDep d s) = chainDeps s ++ rest.
Proof.
  unfold applyDep. case_bool_decide.
  - exists []. by rewrite app_nil_r.
  - by exists [CallAdd d].
Qed.

Lemma declarations_log (known : list string) (log : list DependencyCall) :
  fold_left (fun d declFileName => add declFileName d) known log
  = log ++ map CallAdd known.
Proof.
  revert log. induction known as [|k known IH]; intros log; cbn [fold_left map].
  - by rewrite app_nil_r.
  - rewrite IH. cbn. by rewrite <- app_assoc.
Qed.

Lemma enterChain_log fileName (s : ChainState (list DependencyCall)) :
  exists rest, chainDeps (enterChain fileName s) = chainDeps s ++ rest.
Proof.
  unfold enterChain. case_bool_decide; cbn [chainDeps].
  - exists []. by rewrite app_nil_r.
  - rewrite declarations_log. eauto.
Qed.

Lemma applyEach_log recur ds :
  (forall d (s s' : ChainState (list DependencyCall)),
     recur d s = Some s' -> exists rest, chainDeps s' = chainDeps s ++ rest) ->
  forall s s', applyEach recur ds s = Some s' ->
               exists rest, chainDeps s' = chainDeps s ++ rest.
Proof.
  intros Hrecur. induction ds as [|d ds IH]; intros s s' Hrun; cbn in Hrun.
  - injection Hrun as <-. exists []. by rewrite app_nil_r.
  - destruct (applyDep_log d s) as [rest1 H1].
    destruct (truthy (appliedChains (applyDep d s) !! d)).
    + destruct (IH _ _ Hrun) as [rest2 H2]. exists (rest1 ++ rest2).
      by rewrite H2, H1, app_assoc.
    + destruct (recur d (applyDep d s)) as [s2|] eqn:Hcall; [|discriminate].
      destruct (Hrecur _ _ _ Hcall) as [rest2 H2].
      destruct (IH _ _ Hrun) as [rest3 H3]. exists (rest1 ++ rest2 ++ rest3).
      by rewrite H3, H2, H1, !app_assoc.
Qed.

Lemma applyChain_log fuel :
  forall fileName (s s' : ChainState (list DependencyCall)),
    applyChain fuel fileName s = Some s' ->
    exists rest, chainDeps s' = chainDeps s ++ rest.
Proof.
  induction fuel as [|fuel IH]; intros fileName s s' Hrun; [discriminate|].
  rewrite applyChain_step in Hrun.
  destruct (enterChain_log fileName s) as [rest1 H1].
  destruct (applyEach_log _ _ IH _ _ Hrun) as [rest2 H2].
  exists (rest1 ++ rest2). rewrite H2. cbn [chainDeps withChainManager].
  by rewrite H1, app_assoc.
Qed.

(** [applyDeps] clears the sink, adds the unit and goes on adding. *)
Lemma applyDeps_clears_and_repopulates fuel fileName
    (log log' : list DependencyCall) st st' :
  applyDeps fuel fileName log st = Some (log', st') ->
  exists rest, log' = log ++ CallClear :: CallAdd fileName :: rest.
Proof.
  unfold applyDeps.
  destruct (applyChain _ _ _) as [s|] eqn:Hrun; [|discriminate].
  intros [= <- <-]. destruct (applyChain_log _ _ _ _ Hrun) as [rest Hrest].
  exists rest. rewrite Hrest. cbn. by rewrite <- !app_assoc.
Qed.

(** [emitAsync] finalizes the sink whatever the promise settled to;
    [emitSync] does when the dependency check returned, and leaves the sink
    alone when the check threw. *)
Lemma emitAsync_finalizes env fuel resolver schedule fileName
    (log log' : list DependencyCall) st r st' :
  emitAsync env fuel resolver schedule fileName log st = Some (r, st', log') ->
  exists rest, log' = log ++ CallClear :: CallAdd fileName :: rest.
Proof.
  unfold emitAsync. destruct (rootOutcome _) as [outcome|]; [|discriminate].
  destruct (applyDeps _ _ _ _) as [[log1 st1]|] eqn:Happly; [|discriminate].
  intros [= _ _ <-]. by eapply applyDeps_clears_and_repopulates.
Qed.

Lemma emitSync_finalizes_after_check env fuel resolver fileName
    (log log' : list DependencyCall) st deps st2 r st' :
  checkDependenciesSync env fuel resolver fileName (invokeRuntime env st)
  = Some (Normal deps, st2) ->
  emitSync env fuel resolver fileName log st = Some (r, st', log') ->
  r = emitAndCheck env fileName st2
  /\ exists rest, log' = log ++ CallClear :: CallAdd fileName :: rest.
Proof.
  intros Hcheck. unfold emitSync. rewrite Hcheck.
  destruct (applyDeps _ _ _ _) as [[log1 st1]|] eqn:Happly; [|discriminate].
  intros [= <- _ <-]. split; [reflexivity|].
  by eapply applyDeps_clears_and_repopulates.
Qed.

Lemma emitSync_check_failure {D} `{Dependency D} env fuel resolver fileName
    (depsManager : D) st e st2 :
  checkDependenciesSync env fuel resolver fileName (invokeRuntime env st)
  = Some (Throw e, st2) ->
  emitSync env fuel resolver fileName depsManager st
  = Some (Throw e, st2, depsManager).
Proof. intros Hcheck. unfold emitSync. by rewrite Hcheck. Qed.

(** ** The validity flags of the sequential mode *)

(** Whatever the recursive pass over a dependency does, and however it
    ends, the [finally] of the sequential mode leaves the flag of the
    dependency reset. *)
Lemma processImportSync_resets_flag recur fileName depFileName st r st' :
  matchesDAnyTs depFileName = false ->
  matchesJs depFileName = false ->
  isFileValid depFileName (validFiles st) = false ->
  processImportSync recur fileName depFileName st = Some (r, st') ->
  validFlags (validFiles st') !! depFileName = Some false.
Proof.
  intros Hdecl Hjs Hinvalid. unfold processImportSync. rewrite Hdecl, Hjs.
  unfold bind, modify, getState, tryFinally, ret. cbn.
  rewrite Hinvalid.
  destruct (recur depFileName _) as [[[deps|e] st1]|]; [| |discriminate];
    intros [= _ <-]; cbn; apply lookup_insert_eq.
Qed.

(** In the concurrent mode a step resets a flag only in the handler of a
    dependency whose promise was rejected with a [ResolutionError]. *)
Lemma runTask_resets_flag_on_failure_only env resolver t a d :
  validFlags (validFiles (store (runTask env resolver t a))) !! d = Some false ->
  validFlags (validFiles (store a)) !! d = Some false
  \/ exists id e act parent,
       t = TaskSettled id (Throw e)
       /\ activations a !! id = Some act
       /\ continuation act = KDependency parent d
       /\ isResolutionError e = true.
Proof.
  destruct t as [id fileName reads|id fileName dep|id outcome]; cbn [runTask].
  - destruct reads; [|rewrite store_checkDependenciesInternalAsync; auto].
    destruct (fsReadFile env fileName) as [contents|];
      [|rewrite store_settle; auto].
    destruct (updateFile fileName contents false (files (store a))) as [changed fs].
    rewrite store_checkDependenciesInternalAsync. auto.
  - destruct (resolveAsync env resolver fileName dep).1 as [depFileName|e];
      [|unfold importRejected; rewrite store_settle; auto].
    unfold processImportAsync.
    destruct (matchesDAnyTs depFileName);
      [destruct (hasTypeDeclaration depFileName _);
       [rewrite store_importFulfilled|rewrite store_checkDependencies]; auto|].
    destruct (matchesJs depFileName); [rewrite store_importFulfilled; auto|].
    destruct (isFileValid depFileName _);
      [rewrite store_importFulfilled; auto|].
    rewrite store_checkDependencies. cbn.
    destruct (decide (depFileName = d)) as [->|Hne].
    + rewrite lookup_insert_eq. discriminate.
    + rewrite lookup_insert_ne by done. auto.
  - destruct (activations a !! id) as [act|] eqn:Hact; [|auto].
    destruct (continuation act) as [|parent|parent dep] eqn:Hk,
             outcome as [[]|e];
      unfold importRejected;
      rewrite ?store_importFulfilled, ?store_settle; auto.
    cbn. destruct (isResolutionError e) eqn:He; [|auto]. cbn.
    destruct (decide (dep = d)) as [->|Hne].
    + intros _. right. exists id, e, act, parent. auto.
    + rewrite lookup_insert_ne by done. auto.
Qed.

(** ** Where the code departs from the specification *)

(** A second difference between the modes: when a later import of a unit
    cannot be resolved, the sequential mode has recorded no edge of the
    unit (it resolves all the imports before it records any), while the
    concurrent mode records the edges of the imports that resolved. *)
Lemma modes_differ_on_failure :
  (exists e st,
     checkDependenciesSync (tableEnv halfBrokenTable) 3
       (tableResolver halfBrokenTable) "main.ts" (loadedState halfBrokenTable)
     = Some (Throw e, st)
     /\ dependencies (depManager st) !! "main.ts" = Some []
     /\ dependencies (depManager st) !! "B.ts" = None)
  /\ (let a := asyncRun (tableEnv halfBrokenTable) (tableResolver halfBrokenTable)
                 (fifo 6)
                 (startCheckDependencies "main.ts" (loadedState halfBrokenTable)) in
      quiescent a
      /\ dependencies (depManager (store a)) !! "main.ts" = Some ["B.ts"]
      /\ dependencies (depManager (store a)) !! "B.ts" = Some []).
Proof.
  split.
  - eexists. eexists. split; [vm_compute; reflexivity|].
    split; vm_compute; reflexivity.
  - cbv zeta. unfold quiescent. split; [|split]; vm_compute; reflexivity.
Qed.

(** C1. On the source graph in which [A.ts] imports [B] and [C] and [B.ts]
    imports [A], with every unit loaded, the sequential pass ends with the
    dependencies [B.ts; C.ts; C.ts] for [A.ts]: the nested pass over [A.ts]
    reached through [B.ts] replaces the list while the outer pass is still
    adding to it.  The concurrent pass, with promises that settle in the
    order of their creation, ends with [B.ts; C.ts]. *)
Theorem modes_differ_on_cycle :
  (exists st,
     checkDependenciesSync (tableEnv cycleTable) 4 (tableResolver cycleTable)
       "A.ts" (loadedState cycleTable) = Some (Normal [], st)
     /\ dependencies (depManager st) !! "A.ts" = Some ["B.ts"; "C.ts"; "C.ts"])
  /\ (let a := asyncRun (tableEnv cycleTable) (tableResolver cycleTable) (fifo 13)
                 (startCheckDependencies "A.ts" (loadedState cycleTable)) in
      quiescent a /\ rootOutcome a = Some (Normal tt)
      /\ dependencies (depManager (store a)) !! "A.ts" = Some ["B.ts"; "C.ts"]).
Proof.
  split.
  - eexists. split; [vm_compute; reflexivity|]. vm_compute. reflexivity.
  - cbv zeta. unfold quiescent. split; [|split]; vm_compute; reflexivity.
Qed.

(** C4. [A.ts] imports [B], which imports nothing.  The sequential pass
    completes and leaves the validity flag of [B.ts] reset to [false],
    although the resolution of [B.ts] succeeded: its [finally] resets the
    flag on every exit.  The concurrent pass leaves the flag set. *)
Theorem sync_resets_valid_flag_after_success :
  (exists st,
     checkDependenciesSync (tableEnv pairTable) 2 (tableResolver pairTable)
       "A.ts" (loadedState pairTable) = Some (Normal [], st)
     /\ validFlags (validFiles st) !! "B.ts" = Some false
     /\ isFileValid "B.ts" (validFiles st) = false)
  /\ (let a := asyncRun (tableEnv pairTable) (tableResolver pairTable) (fifo 6)
                 (startCheckDependencies "A.ts" (loadedState pairTable)) in
      quiescent a /\ rootOutcome a = Some (Normal tt)
      /\ isFileValid "B.ts" (validFiles (store a)) = true).
Proof.
  split.
  - eexists. split; [vm_compute; reflexivity|]. split; vm_compute; reflexivity.
  - cbv zeta. unfold quiescent. split; [|split]; vm_compute; reflexivity.
Qed.

(** C2. [main.ts] imports a specifier that the resolver does not find.
    [emitSync] throws the resolution failure and the caller's sink has
    received no call: [checkDependenciesSync] runs before the [try] whose
    [finally] calls [applyDeps].  [emitAsync], whose [finally] handler
    covers the dependency check, clears and repopulates the sink. *)
Theorem emitSync_skips_applyDeps_on_resolution_failure :
  let stale := [CallAdd "stale.ts"] in
  (exists e st,
     emitSync (tableEnv brokenTable) 3 (tableResolver brokenTable) "main.ts"
       stale (loadedState brokenTable) = Some (Throw e, st, stale)
     /\ isResolutionError e = true)
  /\ (exists e st,
        emitAsync (tableEnv brokenTable) 3 (tableResolver brokenTable) (fifo 4)
          "main.ts" stale (loadedState brokenTable)
        = Some (Throw e, st, stale ++ [CallClear; CallAdd "main.ts"])
        /\ isResolutionError e = true).
Proof.
  cbv zeta. split.
  - eexists. eexists. split; [vm_compute; reflexivity|reflexivity].
  - eexists. eexists. split; [vm_compute; reflexivity|reflexivity].
Qed.

(** * Further properties of the code *)

(** ** Passes of the sequential mode *)

Section Relations.
Variable R : State -> State -> Prop.
Hypothesis R_refl : forall st, R st st.
Hypothesis R_trans : forall st1 st2 st3, R st1 st2 -> R st2 st3 -> R st1 st3.

Lemma relates_ret {A} (a : A) : relates R (ret a).
Proof. intros st r st' [= _ <-]. apply R_refl. Qed.

Lemma relates_throw {A} e : relates R (@throw A e).
Proof. intros st r st' [= _ <-]. apply R_refl. Qed.

Lemma relates_liftCompletion {A} (c : Completion A) : relates R (liftCompletion c).
Proof. intros st r st' [= _ <-]. apply R_refl. Qed.

Lemma relates_getState : relates R getState.
Proof. intros st r st' [= _ <-]. apply R_refl. Qed.

Lemma relates_modify f : (forall st, R st (f st)) -> relates R (modify f).
Proof. intros Hf st r st' [= _ <-]. apply Hf. Qed.

Lemma relates_bind {A B} (c : M A) (k : A -> M B) :
  relates R c -> (forall a, relates R (k a)) -> relates R (bind c k).
Proof.
  intros Hc Hk st r st'. unfold bind.
  destruct (c st) as [[[a|e] st1]|] eqn:Hrun; [| |discriminate].
  - intros Hrest. eapply R_trans; [by eapply Hc|by eapply Hk].
  - intros [= _ <-]. by eapply Hc.
Qed.

Lemma relates_mapM {A B} (f : A -> M B) xs :
  (forall x, relates R (f x)) -> relates R (mapM f xs).
Proof.
  intros Hf. induction xs as [|x xs IH]; cbn [mapM]; [apply relates_ret|].
  apply relates_bind; [apply Hf|]. intros y.
  apply relates_bind; [exact IH|]. intros ys. apply relates_ret.
Qed.

(** What the relation has to allow, for the passes to stay in it: the
    writes to the graph and to the unit store, and the recursive pass over a
    dependency together with the flag set before it and reset after it. *)
Hypothesis R_clear : forall f st, R st (onManager (clearDependencies f) st).
Hypothesis R_add : forall f d st, R st (onManager (addDependency f d) st).
Hypothesis R_declare : forall d st, R st (onManager (addTypeDeclaration d) st).
Hypothesis R_load :
  forall f contents st,
    filesGet f (files st) = None ->
    R st (withFiles (updateFile f contents false (files st)).2 st).
Hypothesis R_flagged :
  forall d st st1,
    isFileValid d (validFiles st) = false ->
    R (onValidFiles (markFileValid d) st) st1 ->
    R st (onValidFiles (markFileInvalid d) st1).

Lemma relates_bind_at {A B} (c : M A) (k : A -> M B) st r st' :
  (forall r1 st1, c st = Some (r1, st1) -> R st st1) ->
  (forall a, relates R (k a)) ->
  bind c k st = Some (r, st') -> R st st'.
Proof.
  intros Hc Hk. unfold bind.
  destruct (c st) as [[[a|e] st1]|] eqn:Hrun; [| |discriminate].
  - intros Hrest. eapply R_trans; [by eapply Hc|by eapply Hk].
  - intros [= _ <-]. by eapply Hc.
Qed.

Lemma relates_readFileAndUpdateSync env fileName st r st' :
  filesGet fileName (files st) = None ->
  readFileAndUpdateSync env fileName false st = Some (r, st') -> R st st'.
Proof.
  intros Habsent. unfold readFileAndUpdateSync, readFileSync, bind, getState.
  destruct (fsReadFileSync env fileName) as [contents|]; cbn.
  - pose proof (R_load fileName contents st Habsent) as Hupdate.
    destruct (updateFile fileName contents false (files st)) as [changed fs].
    cbn. intros [= _ <-]. exact Hupdate.
  - intros [= _ <-]. apply R_refl.
Qed.

Lemma relates_processImportSync recur fileName depFileName :
  (forall f, relates R (recur f)) ->
  relates R (processImportSync recur fileName depFileName).
Proof.
  intros Hrecur. unfold processImportSync.
  destruct (matchesDAnyTs depFileName);
    [|destruct (matchesJs depFileName); [apply relates_ret|]].
  - apply relates_bind; [apply relates_getState|]. intros st.
    destruct (hasTypeDeclaration depFileName (depManager st)); [apply relates_ret|].
    apply relates_bind; [apply relates_modify, R_declare|]. intros _.
    apply relates_bind; [apply Hrecur|]. intros _. apply relates_ret.
  - intros st r st'. unfold bind, modify, getState, tryFinally, ret.
    pose proof (R_add fileName depFileName st) as Hadd.
    set (st1 := onManager (addDependency fileName depFileName) st) in *.
    destruct (isFileValid depFileName (validFiles st1)) eqn:Hvalid;
      [by intros [= _ <-]|].
    destruct (recur depFileName (onValidFiles (markFileValid depFileName) st1))
      as [[[deps|e] st2]|] eqn:Hcall; [| |discriminate];
      intros [= _ <-]; (eapply R_trans; [exact Hadd|]);
      (apply R_flagged; [exact Hvalid|by eapply Hrecur]).
Qed.

Lemma relates_checkDependenciesSync env fuel resolver :
  forall fileName, relates R (checkDependenciesSync env fuel resolver fileName).
Proof.
  induction fuel as [|fuel IH]; intros fileName; [intros st r st' [=]|].
  cbn [checkDependenciesSync].
  apply relates_bind; [apply relates_modify, R_clear|]. intros _.
  intros st r st'. unfold bind at 1, getState.
  apply relates_bind_at.
  - intros r1 st1. destruct (filesGet fileName (files st)) eqn:Hloaded.
    + intros [= _ <-]. apply R_refl.
    + apply relates_bind_at; [|intros; apply relates_ret].
      intros r2 st2. by apply relates_readFileAndUpdateSync.
  - intros _. unfold checkDependenciesInternalSync.
    apply relates_bind; [apply relates_getState|]. intros st1.
    apply relates_bind; [apply relates_mapM; intros; apply relates_liftCompletion|].
    intros resolved. apply relates_bind; [|intros; apply relates_ret].
    apply relates_mapM. intros d. apply relates_processImportSync. exact IH.
Qed.

(** The same for the runs of the concurrent mode, which set and reset the
    flags in separate steps. *)
Hypothesis R_update :
  forall f contents st,
    R st (withFiles (updateFile f contents false (files st)).2 st).
Hypothesis R_valid : forall d st, R st (onValidFiles (markFileValid d) st).
Hypothesis R_invalid : forall d st, R st (onValidFiles (markFileInvalid d) st).

Lemma relates_processImportAsync id fileName depFileName a :
  R (store a) (store (processImportAsync id fileName depFileName a)).
Proof.
  unfold processImportAsync.
  destruct (matchesDAnyTs depFileName);
    [destruct (hasTypeDeclaration depFileName _)|
     destruct (matchesJs depFileName)];
    rewrite ?store_importFulfilled; try apply R_refl.
  - rewrite store_checkDependencies. cbn [store withStore].
    eapply R_trans; [apply R_declare|apply R_clear].
  - destruct (isFileValid depFileName _).
    + rewrite store_importFulfilled. cbn [store withStore]. apply R_add.
    + rewrite store_checkDependencies. cbn [store withStore].
      eapply R_trans; [apply R_add|].
      eapply R_trans; [apply R_valid|apply R_clear].
Qed.

Lemma relates_runTask env resolver t a :
  R (store a) (store (runTask env resolver t a)).
Proof.
  destruct t as [id fileName reads|id fileName dep|id outcome]; cbn [runTask].
  - destruct reads;
      [|rewrite store_checkDependenciesInternalAsync; apply R_refl].
    destruct (fsReadFile env fileName) as [contents|];
      [|rewrite store_settle; apply R_refl].
    pose proof (R_update fileName contents (store a)) as Hupdate.
    destruct (updateFile fileName contents false (files (store a))) as [changed fs].
    rewrite store_checkDependenciesInternalAsync. exact Hupdate.
  - destruct (resolveAsync env resolver fileName dep).1 as [d|e].
    + apply relates_processImportAsync.
    + unfold importRejected. rewrite store_settle. apply R_refl.
  - destruct (activations a !! id) as [act|]; [|apply R_refl].
    destruct (continuation act) as [|parent|parent d], outcome as [[]|e];
      unfold importRejected;
      rewrite ?store_importFulfilled, ?store_settle; try apply R_refl.
    cbn [store withStore]. destruct (isResolutionError e); [apply R_invalid|apply R_refl].
Qed.

Lemma relates_asyncRun env resolver schedule :
  forall a, R (store a) (store (asyncRun env resolver schedule a)).
Proof.
  induction schedule as [|pick schedule IH]; intros a; [apply R_refl|].
  cbn. eapply R_trans; [|apply IH]. unfold asyncStep.
  destruct (tasks a !! pick) as [t|]; [|apply R_refl].
  exact (relates_runTask env resolver t
           {| store := store a; activations := activations a;
              tasks := take pick (tasks a) ++ drop (S pick) (tasks a);
              rootOutcome := rootOutcome a |}).
Qed.

End Relations.

Lemma filesKeys_filesSet fileName file fs :
  filesKeys (filesSet fileName file fs)
  = match filesGet fileName fs with
    | Some _ => filesKeys fs
    | None => filesKeys fs ++ [fileName]
    end.
Proof.
  unfold filesKeys. induction fs as [|[k v] fs IH]; cbn; [reflexivity|].
  destruct (decide (k = fileName)) as [->|Hne]; cbn; [reflexivity|].
  rewrite IH. by destruct (filesGet fileName fs).
Qed.

Lemma filesKeys_updateFile fileName contents checked fs :
  filesKeys fs `prefix_of` filesKeys (updateFile fileName contents checked fs).2.
Proof.
  unfold updateFile.
  destruct (filesGet fileName fs) as [prev|] eqn:Hprev;
    [destruct (negb checked || checked && negb (contents =? text prev)%string)|];
    cbn; rewrite filesKeys_filesSet, Hprev; try done; by apply prefix_app_r.
Qed.

Lemma storeGrows_refl st : storeGrows st st.
Proof. repeat split; done. Qed.

Lemma storeGrows_trans st1 st2 st3 :
  storeGrows st1 st2 -> storeGrows st2 st3 -> storeGrows st1 st3.
Proof.
  intros (K1 & D1 & F1) (K2 & D2 & F2).
  split; [by etrans|]. split; [set_solver|by etrans].
Qed.

Lemma dom_addDependency f d dm :
  dom (dependencies dm) ⊆ dom (dependencies (addDependency f d dm)).
Proof.
  unfold addDependency. destruct (hasDependencies f dm); cbn;
    rewrite ?dom_insert_L; set_solver.
Qed.

Lemma storeGrows_clear f st : storeGrows st (onManager (clearDependencies f) st).
Proof. repeat split; cbn; [done| |done]. rewrite dom_insert_L. set_solver. Qed.

Lemma storeGrows_add f d st : storeGrows st (onManager (addDependency f d) st).
Proof.
  split; [|split; [apply dom_addDependency|done]].
  cbn. unfold addDependency. by destruct (hasDependencies f (depManager st)).
Qed.

Lemma storeGrows_declare d st :
  storeGrows st (onManager (addTypeDeclaration d) st).
Proof.
  split; [|split; done]. cbn.
  destruct (hasTypeDeclaration d (depManager st)); [done|by apply prefix_app_r].
Qed.

Lemma storeGrows_update f contents st :
  storeGrows st (withFiles (updateFile f contents false (files st)).2 st).
Proof. split; [done|]. split; [done|]. cbn. apply filesKeys_updateFile. Qed.

Lemma storeGrows_flags st g : storeGrows st (onValidFiles g st).
Proof. repeat split; done. Qed.

Lemma storeGrows_flagged d st st1 :
  storeGrows (onValidFiles (markFileValid d) st) st1 ->
  storeGrows st (onValidFiles (markFileInvalid d) st1).
Proof. intros H. exact H. Qed.

Lemma registryStaysDistinct_declare d st :
  registryStaysDistinct st (onManager (addTypeDeclaration d) st).
Proof.
  unfold registryStaysDistinct, hasTypeDeclaration. cbn.
  unfold hasTypeDeclaration. case_bool_decide as Hknown; [done|].
  intros Hdistinct. apply NoDup_app. split; [done|].
  split; [|apply NoDup_singleton].
  intros x Hx ->%list_elem_of_singleton. done.
Qed.

Lemma registryStaysDistinct_add f d st :
  registryStaysDistinct st (onManager (addDependency f d) st).
Proof.
  unfold registryStaysDistinct. cbn. unfold addDependency.
  by destruct (hasDependencies f (depManager st)).
Qed.

Lemma loadedUnitsKept_load f contents st :
  filesGet f (files st) = None ->
  loadedUnitsKept st (withFiles (updateFile f contents false (files st)).2 st).
Proof.
  intros Habsent g file Hg. unfold updateFile. rewrite Habsent. cbn.
  rewrite filesGet_filesSet_ne; [done|]. intros ->. congruence.
Qed.

Lemma sequential_pass_grows env fuel resolver fileName :
  relates storeGrows (checkDependenciesSync env fuel resolver fileName).
Proof.
  apply relates_checkDependenciesSync.
  - apply storeGrows_refl.
  - apply storeGrows_trans.
  - apply storeGrows_clear.
  - apply storeGrows_add.
  - apply storeGrows_declare.
  - intros. apply storeGrows_update.
  - intros d st st1 _. apply storeGrows_flagged.
Qed.

Lemma sequential_pass_distinct env fuel resolver fileName :
  relates registryStaysDistinct (checkDependenciesSync env fuel resolver fileName).
Proof.
  apply relates_checkDependenciesSync.
  - intros st H. exact H.
  - intros st1 st2 st3 H1 H2 H. apply H2, H1, H.
  - intros f st H. exact H.
  - apply registryStaysDistinct_add.
  - apply registryStaysDistinct_declare.
  - intros f contents st _ H. exact H.
  - intros d st st1 _ H. exact H.
Qed.

Lemma sequential_pass_keeps_loaded env fuel resolver fileName :
  relates loadedUnitsKept (checkDependenciesSync env fuel resolver fileName).
Proof.
  apply relates_checkDependenciesSync.
  - intros st g file H. exact H.
  - intros st1 st2 st3 H1 H2 g file H. apply H2, H1, H.
  - intros f st g file H. exact H.
  - intros f d st g file H. exact H.
  - intros d st g file H. exact H.
  - apply loadedUnitsKept_load.
  - intros d st st1 _ H. exact H.
Qed.

(** X1. A pass of the sequential mode, however it ends, only extends the
    registry, the entries of the graph and the unit store; it keeps the
    units of the registry distinct and leaves the text and the version of
    every unit that was loaded as they were. *)
Theorem sequential_pass_frame env fuel resolver fileName st r st'
    (Hrun : checkDependenciesSync env fuel resolver fileName st = Some (r, st')) :
  storeGrows st st'
  /\ registryStaysDistinct st st'
  /\ loadedUnitsKept st st'.
Proof.
  split; [|split].
  - exact (sequential_pass_grows _ _ _ _ _ _ _ Hrun).
  - exact (sequential_pass_distinct _ _ _ _ _ _ _ Hrun).
  - exact (sequential_pass_keeps_loaded _ _ _ _ _ _ _ Hrun).
Qed.

Lemma sequential_pass_frame_witness :
  match checkDependenciesSync (tableEnv cycleTable) 4 (tableResolver cycleTable)
          "A.ts" (loadedState cycleTable) with
  | Some (_, st') =>
      storeGrows (loadedState cycleTable) st'
      /\ registryStaysDistinct (loadedState cycleTable) st'
      /\ loadedUnitsKept (loadedState cycleTable) st'
  | None => False
  end.
Proof.
  destruct (checkDependenciesSync (tableEnv cycleTable) 4
              (tableResolver cycleTable) "A.ts" (loadedState cycleTable))
    as [[r st']|] eqn:Hrun.
  - exact (sequential_pass_frame _ _ _ _ _ _ _ Hrun).
  - vm_compute in Hrun. discriminate Hrun.
Defined.

Lemma flagsRestored_flagged d st st1 :
  isFileValid d (validFiles st) = false ->
  flagsRestored (onValidFiles (markFileValid d) st) st1 ->
  flagsRestored st (onValidFiles (markFileInvalid d) st1).
Proof.
  intros Hd H e. specialize (H e). unfold isFileValid in *. cbn in *.
  destruct (decide (d = e)) as [->|Hne].
  - rewrite lookup_insert_eq. cbn. by rewrite Hd.
  - rewrite lookup_insert_ne by done. by rewrite lookup_insert_ne in H.
Qed.

Lemma sequential_pass_flags_restored env fuel resolver fileName :
  relates flagsRestored (checkDependenciesSync env fuel resolver fileName).
Proof.
  apply relates_checkDependenciesSync.
  - by intros st d.
  - intros st1 st2 st3 H1 H2 d. by rewrite H2, H1.
  - by intros f st d.
  - by intros f d st e.
  - by intros d st e.
  - by intros f contents st _ d.
  - apply flagsRestored_flagged.
Qed.

(** X2. A pass of the sequential mode, however it ends, leaves every
    validity flag reading as it did before: it sets the flag of a unit whose
    flag was not set only, and the [finally] resets that flag on every
    exit. *)
Theorem sequential_pass_restores_flags env fuel resolver fileName st r st'
    (Hrun : checkDependenciesSync env fuel resolver fileName st = Some (r, st')) :
  flagsRestored st st'.
Proof. exact (sequential_pass_flags_restored _ _ _ _ _ _ _ Hrun). Qed.

Lemma sequential_pass_restores_flags_witness :
  match checkDependenciesSync (tableEnv cycleTable) 4 (tableResolver cycleTable)
          "A.ts" (loadedState cycleTable) with
  | Some (_, st') => flagsRestored (loadedState cycleTable) st'
  | None => False
  end.
Proof.
  destruct (checkDependenciesSync (tableEnv cycleTable) 4
              (tableResolver cycleTable) "A.ts" (loadedState cycleTable))
    as [[r st']|] eqn:Hrun.
  - exact (sequential_pass_restores_flags _ _ _ _ _ _ _ Hrun).
  - vm_compute in Hrun. discriminate Hrun.
Defined.

(** ** What a pass of the sequential mode returns and throws *)

Lemma bind_Normal_inv {A B} (c : M A) (k : A -> M B) st b st' :
  bind c k st = Some (Normal b, st') ->
  exists a st1, c st = Some (Normal a, st1) /\ k a st1 = Some (Normal b, st').
Proof.
  unfold bind. destruct (c st) as [[[a|e] st1]|]; [eauto|discriminate..].
Qed.

Lemma processImportSync_returns_null recur fileName depFileName st v st' :
  processImportSync recur fileName depFileName st = Some (Normal v, st') ->
  v = None.
Proof.
  unfold processImportSync, bind, modify, getState, tryFinally, ret.
  repeat case_match; intros; simplify_eq; reflexivity.
Qed.

Lemma mapM_Forall {A B} (P : B -> Prop) (f : A -> M B) xs :
  (forall x st v st', f x st = Some (Normal v, st') -> P v) ->
  forall st vs st', mapM f xs st = Some (Normal vs, st') -> Forall P vs.
Proof.
  intros Hf. induction xs as [|x xs IH]; intros st vs st'; cbn [mapM].
  - intros [= <- _]. constructor.
  - intros Hrun. apply bind_Normal_inv in Hrun as (y & st1 & Hy & Hrun).
    apply bind_Normal_inv in Hrun as (ys & st2 & Hys & Hrun).
    injection Hrun as <- _. constructor; [by eapply Hf|by eapply IH].
Qed.

Lemma filterNotNull_nulls (vs : list (option string)) :
  Forall (fun v => v = None) vs -> filterNotNull vs = [].
Proof.
  unfold filterNotNull. induction 1 as [|v vs Hv _ IH]; [reflexivity|].
  subst v. cbn. exact IH.
Qed.

(** X3. The callback of the sequential mode has no [return] but the [null] of a
    compiled module, so [checkDependenciesSync] returns the empty array
    whatever the unit imports. *)
Theorem sequential_pass_returns_nothing env fuel resolver fileName st deps st'
    (Hrun : checkDependenciesSync env fuel resolver fileName st
            = Some (Normal deps, st')) :
  deps = [].
Proof.
  destruct fuel as [|fuel]; [discriminate|]. cbn [checkDependenciesSync] in Hrun.
  apply bind_Normal_inv in Hrun as (? & st1 & _ & Hrun).
  apply bind_Normal_inv in Hrun as (? & st2 & _ & Hrun).
  apply bind_Normal_inv in Hrun as (? & st3 & _ & Hrun).
  unfold checkDependenciesInternalSync in Hrun.
  apply bind_Normal_inv in Hrun as (? & st4 & _ & Hrun).
  apply bind_Normal_inv in Hrun as (resolved & st5 & _ & Hrun).
  apply bind_Normal_inv in Hrun as (results & st6 & Hresults & Hrun).
  injection Hrun as <- _. apply filterNotNull_nulls.
  eapply mapM_Forall; [|exact Hresults].
  intros d st0 v st0'. apply processImportSync_returns_null.
Qed.

Lemma sequential_pass_returns_nothing_witness :
  match checkDependenciesSync (tableEnv pairTable) 2 (tableResolver pairTable)
          "A.ts" (loadedState pairTable) with
  | Some (Normal deps, _) => deps = []
  | _ => False
  end.
Proof.
  destruct (checkDependenciesSync (tableEnv pairTable) 2
              (tableResolver pairTable) "A.ts" (loadedState pairTable))
    as [[[deps|e] st']|] eqn:Hrun.
  - exact (sequential_pass_returns_nothing _ _ _ _ _ _ _ Hrun).
  - vm_compute in Hrun. discriminate Hrun.
  - vm_compute in Hrun. discriminate Hrun.
Defined.

Lemma mapM_liftCompletion_throw {A B} (g : A -> Completion B) pre x post e st :
  Forall (fun j => exists p, g j = Normal p) pre ->
  g x = Throw e ->
  mapM (fun y => liftCompletion (g y)) (pre ++ x :: post) st = Some (Throw e, st).
Proof.
  intros Hpre Hx. induction Hpre as [|j pre [p Hj] _ IH]; cbn [mapM app].
  - unfold bind, liftCompletion. by rewrite Hx.
  - unfold bind at 1, liftCompletion at 1. rewrite Hj.
    unfold bind at 1. by rewrite IH.
Qed.

(** X4. The sequential mode resolves all the imports of a unit before it
    records any: when an import of a loaded unit cannot be resolved, the
    pass throws the error of the first such import and has done nothing
    but empty the entry of the unit. *)
Theorem sequential_pass_fails_before_recording env fuel resolver fileName st
    file pre specifier post e
    (Hloaded : filesGet fileName (files st) = Some file)
    (Himports : findImportDeclarations env fileName st = pre ++ specifier :: post)
    (Hpre : Forall (fun j => exists p,
                      (resolveSync env resolver fileName j).1 = Normal p) pre)
    (Hfails : (resolveSync env resolver fileName specifier).1 = Throw e) :
  checkDependenciesSync env (S fuel) resolver fileName st
  = Some (Throw e, onManager (clearDependencies fileName) st).
Proof.
  cbn [checkDependenciesSync]. unfold bind at 1, modify at 1.
  unfold bind at 1, getState at 1. cbn [files onManager withDepManager].
  rewrite Hloaded. unfold bind at 1, ret at 1.
  unfold checkDependenciesInternalSync. unfold bind at 1, getState at 1.
  change (findImportDeclarations env fileName
            (onManager (clearDependencies fileName) st))
    with (findImportDeclarations env fileName st).
  rewrite Himports. unfold bind at 1.
  by rewrite (mapM_liftCompletion_throw
                (fun j => (resolveSync env resolver fileName j).1)
                pre specifier post e _ Hpre Hfails).
Qed.

Lemma sequential_pass_fails_before_recording_witness :
  exists e,
    checkDependenciesSync (tableEnv halfBrokenTable) 1
      (tableResolver halfBrokenTable) "main.ts" (loadedState halfBrokenTable)
    = Some (Throw e, onManager (clearDependencies "main.ts")
                       (loadedState halfBrokenTable)).
Proof.
  eexists.
  apply (sequential_pass_fails_before_recording (tableEnv halfBrokenTable) 0
           (tableResolver halfBrokenTable) "main.ts"
           (loadedState halfBrokenTable)
           {| text := "main.ts"; version := 0 |} ["B"] "missing" []).
  - reflexivity.
  - reflexivity.
  - constructor; [|constructor]. eexists. reflexivity.
  - reflexivity.
Defined.

Lemma internal_pass_keeps_loaded env fuel resolver fileName :
  relates loadedUnitsKept
    (checkDependenciesInternalSync env (checkDependenciesSync env fuel resolver)
       resolver fileName).
Proof.
  assert (forall st, loadedUnitsKept st st) as Hrefl by (by intros ? ? ?).
  assert (forall st1 st2 st3, loadedUnitsKept st1 st2 -> loadedUnitsKept st2 st3 ->
                              loadedUnitsKept st1 st3) as Htrans
    by (intros ? ? ? H1 H2 ? ? ?; by apply H2, H1).
  unfold checkDependenciesInternalSync.
  apply (relates_bind _ Htrans); [apply (relates_getState _ Hrefl)|]. intros st1.
  apply (relates_bind _ Htrans).
  { apply (relates_mapM _ Hrefl Htrans). intros x.
    apply (relates_liftCompletion _ Hrefl). }
  intros resolved.
  apply (relates_bind _ Htrans); [|intros; apply (relates_ret _ Hrefl)].
  apply (relates_mapM _ Hrefl Htrans). intros d.
  apply (relates_processImportSync _ Hrefl Htrans).
  - intros f e st g file H. exact H.
  - intros e st g file H. exact H.
  - intros e st st2 _ H. exact H.
  - intros f. apply sequential_pass_keeps_loaded.
Qed.

Lemma checkDependenciesSync_step env fuel resolver fileName st :
  checkDependenciesSync env (S fuel) resolver fileName st
  = let st1 := onManager (clearDependencies fileName) st in
    let internal :=
      checkDependenciesInternalSync env (checkDependenciesSync env fuel resolver)
        resolver fileName in
    match filesGet fileName (files st) with
    | Some _ => internal st1
    | None =>
        match fsReadFileSync env fileName with
        | None => Some (Throw (ReadError fileName), st1)
        | Some contents =>
            internal (withFiles (updateFile fileName contents false (files st)).2 st1)
        end
    end.
Proof.
  cbn [checkDependenciesSync].
  unfold bind, modify, getState, readFileAndUpdateSync, readFileSync, ret, throw.
  cbn. destruct (filesGet fileName (files st)); [reflexivity|].
  destruct (fsReadFileSync env fileName) as [contents|]; [|reflexivity].
  cbn. by destruct (updateFile fileName contents false (files st)).
Qed.

(** X5. A unit that is not in the store is read from the disk by the sequential
    mode, into version 0, and stays as read until the pass ends; when the
    read fails the pass throws the read error itself, not a resolution
    failure, having emptied the entry of the unit. *)
Theorem sequential_pass_reads_missing_unit env fuel resolver fileName st
    (Habsent : filesGet fileName (files st) = None) :
  (fsReadFileSync env fileName = None ->
   checkDependenciesSync env (S fuel) resolver fileName st
   = Some (Throw (ReadError fileName), onManager (clearDependencies fileName) st))
  /\ (forall contents r st',
        fsReadFileSync env fileName = Some contents ->
        checkDependenciesSync env (S fuel) resolver fileName st = Some (r, st') ->
        filesGet fileName (files st')
        = Some {| text := contents; version := 0 |}).
Proof.
  rewrite checkDependenciesSync_step, Habsent. cbv zeta. split.
  - intros ->. reflexivity.
  - intros contents r st' -> Hrun.
    apply internal_pass_keeps_loaded in Hrun. apply Hrun. cbn.
    unfold updateFile. rewrite Habsent. cbn. apply filesGet_filesSet_eq.
Qed.

Lemma sequential_pass_reads_missing_unit_witness :
  let st := {| files := []; depManager := emptyManager;
               validFiles := {| validFlags := ∅ |}; runtimeRead := false |} in
  checkDependenciesSync (tableEnv brokenTable) 1 (tableResolver brokenTable)
    "absent.ts" st
  = Some (Throw (ReadError "absent.ts"),
          onManager (clearDependencies "absent.ts") st).
Proof.
  intros st.
  apply (proj1 (sequential_pass_reads_missing_unit (tableEnv brokenTable) 0
                  (tableResolver brokenTable) "absent.ts" st eq_refl)).
  reflexivity.
Defined.

(** ** Termination of the sequential mode *)

Lemma hasTypeDeclaration_addTypeDeclaration d u dm :
  hasTypeDeclaration u dm = true ->
  hasTypeDeclaration u (addTypeDeclaration d dm) = true.
Proof.
  unfold hasTypeDeclaration, addTypeDeclaration. cbn.
  rewrite !bool_decide_eq_true. intros Hu.
  destruct (hasTypeDeclaration d dm); set_solver.
Qed.

Lemma pendingShrinks_flagged d st st1 :
  isFileValid d (validFiles st) = false ->
  pendingShrinks (onValidFiles (markFileValid d) st) st1 ->
  pendingShrinks st (onValidFiles (markFileInvalid d) st1).
Proof.
  intros Hd H u. specialize (H u). unfold pending, isFileValid in *. cbn in *.
  destruct (matchesDAnyTs u); [exact H|].
  destruct (decide (d = u)) as [->|Hne].
  - intros _. by rewrite Hd.
  - rewrite lookup_insert_ne by done. by rewrite lookup_insert_ne in H.
Qed.

Lemma pendingShrinks_refl st : pendingShrinks st st.
Proof. by intros u. Qed.

Lemma pendingShrinks_trans st1 st2 st3 :
  pendingShrinks st1 st2 -> pendingShrinks st2 st3 -> pendingShrinks st1 st3.
Proof. intros H1 H2 u H. by apply H1, H2. Qed.

Lemma pendingShrinks_add f d st :
  pendingShrinks st (onManager (addDependency f d) st).
Proof.
  intros u. unfold pending, hasTypeDeclaration. cbn. unfold addDependency.
  by destruct (hasDependencies f (depManager st)).
Qed.

Lemma pendingShrinks_declare d st :
  pendingShrinks st (onManager (addTypeDeclaration d) st).
Proof.
  intros u. unfold pending. cbn. destruct (matchesDAnyTs u); [|done].
  destruct (hasTypeDeclaration u (depManager st)) eqn:Hu; [|done].
  by rewrite hasTypeDeclaration_addTypeDeclaration.
Qed.

Lemma sequential_pass_pending env fuel resolver fileName :
  relates pendingShrinks (checkDependenciesSync env fuel resolver fileName).
Proof.
  apply relates_checkDependenciesSync.
  - apply pendingShrinks_refl.
  - apply pendingShrinks_trans.
  - by intros f st u.
  - apply pendingShrinks_add.
  - apply pendingShrinks_declare.
  - by intros f contents st _ u.
  - apply pendingShrinks_flagged.
Qed.

Lemma pendingUnits_shrinks U st st' :
  pendingShrinks st st' -> pendingUnits U st' ⊆ pendingUnits U st.
Proof.
  intros H u. unfold pendingUnits. rewrite !elem_of_filter.
  intros [Hu ?]. split; [by apply H|done].
Qed.

Lemma pendingUnits_entered U st st' d :
  d ∈ U -> pending st d = true -> pending st' d = false ->
  pendingShrinks st st' ->
  size (pendingUnits U st') < size (pendingUnits U st).
Proof.
  intros HU Hd Hd' H. apply subset_size. split.
  - by apply pendingUnits_shrinks.
  - intros Hsub. assert (d ∈ pendingUnits U st') as Hin.
    { apply Hsub. unfold pendingUnits. by rewrite elem_of_filter. }
    unfold pendingUnits in Hin. rewrite elem_of_filter in Hin.
    destruct Hin as [Hin _]. congruence.
Qed.

Lemma mapM_liftCompletion_returns {A B} (g : A -> Completion B) xs st :
  exists r, mapM (fun x => liftCompletion (g x)) xs st = Some (r, st)
            /\ forall ys, r = Normal ys ->
                          Forall2 (fun x y => g x = Normal y) xs ys.
Proof.
  induction xs as [|x xs IH]; cbn [mapM].
  - eexists. split; [reflexivity|]. intros ys [= <-]. constructor.
  - unfold bind at 1, liftCompletion at 1.
    destruct (g x) as [y|e] eqn:Hx; [|eexists; split; [reflexivity|discriminate]].
    unfold bind at 1. destruct IH as (r & -> & Hr).
    destruct r as [ys|e]; (eexists; split; [reflexivity|]); [|discriminate].
    intros ys' [= <-]. constructor; [exact Hx|by apply Hr].
Qed.

Section Termination.
Variable env : Env.
Variable resolver : SyncResolver.
Variable U : gset string.
Hypothesis U_closed : importsClosed env resolver U.

Lemma processImportSync_returns recur n fileName d st :
  (forall f st1, f ∈ U -> size (pendingUnits U st1) < n ->
                 exists r st', recur f st1 = Some (r, st')) ->
  d ∈ U -> size (pendingUnits U st) <= n ->
  exists r st', processImportSync recur fileName d st = Some (r, st').
Proof.
  intros Hrecur Hd Hsize. unfold processImportSync.
  destruct (matchesDAnyTs d) eqn:Hdecl;
    [|destruct (matchesJs d); [do 2 eexists; reflexivity|]].
  - unfold bind at 1, getState at 1.
    destruct (hasTypeDeclaration d (depManager st)) eqn:Hknown;
      [do 2 eexists; reflexivity|].
    unfold bind at 1, modify at 1. unfold bind at 1.
    destruct (Hrecur d (onManager (addTypeDeclaration d) st) Hd)
      as (r & st' & ->).
    { eapply Nat.lt_le_trans; [|exact Hsize].
      apply (pendingUnits_entered U _ _ d Hd).
      - unfold pending. by rewrite Hdecl, Hknown.
      - unfold pending. rewrite Hdecl. cbn.
        apply negb_false_iff, bool_decide_eq_true. cbn. rewrite Hknown. set_solver.
      - apply pendingShrinks_declare. }
    destruct r; do 2 eexists; reflexivity.
  - unfold bind at 1, modify at 1. unfold bind at 1, getState at 1.
    set (st1 := onManager (addDependency fileName d) st).
    destruct (isFileValid d (validFiles st1)) eqn:Hvalid;
      [do 2 eexists; reflexivity|].
    unfold bind at 1, modify at 1. unfold bind at 1, tryFinally.
    destruct (Hrecur d (onValidFiles (markFileValid d) st1) Hd)
      as (r & st' & ->).
    { eapply Nat.lt_le_trans; [|exact Hsize].
      apply (pendingUnits_entered U _ _ d Hd).
      - unfold pending. rewrite Hdecl.
        change (validFiles st) with (validFiles st1). by rewrite Hvalid.
      - unfold pending, isFileValid. rewrite Hdecl. cbn.
        by rewrite lookup_insert_eq.
      - intros u. unfold pending, isFileValid. cbn.
        destruct (matchesDAnyTs u).
        + unfold hasTypeDeclaration, addDependency. cbn.
          by destruct (hasDependencies fileName (depManager st)).
        + destruct (decide (d = u)) as [->|Hne].
          * intros _. cbn in Hvalid. unfold isFileValid in Hvalid.
            by rewrite Hvalid.
          * by rewrite lookup_insert_ne. }
    destruct r; do 2 eexists; reflexivity.
Qed.

Lemma mapM_processImportSync_returns recur n fileName ds :
  (forall f st1, f ∈ U -> size (pendingUnits U st1) < n ->
                 exists r st', recur f st1 = Some (r, st')) ->
  (forall f, relates pendingShrinks (recur f)) ->
  Forall (fun d => d ∈ U) ds ->
  forall st, size (pendingUnits U st) <= n ->
    exists r st', mapM (processImportSync recur fileName) ds st = Some (r, st').
Proof.
  intros Hrecur Hshrinks. induction 1 as [|d ds Hd _ IH]; intros st Hsize;
    cbn [mapM]; [do 2 eexists; reflexivity|].
  unfold bind at 1.
  destruct (processImportSync_returns recur n fileName d st Hrecur Hd Hsize)
    as (r1 & st1 & Hrun). rewrite Hrun.
  destruct r1 as [v|e]; [|do 2 eexists; reflexivity].
  assert (pendingShrinks st st1) as Hst1.
  { revert Hrun. apply relates_processImportSync; try done.
    - apply pendingShrinks_refl.
    - apply pendingShrinks_trans.
    - apply pendingShrinks_add.
    - apply pendingShrinks_declare.
    - apply pendingShrinks_flagged. }
  destruct (IH st1) as (r2 & st2 & Hrest).
  { apply pendingUnits_shrinks with (U := U) in Hst1.
    apply subseteq_size in Hst1. lia. }
  unfold bind at 1. rewrite Hrest. destruct r2; do 2 eexists; reflexivity.
Qed.

Lemma checkDependenciesInternalSync_returns recur n fileName st :
  (forall f st1, f ∈ U -> size (pendingUnits U st1) < n ->
                 exists r st', recur f st1 = Some (r, st')) ->
  (forall f, relates pendingShrinks (recur f)) ->
  fileName ∈ U -> size (pendingUnits U st) <= n ->
  exists r st',
    checkDependenciesInternalSync env recur resolver fileName st = Some (r, st').
Proof.
  intros Hrecur Hshrinks Hf Hsize. unfold checkDependenciesInternalSync.
  unfold bind at 1, getState at 1. unfold bind at 1.
  destruct (mapM_liftCompletion_returns
              (fun j => (resolveSync env resolver fileName j).1)
              (findImportDeclarations env fileName st) st)
    as (r0 & -> & Hresolved).
  destruct r0 as [resolved|e]; [|do 2 eexists; reflexivity].
  specialize (Hresolved resolved eq_refl).
  assert (Forall (fun d => d ∈ U) resolved) as HU.
  { apply Forall_forall. intros d Hd.
    apply list_elem_of_lookup in Hd as [i Hi].
    destruct (Forall2_lookup_r _ _ _ _ _ Hresolved Hi) as (spec & Hspec & Hres).
    apply (U_closed (files st) fileName spec d Hf); [|exact Hres].
    by eapply list_elem_of_lookup_2. }
  destruct (mapM_processImportSync_returns recur n fileName resolved
              Hrecur Hshrinks HU st Hsize) as (r & st' & Hrun).
  unfold bind at 1. rewrite Hrun. destruct r; do 2 eexists; reflexivity.
Qed.

Lemma checkDependenciesSync_returns n :
  forall fileName st,
    fileName ∈ U -> size (pendingUnits U st) <= n ->
    exists r st',
      checkDependenciesSync env (S n) resolver fileName st = Some (r, st').
Proof.
  induction n as [n IH] using lt_wf_ind. intros fileName st Hf Hsize.
  rewrite checkDependenciesSync_step. cbv zeta.
  assert (forall st2, pendingUnits U st2 = pendingUnits U st ->
            exists r st',
              checkDependenciesInternalSync env (checkDependenciesSync env n resolver)
                resolver fileName st2 = Some (r, st')) as Hinternal.
  { intros st2 Hsame. apply (checkDependenciesInternalSync_returns _ n);
      [| |exact Hf|by rewrite Hsame].
    - intros f st1 HfU Hlt. destruct n as [|m]; [lia|].
      apply (IH m); [lia|exact HfU|lia].
    - intros f. apply sequential_pass_pending. }
  destruct (filesGet fileName (files st)); [by apply Hinternal|].
  destruct (fsReadFileSync env fileName); [by apply Hinternal|].
  do 2 eexists; reflexivity.
Qed.

End Termination.

(** X23. On a finite set of units that holds whatever the imports of its
    units resolve to, the sequential mode returns or throws, cycles or not:
    a pass on a unit of the set ends for any fuel beyond the number of
    units of the set. *)
Theorem sequential_pass_returns env resolver (U : gset string) fuel fileName st
    (Hclosed : importsClosed env resolver U)
    (Hroot : fileName ∈ U)
    (Hfuel : size U < fuel) :
  exists r st',
    checkDependenciesSync env fuel resolver fileName st = Some (r, st').
Proof.
  destruct fuel as [|n]; [lia|].
  destruct (checkDependenciesSync_returns env resolver U Hclosed n fileName st Hroot)
    as (r & st' & Hrun).
  { assert (pendingUnits U st ⊆ U) as Hsub
      by (intros u; unfold pendingUnits; rewrite elem_of_filter; tauto).
    apply subseteq_size in Hsub. lia. }
  by exists r, st'.
Qed.

Lemma cycleTable_closed :
  importsClosed (tableEnv cycleTable) (tableResolver cycleTable)
    (list_to_set (map fst cycleTable)).
Proof.
  intros fs fileName specifier p Hf Hspec Hres.
  apply elem_of_list_to_set. apply elem_of_list_to_set in Hf.
  cbn in Hf. repeat (apply elem_of_cons in Hf as [->|Hf]); [| | |inversion Hf];
    vm_compute in Hspec;
    repeat (apply elem_of_cons in Hspec as [->|Hspec]); try (by inversion Hspec);
    vm_compute in Hres; injection Hres as <-;
    apply (bool_decide_unpack _); vm_compute; exact I.
Qed.

Lemma sequential_pass_returns_witness :
  exists r st',
    checkDependenciesSync (tableEnv cycleTable) 4 (tableResolver cycleTable)
      "A.ts" (loadedState cycleTable) = Some (r, st').
Proof.
  apply (sequential_pass_returns _ _ (list_to_set (map fst cycleTable))).
  - apply cycleTable_closed.
  - apply (bool_decide_unpack _). vm_compute. exact I.
  - vm_compute. lia.
Defined.

(** ** What a pass of the sequential mode records *)

Lemma relates_mapM_Forall (R : State -> State -> Prop) {A B} (f : A -> M B) xs :
  (forall st, R st st) ->
  (forall st1 st2 st3, R st1 st2 -> R st2 st3 -> R st1 st3) ->
  Forall (fun x => relates R (f x)) xs -> relates R (mapM f xs).
Proof.
  intros Hrefl Htrans. induction 1 as [|x xs Hx _ IH]; cbn [mapM];
    [by apply relates_ret|].
  apply relates_bind; [done|exact Hx|]. intros y.
  apply relates_bind; [done|exact IH|]. intros ys. by apply relates_ret.
Qed.

Lemma lookup_addDependency_ne f d dm g :
  g <> f -> dependencies (addDependency f d dm) !! g = dependencies dm !! g.
Proof.
  intros Hne. unfold addDependency. destruct (hasDependencies f dm); cbn;
    by rewrite !lookup_insert_ne.
Qed.

Section Reach.
Variable env : Env.
Variable resolver : SyncResolver.
Variable U : gset string.
Hypothesis U_closed : importsClosed env resolver U.

Let R := entriesOutsideKept U.

Lemma entriesOutsideKept_refl st : R st st.
Proof. by intros g. Qed.

Lemma entriesOutsideKept_trans st1 st2 st3 : R st1 st2 -> R st2 st3 -> R st1 st3.
Proof. intros H1 H2 g Hg. by rewrite H2, H1. Qed.

Lemma processImportSync_outside recur fileName d :
  fileName ∈ U -> relates R (recur d) ->
  relates R (processImportSync recur fileName d).
Proof.
  intros Hf Hrecur st r st'. unfold processImportSync.
  destruct (matchesDAnyTs d); [|destruct (matchesJs d)].
  - unfold bind at 1, getState at 1.
    destruct (hasTypeDeclaration d (depManager st)).
    + intros [= _ <-]. apply entriesOutsideKept_refl.
    + unfold bind at 1, modify at 1. unfold bind at 1.
      destruct (recur d _) as [[[deps|e] st1]|] eqn:Hcall; [| |discriminate];
        intros [= _ <-]; apply Hrecur in Hcall; exact Hcall.
  - intros [= _ <-]. apply entriesOutsideKept_refl.
  - unfold bind, modify, getState, tryFinally, ret.
    assert (R st (onManager (addDependency fileName d) st)) as Hadd.
    { intros g Hg. cbn. apply lookup_addDependency_ne. set_solver. }
    set (st1 := onManager (addDependency fileName d) st) in *.
    destruct (isFileValid d (validFiles st1)); [by intros [= _ <-]|].
    destruct (recur d _) as [[[deps|e] st2]|] eqn:Hcall; [| |discriminate];
      intros [= _ <-]; apply Hrecur in Hcall;
      (eapply entriesOutsideKept_trans; [exact Hadd|exact Hcall]).
Qed.

Lemma resolved_in_U fileName st resolved :
  fileName ∈ U ->
  Forall2 (fun j p => (resolveSync env resolver fileName j).1 = Normal p)
    (findImportDeclarations env fileName st) resolved ->
  Forall (fun d => d ∈ U) resolved.
Proof.
  intros Hf Hresolved. apply Forall_forall. intros d Hd.
  apply list_elem_of_lookup in Hd as [i Hi].
  destruct (Forall2_lookup_r _ _ _ _ _ Hresolved Hi) as (spec & Hspec & Hres).
  apply (U_closed (files st) fileName spec d Hf); [|exact Hres].
  by eapply list_elem_of_lookup_2.
Qed.

Lemma checkDependenciesInternalSync_outside recur fileName :
  fileName ∈ U -> (forall d, d ∈ U -> relates R (recur d)) ->
  relates R (checkDependenciesInternalSync env recur resolver fileName).
Proof.
  intros Hf Hrecur st r st'. unfold checkDependenciesInternalSync.
  unfold bind at 1, getState at 1. unfold bind at 1.
  destruct (mapM_liftCompletion_returns
              (fun j => (resolveSync env resolver fileName j).1)
              (findImportDeclarations env fileName st) st)
    as (r0 & -> & Hresolved).
  destruct r0 as [resolved|e]; [|intros [= _ <-]; apply entriesOutsideKept_refl].
  specialize (Hresolved resolved eq_refl).
  apply resolved_in_U in Hresolved; [|exact Hf].
  apply relates_bind; [apply entriesOutsideKept_trans| |].
  - apply relates_mapM_Forall;
      [apply entriesOutsideKept_refl|apply entriesOutsideKept_trans|].
    eapply Forall_impl; [exact Hresolved|]. intros d Hd.
    apply processImportSync_outside; [exact Hf|by apply Hrecur].
  - intros results. apply relates_ret. apply entriesOutsideKept_refl.
Qed.

Lemma checkDependenciesSync_outside fuel :
  forall fileName, fileName ∈ U ->
    relates R (checkDependenciesSync env fuel resolver fileName).
Proof.
  induction fuel as [|fuel IH]; intros fileName Hf st r st'; [discriminate|].
  rewrite checkDependenciesSync_step. cbv zeta.
  assert (R st (onManager (clearDependencies fileName) st)) as Hclear.
  { intros g Hg. cbn. rewrite lookup_insert_ne; [done|]. set_solver. }
  pose proof (checkDependenciesInternalSync_outside
                (checkDependenciesSync env fuel resolver) fileName Hf IH) as Hinternal.
  destruct (filesGet fileName (files st)).
  - intros Hrun. apply Hinternal in Hrun.
    eapply entriesOutsideKept_trans; [exact Hclear|exact Hrun].
  - destruct (fsReadFileSync env fileName).
    + intros Hrun. apply Hinternal in Hrun.
      eapply entriesOutsideKept_trans; [exact Hclear|exact Hrun].
    + intros [= _ <-]. exact Hclear.
Qed.

(** What the callbacks add to the entry of a unit outside [U] whose imports
    resolved into [U]. *)
Lemma mapM_processImportSync_records fuel root ds :
  root ∉ U -> Forall (fun d => d ∈ U) ds ->
  forall st results st',
    mapM (processImportSync (checkDependenciesSync env fuel resolver) root) ds st
    = Some (Normal results, st') ->
    depsOf (depManager st') root
    = depsOf (depManager st) root ++ filter (fun d => isRecorded d = true) ds.
Proof.
  intros Hroot. induction 1 as [|d ds Hd _ IH]; intros st results st' Hrun;
    cbn [mapM] in Hrun.
  - injection Hrun as _ <-. by rewrite filter_nil, app_nil_r.
  - apply bind_Normal_inv in Hrun as (v & st1 & Hd1 & Hrun).
    apply bind_Normal_inv in Hrun as (vs & st2 & Hrest & Hrun).
    injection Hrun as _ <-. rewrite (IH _ _ _ Hrest). rewrite filter_cons.
    assert (forall st0 r st0',
              checkDependenciesSync env fuel resolver d st0 = Some (r, st0') ->
              depsOf (depManager st0') root = depsOf (depManager st0) root)
      as Hkept.
    { intros st0 r st0' Hcall. unfold depsOf.
      by rewrite (checkDependenciesSync_outside fuel d Hd _ _ _ Hcall root Hroot). }
    revert Hd1. unfold processImportSync, isRecorded.
    destruct (matchesDAnyTs d); [|destruct (matchesJs d)]; cbn [negb andb].
    + rewrite decide_False by done.
      unfold bind at 1, getState at 1.
      destruct (hasTypeDeclaration d (depManager st)); [by intros [= _ <-]|].
      unfold bind at 1, modify at 1. unfold bind at 1.
      destruct (checkDependenciesSync env fuel resolver d _)
        as [[[deps|e] st0]|] eqn:Hcall; [|discriminate..].
      intros [= _ <-]. by rewrite (Hkept _ _ _ Hcall).
    + rewrite decide_False by done. by intros [= _ <-].
    + rewrite decide_True by done.
      unfold bind, modify, getState, tryFinally, ret.
      assert (depsOf (depManager (onManager (addDependency root d) st)) root
              = depsOf (depManager st) root ++ [d]) as Hadd.
      { cbn. rewrite depsOf_addDependency. by rewrite decide_True. }
      destruct (isFileValid d (validFiles (onManager (addDependency root d) st))).
      * intros [= _ <-]. by rewrite Hadd, <- app_assoc.
      * destruct (checkDependenciesSync env fuel resolver d _)
          as [[[deps|e] st3]|] eqn:Hcall; [|discriminate..].
        intros [= _ <-].
        change (depManager (onValidFiles (markFileInvalid d) st3))
          with (depManager st3).
        rewrite (Hkept _ _ _ Hcall).
        change (depManager (onValidFiles (markFileValid d)
                              (onManager (addDependency root d) st)))
          with (depManager (onManager (addDependency root d) st)).
        by rewrite Hadd, <- app_assoc.
Qed.

End Reach.

(** X24. A pass of the sequential mode on a unit of a set that holds
    whatever the imports of its units resolve to changes the entry of no
    unit outside the set, however it ends. *)
Theorem sequential_pass_touches_reachable_only env resolver (U : gset string)
    fuel fileName st r st'
    (Hclosed : importsClosed env resolver U)
    (Hroot : fileName ∈ U)
    (Hrun : checkDependenciesSync env fuel resolver fileName st = Some (r, st')) :
  entriesOutsideKept U st st'.
Proof. exact (checkDependenciesSync_outside env resolver U Hclosed fuel fileName Hroot _ _ _ Hrun). Qed.

Lemma layeredTable_closed :
  importsClosed (tableEnv layeredTable) (tableResolver layeredTable) layeredUnits.
Proof.
  intros fs fileName specifier p Hf Hspec Hres.
  apply elem_of_list_to_set. apply elem_of_list_to_set in Hf.
  repeat (apply elem_of_cons in Hf as [->|Hf]); try (by inversion Hf);
    vm_compute in Hspec;
    repeat (apply elem_of_cons in Hspec as [->|Hspec]); try (by inversion Hspec);
    vm_compute in Hres; injection Hres as <-;
    apply (bool_decide_unpack _); vm_compute; exact I.
Qed.

Lemma sequential_pass_touches_reachable_only_witness :
  match checkDependenciesSync (tableEnv layeredTable) 3 (tableResolver layeredTable)
          "B.ts" (loadedState layeredTable) with
  | Some (_, st') => entriesOutsideKept layeredUnits (loadedState layeredTable) st'
  | None => False
  end.
Proof.
  destruct (checkDependenciesSync (tableEnv layeredTable) 3
              (tableResolver layeredTable) "B.ts" (loadedState layeredTable))
    as [[r st']|] eqn:Hrun.
  - apply (sequential_pass_touches_reachable_only _ _ _ _ _ _ _ _
             layeredTable_closed) in Hrun; [exact Hrun|].
    apply (bool_decide_unpack _). vm_compute. exact I.
  - vm_compute in Hrun. discriminate Hrun.
Defined.

(** X25. For a loaded unit that none of its imports leads back to, a
    pass of the sequential mode that returns leaves as the entry of the unit
    what its imports resolved to, in the order of the imports, without the
    declarations and the compiled modules. *)
Theorem sequential_pass_records_imports env resolver (U : gset string)
    fuel fileName file st deps st'
    (Hclosed : importsClosed env resolver U)
    (Hroot : fileName ∉ U)
    (Hloaded : filesGet fileName (files st) = Some file)
    (Himports : forall specifier p,
        specifier ∈ findImportDeclarations env fileName st ->
        (resolveSync env resolver fileName specifier).1 = Normal p -> p ∈ U)
    (Hrun : checkDependenciesSync env fuel resolver fileName st
            = Some (Normal deps, st')) :
  exists resolved,
    Forall2 (fun specifier p =>
               (resolveSync env resolver fileName specifier).1 = Normal p)
      (findImportDeclarations env fileName st) resolved
    /\ depsOf (depManager st') fileName
       = filter (fun d => isRecorded d = true) resolved.
Proof.
  destruct fuel as [|fuel]; [discriminate|].
  rewrite checkDependenciesSync_step, Hloaded in Hrun. cbv zeta in Hrun.
  unfold checkDependenciesInternalSync in Hrun.
  unfold bind at 1, getState at 1 in Hrun. unfold bind at 1 in Hrun.
  change (findImportDeclarations env fileName
            (onManager (clearDependencies fileName) st))
    with (findImportDeclarations env fileName st) in Hrun.
  destruct (mapM_liftCompletion_returns
              (fun j => (resolveSync env resolver fileName j).1)
              (findImportDeclarations env fileName st)
              (onManager (clearDependencies fileName) st))
    as (r0 & Hresolve & Hresolved).
  rewrite Hresolve in Hrun. destruct r0 as [resolved|e]; [|discriminate].
  specialize (Hresolved resolved eq_refl). exists resolved. split; [exact Hresolved|].
  apply bind_Normal_inv in Hrun as (results & st2 & Hresults & Hrun).
  injection Hrun as _ <-.
  rewrite (mapM_processImportSync_records env resolver U Hclosed fuel fileName
             resolved Hroot) with (st := onManager (clearDependencies fileName) st)
                                  (results := results); [| |exact Hresults].
  - cbn. rewrite depsOf_clearDependencies. by rewrite decide_True.
  - apply Forall_forall. intros d Hd.
    apply list_elem_of_lookup in Hd as [i Hi].
    destruct (Forall2_lookup_r _ _ _ _ _ Hresolved Hi) as (spec & Hspec & Hres).
    apply (Himports spec d); [|exact Hres]. by eapply list_elem_of_lookup_2.
Qed.

Lemma sequential_pass_records_imports_witness :
  match checkDependenciesSync (tableEnv layeredTable) 4 (tableResolver layeredTable)
          "main.ts" (loadedState layeredTable) with
  | Some (Normal _, st') =>
      exists resolved,
        Forall2 (fun specifier p =>
                   (resolveSync (tableEnv layeredTable) (tableResolver layeredTable)
                      "main.ts" specifier).1 = Normal p)
          (findImportDeclarations (tableEnv layeredTable) "main.ts"
             (loadedState layeredTable)) resolved
        /\ depsOf (depManager st') "main.ts"
           = filter (fun d => isRecorded d = true) resolved
  | _ => False
  end.
Proof.
  destruct (checkDependenciesSync (tableEnv layeredTable) 4
              (tableResolver layeredTable) "main.ts" (loadedState layeredTable))
    as [[[deps|e] st']|] eqn:Hrun.
  - apply (sequential_pass_records_imports _ _ layeredUnits _ _
             {| text := "main.ts"; version := 0 |} _ _ _ layeredTable_closed)
      in Hrun; [exact Hrun| |reflexivity|].
    + apply (bool_decide_unpack _). vm_compute. exact I.
    + intros specifier p Hspec Hres. apply elem_of_list_to_set.
      vm_compute in Hspec.
      repeat (apply elem_of_cons in Hspec as [->|Hspec]); try (by inversion Hspec);
        vm_compute in Hres; injection Hres as <-;
        apply (bool_decide_unpack _); vm_compute; exact I.
  - vm_compute in Hrun. discriminate Hrun.
  - vm_compute in Hrun. discriminate Hrun.
Defined.

(** ** Runs of the concurrent mode *)

Lemma filesGet_is_Some f fs : is_Some (filesGet f fs) <-> f ∈ filesKeys fs.
Proof.
  unfold filesKeys. induction fs as [|[k v] fs IH]; cbn.
  - split; [intros [? [=]]|intros H; inversion H].
  - destruct (decide (k = f)) as [->|Hne].
    + split; [intros _; left|eauto].
    + rewrite IH. split; [by right|].
      intros H. apply elem_of_cons in H as [->|H]; done.
Qed.

Lemma filesKeys_reload f contents fs :
  is_Some (filesGet f fs) ->
  filesKeys (updateFile f contents false fs).2 = filesKeys fs.
Proof.
  intros [prev Hprev]. unfold updateFile. rewrite Hprev. cbn.
  by rewrite filesKeys_filesSet, Hprev.
Qed.

Lemma flowsReadLoaded_settle id outcome a :
  flowsReadLoaded a -> flowsReadLoaded (settle id outcome a).
Proof.
  intros Ha id' f Hin. rewrite store_settle.
  apply tasks_settle in Hin as [Hin|[=]]. by eapply Ha.
Qed.

Lemma flowsReadLoaded_importFulfilled id a :
  flowsReadLoaded a -> flowsReadLoaded (importFulfilled id a).
Proof.
  intros Ha id' f Hin. rewrite store_importFulfilled.
  apply tasks_importFulfilled in Hin as [Hin|[=]]. by eapply Ha.
Qed.

Lemma flowsReadLoaded_store st a :
  files st = files (store a) ->
  flowsReadLoaded a -> flowsReadLoaded (withStore st a).
Proof. intros Hfiles Ha id f Hin. cbn. rewrite Hfiles. by eapply Ha. Qed.

Lemma flowsReadLoaded_checkDependencies k fileName a :
  flowsReadLoaded a -> flowsReadLoaded (checkDependencies k fileName a).
Proof.
  intros Ha id f. cbn. rewrite elem_of_app, list_elem_of_singleton.
  intros [Hin|Heq]; [by eapply Ha|]. injection Heq as _ -> Hreads.
  destruct (filesGet fileName (files (store a))); [eauto|discriminate].
Qed.

Lemma tasks_enqueue_imports id fileName imports a t :
  t ∈ tasks (fold_left (fun a depRelFileName =>
                          enqueue (TaskImport id fileName depRelFileName) a)
               imports a) ->
  t ∈ tasks a \/ exists d, t = TaskImport id fileName d.
Proof.
  revert a. induction imports as [|i imports IH]; intros a; cbn; [auto|].
  intros Hin. apply IH in Hin as [Hin|?]; [|auto]. cbn in Hin.
  apply elem_of_app in Hin as [?|Hin]; [auto|].
  apply list_elem_of_singleton in Hin as ->. eauto.
Qed.

Lemma flowsReadLoaded_checkDependenciesInternalAsync env id fileName a :
  flowsReadLoaded a ->
  flowsReadLoaded (checkDependenciesInternalAsync env id fileName a).
Proof.
  intros Ha id' f Hin. rewrite store_checkDependenciesInternalAsync.
  unfold checkDependenciesInternalAsync in Hin.
  destruct (activations a !! id) as [act|]; [|by eapply Ha].
  destruct (findImportDeclarations env fileName (store a)).
  - apply tasks_settle in Hin as [Hin|[=]]. by eapply Ha.
  - apply tasks_enqueue_imports in Hin as [Hin|[d [=]]]. by eapply Ha.
Qed.

Lemma flowsReadLoaded_processImportAsync id fileName depFileName a :
  flowsReadLoaded a ->
  flowsReadLoaded (processImportAsync id fileName depFileName a)
  /\ files (store (processImportAsync id fileName depFileName a)) = files (store a).
Proof.
  intros Ha. unfold processImportAsync.
  destruct (matchesDAnyTs depFileName);
    [destruct (hasTypeDeclaration depFileName _)|
     destruct (matchesJs depFileName); [|destruct (isFileValid depFileName _)]];
    rewrite ?store_importFulfilled, ?store_checkDependencies;
    (split; [|reflexivity]);
    repeat first [apply flowsReadLoaded_importFulfilled
                 |apply flowsReadLoaded_checkDependencies
                 |apply flowsReadLoaded_store; [reflexivity|]];
    exact Ha.
Qed.

Lemma runTask_loads_nothing env resolver t a :
  (forall id f, t = TaskFlow id f true -> is_Some (filesGet f (files (store a)))) ->
  flowsReadLoaded a ->
  flowsReadLoaded (runTask env resolver t a)
  /\ filesKeys (files (store (runTask env resolver t a))) = filesKeys (files (store a)).
Proof.
  intros Ht Ha. destruct t as [id fileName reads|id fileName dep|id outcome];
    cbn [runTask].
  - destruct reads.
    + destruct (fsReadFile env fileName) as [contents|].
      * pose proof (filesKeys_reload fileName contents (files (store a))
                      (Ht _ _ eq_refl)) as Hkeys.
        destruct (updateFile fileName contents false (files (store a)))
          as [changed fs]. cbn [snd] in Hkeys.
        rewrite store_checkDependenciesInternalAsync. split; [|exact Hkeys].
        apply flowsReadLoaded_checkDependenciesInternalAsync.
        intros id' f Hin. cbn [store withStore files withFiles].
        apply filesGet_is_Some. rewrite Hkeys.
        apply filesGet_is_Some. by eapply Ha.
      * rewrite store_settle. split; [by apply flowsReadLoaded_settle|done].
    + rewrite store_checkDependenciesInternalAsync.
      split; [by apply flowsReadLoaded_checkDependenciesInternalAsync|done].
  - destruct (resolveAsync env resolver fileName dep).1 as [d|e].
    + destruct (flowsReadLoaded_processImportAsync id fileName d a Ha) as [H1 H2].
      split; [exact H1|by rewrite H2].
    + unfold importRejected. rewrite store_settle.
      split; [by apply flowsReadLoaded_settle|done].
  - destruct (activations a !! id) as [act|]; [|done].
    destruct (continuation act) as [|parent|parent d], outcome as [[]|e];
      unfold importRejected;
      rewrite ?store_importFulfilled, ?store_settle;
      try (split; [|reflexivity]);
      try first [by apply flowsReadLoaded_importFulfilled
                |by apply flowsReadLoaded_settle].
    + intros id' f Hin. by eapply Ha.
    + intros id' f Hin. by eapply Ha.
    + split.
      * apply flowsReadLoaded_settle. apply flowsReadLoaded_store; [|done].
        by destruct (isResolutionError e).
      * cbn. by destruct (isResolutionError e).
Qed.

Lemma asyncRun_loads_nothing env resolver schedule :
  forall a, flowsReadLoaded a ->
    flowsReadLoaded (asyncRun env resolver schedule a)
    /\ filesKeys (files (store (asyncRun env resolver schedule a)))
       = filesKeys (files (store a)).
Proof.
  induction schedule as [|pick schedule IH]; intros a Ha; [done|].
  change (asyncRun env resolver (pick :: schedule) a)
    with (asyncRun env resolver schedule (asyncStep env resolver pick a)).
  unfold asyncStep.
  destruct (tasks a !! pick) as [t|] eqn:Hpick; [|by apply IH].
  set (a1 := {| store := store a; activations := activations a;
                tasks := take pick (tasks a) ++ drop (S pick) (tasks a);
                rootOutcome := rootOutcome a |}).
  destruct (runTask_loads_nothing env resolver t a1) as [H1 H2].
  - intros id f ->. apply (Ha id f). by eapply list_elem_of_lookup_2.
  - intros id f Hin. apply (Ha id f). cbn in Hin.
    apply elem_of_app in Hin as [Hin|Hin].
    + by apply subseteq_take in Hin.
    + by apply subseteq_drop in Hin.
  - destruct (IH _ H1) as [H3 H4]. split; [exact H3|]. by rewrite H4, H2.
Qed.

(** X6. A run of the concurrent mode loads no unit: whatever the schedule,
    the store holds the units it held, in the same order.  The test of
    [checkDependencies] reads the file of a unit that is in the store and
    skips the read of a unit that is not. *)
Theorem concurrent_run_loads_nothing env resolver schedule fileName st :
  getScriptFileNames
    (store (asyncRun env resolver schedule (startCheckDependencies fileName st)))
  = getScriptFileNames st.
Proof.
  unfold getScriptFileNames.
  destruct (asyncRun_loads_nothing env resolver schedule
              (startCheckDependencies fileName st)) as [_ ->]; [|reflexivity].
  apply flowsReadLoaded_checkDependencies. intros id f H. inversion H.
Qed.

Lemma versionsNotLowered_update f contents st :
  versionsNotLowered st (withFiles (updateFile f contents false (files st)).2 st).
Proof.
  intros g file Hg. cbn [files withFiles]. unfold updateFile.
  destruct (decide (f = g)) as [->|Hne].
  - rewrite Hg. cbn. rewrite filesGet_filesSet_eq. eexists. split; [done|]. cbn. lia.
  - destruct (filesGet f (files st)); cbn;
      (rewrite filesGet_filesSet_ne by done; exists file; split; [done|lia]).
Qed.

Lemma concurrent_run_grows env resolver schedule a :
  storeGrows (store a) (store (asyncRun env resolver schedule a)).
Proof.
  apply relates_asyncRun.
  - apply storeGrows_refl.
  - apply storeGrows_trans.
  - apply storeGrows_clear.
  - apply storeGrows_add.
  - apply storeGrows_declare.
  - apply storeGrows_update.
  - intros. apply storeGrows_flags.
  - intros. apply storeGrows_flags.
Qed.

Lemma concurrent_run_distinct env resolver schedule a :
  registryStaysDistinct (store a) (store (asyncRun env resolver schedule a)).
Proof.
  apply relates_asyncRun.
  - intros st H. exact H.
  - intros st1 st2 st3 H1 H2 H. apply H2, H1, H.
  - intros f st H. exact H.
  - apply registryStaysDistinct_add.
  - apply registryStaysDistinct_declare.
  - intros f contents st H. exact H.
  - intros d st H. exact H.
  - intros d st H. exact H.
Qed.

Lemma concurrent_run_versions env resolver schedule a :
  versionsNotLowered (store a) (store (asyncRun env resolver schedule a)).
Proof.
  apply relates_asyncRun.
  - intros st g file H. exists file. split; [done|lia].
  - intros st1 st2 st3 H1 H2 g file H.
    destruct (H1 _ _ H) as (file1 & Hg1 & Hv1).
    destruct (H2 _ _ Hg1) as (file2 & Hg2 & Hv2).
    exists file2. split; [done|lia].
  - intros f st g file H. exists file. split; [done|lia].
  - intros f d st g file H. exists file. split; [done|lia].
  - intros d st g file H. exists file. split; [done|lia].
  - apply versionsNotLowered_update.
  - intros d st g file H. exists file. split; [done|lia].
  - intros d st g file H. exists file. split; [done|lia].
Qed.

(** X7. A run of the concurrent mode, whatever the schedule and from any
    state of the promises, only extends the registry, the entries of the
    graph and the unit store; it keeps the units of the registry distinct
    and lowers the version of no unit. *)
Theorem concurrent_run_frame env resolver schedule a :
  storeGrows (store a) (store (asyncRun env resolver schedule a))
  /\ registryStaysDistinct (store a) (store (asyncRun env resolver schedule a))
  /\ versionsNotLowered (store a) (store (asyncRun env resolver schedule a)).
Proof.
  split; [apply concurrent_run_grows|].
  split; [apply concurrent_run_distinct|apply concurrent_run_versions].
Qed.

Lemma resolveAsync_resolves env resolver fileName defPath :
  alwaysResolves resolver ->
  exists p, (resolveAsync env resolver fileName defPath).1 = Normal p.
Proof.
  intros Hres. unfold resolveAsync, callResolver, promiseError.
  destruct (hasNoExtension defPath); [|destruct (matchesDts defPath); [by eexists|]].
  - destruct (Hres (pathDirname env fileName) (defPath +:+ ".ts")) as [p ->].
    by exists p.
  - destruct (Hres (pathDirname env fileName) defPath) as [p ->]. by exists p.
Qed.

Lemma noResolutionFailure_settle id outcome a :
  (forall e, outcome = Throw e -> isResolutionError e = false) ->
  noResolutionFailure a -> noResolutionFailure (settle id outcome a).
Proof.
  intros Hout Ha id' e Hin.
  apply tasks_settle in Hin as [Hin|Heq]; [by eapply Ha|].
  injection Heq as _ <-. by apply Hout.
Qed.

Lemma noResolutionFailure_importFulfilled id a :
  noResolutionFailure a -> noResolutionFailure (importFulfilled id a).
Proof.
  intros Ha id' e Hin.
  apply tasks_importFulfilled in Hin as [Hin|[=]]. by eapply Ha.
Qed.

Lemma noResolutionFailure_checkDependencies k fileName a :
  noResolutionFailure a -> noResolutionFailure (checkDependencies k fileName a).
Proof.
  intros Ha id e. cbn. rewrite elem_of_app, list_elem_of_singleton.
  intros [Hin|[=]]. by eapply Ha.
Qed.

Lemma noResolutionFailure_store st a :
  noResolutionFailure a -> noResolutionFailure (withStore st a).
Proof. intros Ha id e Hin. by eapply Ha. Qed.

Lemma noResolutionFailure_checkDependenciesInternalAsync env id fileName a :
  noResolutionFailure a ->
  noResolutionFailure (checkDependenciesInternalAsync env id fileName a).
Proof.
  intros Ha id' e Hin. unfold checkDependenciesInternalAsync in Hin.
  destruct (activations a !! id) as [act|]; [|by eapply Ha].
  destruct (findImportDeclarations env fileName (store a)).
  - apply tasks_settle in Hin as [Hin|[=]]. by eapply Ha.
  - apply tasks_enqueue_imports in Hin as [Hin|[d [=]]]. by eapply Ha.
Qed.

Lemma flagsOnlyRaised_refl st : flagsOnlyRaised st st.
Proof. intros d. by left. Qed.

Lemma flagsOnlyRaised_trans st1 st2 st3 :
  flagsOnlyRaised st1 st2 -> flagsOnlyRaised st2 st3 -> flagsOnlyRaised st1 st3.
Proof.
  intros H1 H2 d. destruct (H2 d) as [->|Hd]; [apply H1|by right].
Qed.

Lemma flagsOnlyRaised_valid d st :
  flagsOnlyRaised st (onValidFiles (markFileValid d) st).
Proof.
  intros e. cbn. destruct (decide (d = e)) as [->|Hne].
  - right. apply lookup_insert_eq.
  - left. by apply lookup_insert_ne.
Qed.

Lemma runTask_raises_flags_only env resolver t a :
  alwaysResolves resolver ->
  (forall id e, t = TaskSettled id (Throw e) -> isResolutionError e = false) ->
  noResolutionFailure a ->
  noResolutionFailure (runTask env resolver t a)
  /\ flagsOnlyRaised (store a) (store (runTask env resolver t a)).
Proof.
  intros Hres Ht Ha.
  destruct t as [id fileName reads|id fileName dep|id outcome]; cbn [runTask].
  - destruct reads.
    + destruct (fsReadFile env fileName) as [contents|].
      * destruct (updateFile fileName contents false (files (store a)))
          as [changed fs].
        rewrite store_checkDependenciesInternalAsync.
        split; [|intros ?; by left].
        apply noResolutionFailure_checkDependenciesInternalAsync.
        by apply noResolutionFailure_store.
      * rewrite store_settle. split; [|apply flagsOnlyRaised_refl].
        apply noResolutionFailure_settle; [|done]. by intros e [= <-].
    + rewrite store_checkDependenciesInternalAsync.
      split; [by apply noResolutionFailure_checkDependenciesInternalAsync|
              apply flagsOnlyRaised_refl].
  - destruct (resolveAsync_resolves env resolver fileName dep Hres) as [d ->].
    unfold processImportAsync.
    destruct (matchesDAnyTs d);
      [destruct (hasTypeDeclaration d _)|
       destruct (matchesJs d); [|destruct (isFileValid d _)]];
      rewrite ?store_importFulfilled, ?store_checkDependencies;
      (split; [|try apply flagsOnlyRaised_refl]);
      repeat first [apply noResolutionFailure_importFulfilled
                   |apply noResolutionFailure_checkDependencies
                   |apply noResolutionFailure_store];
      try exact Ha; try (intros ?; by left).
    exact (flagsOnlyRaised_valid d (store a)).
  - destruct (activations a !! id) as [act|];
      [|split; [done|apply flagsOnlyRaised_refl]].
    destruct (continuation act) as [|parent|parent d], outcome as [[]|e];
      unfold importRejected;
      rewrite ?store_importFulfilled, ?store_settle;
      try (split; [|apply flagsOnlyRaised_refl]);
      try first [by apply noResolutionFailure_importFulfilled
                |apply noResolutionFailure_settle; [|done];
                  intros e' [= <-]; by eapply Ht].
    + intros id' e Hin. by eapply Ha.
    + intros id' e' Hin. by eapply Ha.
    + cbn [store withStore]. rewrite (Ht id e eq_refl).
      split; [|apply flagsOnlyRaised_refl].
      apply noResolutionFailure_settle; [|by apply noResolutionFailure_store].
      intros e' [= <-]. by eapply Ht.
Qed.

Lemma asyncRun_raises_flags_only env resolver schedule :
  alwaysResolves resolver ->
  forall a, noResolutionFailure a ->
    flagsOnlyRaised (store a) (store (asyncRun env resolver schedule a)).
Proof.
  intros Hres. induction schedule as [|pick schedule IH]; intros a Ha;
    [apply flagsOnlyRaised_refl|].
  change (asyncRun env resolver (pick :: schedule) a)
    with (asyncRun env resolver schedule (asyncStep env resolver pick a)).
  unfold asyncStep.
  destruct (tasks a !! pick) as [t|] eqn:Hpick; [|by apply IH].
  set (a1 := {| store := store a; activations := activations a;
                tasks := take pick (tasks a) ++ drop (S pick) (tasks a);
                rootOutcome := rootOutcome a |}).
  destruct (runTask_raises_flags_only env resolver t a1 Hres) as [H1 H2].
  - intros id e ->. apply (Ha id e). by eapply list_elem_of_lookup_2.
  - intros id e Hin. apply (Ha id e). cbn in Hin.
    apply elem_of_app in Hin as [Hin|Hin].
    + by apply subseteq_take in Hin.
    + by apply subseteq_drop in Hin.
  - eapply flagsOnlyRaised_trans; [exact H2|by apply IH].
Qed.

(** X8. With a resolver that finds every specifier, a run of the
    concurrent mode resets no validity flag, whatever the schedule and even
    when files cannot be read: after the run the flag of every unit is what
    it was before or is [true], so no flag has been set to [false] and none
    that was set has been lost.  The handler that resets a flag runs for a
    [ResolutionError] only. *)
Theorem concurrent_run_resets_no_flag env resolver schedule fileName st
    (Hresolves : alwaysResolves resolver) :
  flagsOnlyRaised st
    (store (asyncRun env resolver schedule (startCheckDependencies fileName st))).
Proof.
  apply (asyncRun_raises_flags_only env resolver schedule Hresolves
           (startCheckDependencies fileName st)).
  apply noResolutionFailure_checkDependencies. intros id e H. inversion H.
Qed.

(** A run from a store in which the flag of [B.ts] was reset and the flag of
    [C.ts] is set: the run sets the first and leaves the second. *)
Lemma concurrent_run_resets_no_flag_witness :
  flagsOnlyRaised staleFlagsState
    (store (asyncRun (tableEnv pairTable) identityResolver (fifo 6)
              (startCheckDependencies "A.ts" staleFlagsState)))
  /\ validFlags (validFiles staleFlagsState) !! "B.ts" = Some false
  /\ validFlags (validFiles
        (store (asyncRun (tableEnv pairTable) identityResolver (fifo 6)
                  (startCheckDependencies "A.ts" staleFlagsState))))
      !! "B.ts" = Some true
  /\ validFlags (validFiles
        (store (asyncRun (tableEnv pairTable) identityResolver (fifo 6)
                  (startCheckDependencies "A.ts" staleFlagsState))))
      !! "C.ts" = Some true.
Proof.
  split.
  - apply concurrent_run_resets_no_flag. intros base dep. by exists dep.
  - repeat split; vm_compute; reflexivity.
Defined.

Lemma tasks_enqueue_imports_from id fileName imports a t :
  t ∈ tasks (fold_left (fun a depRelFileName =>
                          enqueue (TaskImport id fileName depRelFileName) a)
               imports a) ->
  t ∈ tasks a \/ exists d, d ∈ imports /\ t = TaskImport id fileName d.
Proof.
  revert a. induction imports as [|i imports IH]; intros a; cbn; [auto|].
  intros Hin. apply IH in Hin as [Hin|(d & Hd & ->)].
  - cbn in Hin. apply elem_of_app in Hin as [?|Hin]; [auto|].
    apply list_elem_of_singleton in Hin as ->. right. exists i. split; [left|done].
  - right. exists d. split; [by right|done].
Qed.

Section ReachAsync.
Variable env : Env.
Variable resolver : AsyncResolver.
Variable U : gset string.
Hypothesis U_closed : importsClosedAsync env resolver U.

Lemma tasksWithin_settle id outcome a :
  tasksWithin env U a -> tasksWithin env U (settle id outcome a).
Proof.
  intros Ha t Hin. apply tasks_settle in Hin as [Hin| ->]; [by apply Ha|done].
Qed.

Lemma tasksWithin_importFulfilled id a :
  tasksWithin env U a -> tasksWithin env U (importFulfilled id a).
Proof.
  intros Ha t Hin.
  apply tasks_importFulfilled in Hin as [Hin| ->]; [by apply Ha|done].
Qed.

Lemma tasksWithin_store st a :
  tasksWithin env U a -> tasksWithin env U (withStore st a).
Proof. intros Ha t Hin. by apply Ha. Qed.

Lemma tasksWithin_checkDependencies k fileName a :
  fileName ∈ U -> tasksWithin env U a ->
  tasksWithin env U (checkDependencies k fileName a).
Proof.
  intros Hf Ha t. cbn. rewrite elem_of_app, list_elem_of_singleton.
  intros [Hin| ->]; [by apply Ha|exact Hf].
Qed.

Lemma tasksWithin_checkDependenciesInternalAsync id fileName a :
  fileName ∈ U -> tasksWithin env U a ->
  tasksWithin env U (checkDependenciesInternalAsync env id fileName a).
Proof.
  intros Hf Ha t Hin. unfold checkDependenciesInternalAsync in Hin.
  destruct (activations a !! id) as [act|]; [|by apply Ha].
  destruct (findImportDeclarations env fileName (store a)) as [|i imports] eqn:Hi.
  - apply tasks_settle in Hin as [Hin| ->]; [by apply Ha|done].
  - apply tasks_enqueue_imports_from in Hin as [Hin|(d & Hd & ->)];
      [by apply Ha|].
    split; [exact Hf|]. exists (files (store a)).
    unfold findImportDeclarations in Hi. unfold importsBelow. by rewrite Hi.
Qed.

Lemma entriesOutsideKept_clear fileName st :
  fileName ∈ U ->
  entriesOutsideKept U st (onManager (clearDependencies fileName) st).
Proof. intros Hf g Hg. cbn. rewrite lookup_insert_ne; [done|]. set_solver. Qed.

Lemma entriesOutsideKept_add fileName d st :
  fileName ∈ U ->
  entriesOutsideKept U st (onManager (addDependency fileName d) st).
Proof. intros Hf g Hg. cbn. apply lookup_addDependency_ne. set_solver. Qed.

Lemma processImportAsync_within id fileName d a :
  fileName ∈ U -> d ∈ U -> tasksWithin env U a ->
  tasksWithin env U (processImportAsync id fileName d a)
  /\ entriesOutsideKept U (store a) (store (processImportAsync id fileName d a)).
Proof.
  intros Hf Hd Ha. unfold processImportAsync.
  destruct (matchesDAnyTs d);
    [destruct (hasTypeDeclaration d _)|
     destruct (matchesJs d); [|destruct (isFileValid d _)]];
    rewrite ?store_importFulfilled, ?store_checkDependencies;
    cbn [store withStore]; split;
    repeat first [apply tasksWithin_importFulfilled
                 |apply tasksWithin_checkDependencies; [exact Hd|]
                 |apply tasksWithin_store];
    try exact Ha; try apply entriesOutsideKept_refl.
  - by apply (entriesOutsideKept_clear d (onManager (addTypeDeclaration d) (store a))).
  - by apply entriesOutsideKept_add.
  - eapply entriesOutsideKept_trans;
      [exact (entriesOutsideKept_add fileName d (store a) Hf)|].
    intros g Hg. cbn. rewrite lookup_insert_ne; [done|]. set_solver.
Qed.

Lemma runTask_within t a :
  taskWithin env U t -> tasksWithin env U a ->
  tasksWithin env U (runTask env resolver t a)
  /\ entriesOutsideKept U (store a) (store (runTask env resolver t a)).
Proof.
  intros Ht Ha. destruct t as [id fileName reads|id fileName dep|id outcome];
    cbn [runTask].
  - cbn in Ht. destruct reads.
    + destruct (fsReadFile env fileName) as [contents|].
      * destruct (updateFile fileName contents false (files (store a)))
          as [changed fs].
        rewrite store_checkDependenciesInternalAsync. split; [|by intros g].
        apply tasksWithin_checkDependenciesInternalAsync; [exact Ht|].
        exact (tasksWithin_store _ a Ha).
      * rewrite store_settle.
        split; [by apply tasksWithin_settle|apply entriesOutsideKept_refl].
    + rewrite store_checkDependenciesInternalAsync.
      split; [by apply tasksWithin_checkDependenciesInternalAsync|
              apply entriesOutsideKept_refl].
  - destruct Ht as [Hf [fs Hspec]].
    destruct (resolveAsync env resolver fileName dep).1 as [d|e] eqn:Hres.
    + apply processImportAsync_within; [exact Hf| |exact Ha].
      by apply (U_closed fs fileName dep d).
    + unfold importRejected. rewrite store_settle.
      split; [by apply tasksWithin_settle|apply entriesOutsideKept_refl].
  - destruct (activations a !! id) as [act|];
      [|split; [done|apply entriesOutsideKept_refl]].
    destruct (continuation act) as [|parent|parent d], outcome as [[]|e];
      unfold importRejected;
      rewrite ?store_importFulfilled, ?store_settle;
      cbn [store withStore]; split;
      try (by apply tasksWithin_importFulfilled);
      try (by apply tasksWithin_settle);
      try apply entriesOutsideKept_refl;
      try (intros t Hin; by apply Ha).
    by destruct (isResolutionError e); intros g.
Qed.

Lemma asyncRun_within schedule :
  forall a, tasksWithin env U a ->
    entriesOutsideKept U (store a) (store (asyncRun env resolver schedule a)).
Proof.
  induction schedule as [|pick schedule IH]; intros a Ha;
    [apply entriesOutsideKept_refl|].
  change (asyncRun env resolver (pick :: schedule) a)
    with (asyncRun env resolver schedule (asyncStep env resolver pick a)).
  unfold asyncStep.
  destruct (tasks a !! pick) as [t|] eqn:Hpick; [|by apply IH].
  set (a1 := {| store := store a; activations := activations a;
                tasks := take pick (tasks a) ++ drop (S pick) (tasks a);
                rootOutcome := rootOutcome a |}).
  destruct (runTask_within t a1) as [H1 H2].
  - apply Ha. by eapply list_elem_of_lookup_2.
  - intros t' Hin. apply Ha. cbn in Hin.
    apply elem_of_app in Hin as [Hin|Hin].
    + by apply subseteq_take in Hin.
    + by apply subseteq_drop in Hin.
  - eapply entriesOutsideKept_trans; [exact H2|by apply IH].
Qed.

End ReachAsync.

(** X27. A run of the concurrent mode that starts on a unit of a set
    that holds whatever the imports of its units resolve to changes the
    entry of no unit outside the set, whatever the schedule. *)
Theorem concurrent_run_touches_reachable_only env resolver (U : gset string)
    schedule fileName st
    (Hclosed : importsClosedAsync env resolver U)
    (Hroot : fileName ∈ U) :
  entriesOutsideKept U st
    (store (asyncRun env resolver schedule (startCheckDependencies fileName st))).
Proof.
  eapply entriesOutsideKept_trans;
    [|apply (asyncRun_within env resolver U Hclosed schedule
               (startCheckDependencies fileName st))].
  - intros g Hg. cbn. rewrite lookup_insert_ne; [done|]. set_solver.
  - apply tasksWithin_checkDependencies; [exact Hroot|].
    intros t Hin. inversion Hin.
Qed.

Lemma layeredTable_closed_async :
  importsClosedAsync (tableEnv layeredTable) (tableResolver layeredTable)
    layeredUnits.
Proof.
  intros fs fileName specifier p Hf Hspec Hres.
  apply elem_of_list_to_set. apply elem_of_list_to_set in Hf.
  repeat (apply elem_of_cons in Hf as [->|Hf]); try (by inversion Hf);
    vm_compute in Hspec;
    repeat (apply elem_of_cons in Hspec as [->|Hspec]); try (by inversion Hspec);
    vm_compute in Hres; injection Hres as <-;
    apply (bool_decide_unpack _); vm_compute; exact I.
Qed.

Lemma concurrent_run_touches_reachable_only_witness :
  entriesOutsideKept layeredUnits (loadedState layeredTable)
    (store (asyncRun (tableEnv layeredTable) (tableResolver layeredTable) (fifo 9)
              (startCheckDependencies "B.ts" (loadedState layeredTable)))).
Proof.
  apply concurrent_run_touches_reachable_only.
  - apply layeredTable_closed_async.
  - apply (bool_decide_unpack _). vm_compute. exact I.
Defined.

(** ** What [applyDeps] reports to the sink *)

Lemma addCalls_app x (l1 l2 : list DependencyCall) :
  addCalls x (l1 ++ l2) = addCalls x l1 + addCalls x l2.
Proof. unfold addCalls. by rewrite filter_app, length_app. Qed.

Lemma addCalls_names x (names : list string) :
  addCalls x (map CallAdd names) = occurrences x names.
Proof.
  unfold addCalls, occurrences. induction names as [|n names IH]; [reflexivity|].
  cbn [map]. rewrite !filter_cons.
  destruct (decide (n = x)) as [->|Hne].
  - rewrite decide_True by done. cbn. by rewrite IH.
  - rewrite decide_False by congruence. exact IH.
Qed.

(** The calls of a traversal are calls of [add] only. *)
Lemma applyDep_adds d (s : ChainState (list DependencyCall)) :
  exists names, chainDeps (applyDep d s) = chainDeps s ++ map CallAdd names.
Proof.
  unfold applyDep. case_bool_decide.
  - exists []. by rewrite app_nil_r.
  - by exists [d].
Qed.

Lemma enterChain_adds fileName (s : ChainState (list DependencyCall)) :
  exists names, chainDeps (enterChain fileName s) = chainDeps s ++ map CallAdd names.
Proof.
  unfold enterChain. case_bool_decide; cbn [chainDeps].
  - exists []. by rewrite app_nil_r.
  - rewrite declarations_log. eauto.
Qed.

Lemma applyEach_adds recur ds :
  (forall d (s s' : ChainState (list DependencyCall)),
     recur d s = Some s' ->
     exists names, chainDeps s' = chainDeps s ++ map CallAdd names) ->
  forall s s', applyEach recur ds s = Some s' ->
               exists names, chainDeps s' = chainDeps s ++ map CallAdd names.
Proof.
  intros Hrecur. induction ds as [|d ds IH]; intros s s' Hrun; cbn in Hrun.
  - injection Hrun as <-. exists []. by rewrite app_nil_r.
  - destruct (applyDep_adds d s) as [n1 H1].
    destruct (truthy (appliedChains (applyDep d s) !! d)).
    + destruct (IH _ _ Hrun) as [n2 H2]. exists (n1 ++ n2).
      by rewrite H2, H1, map_app, app_assoc.
    + destruct (recur d (applyDep d s)) as [s2|] eqn:Hcall; [|discriminate].
      destruct (Hrecur _ _ _ Hcall) as [n2 H2].
      destruct (IH _ _ Hrun) as [n3 H3]. exists (n1 ++ n2 ++ n3).
      by rewrite H3, H2, H1, !map_app, !app_assoc.
Qed.

Lemma applyChain_adds fuel :
  forall fileName (s s' : ChainState (list DependencyCall)),
    applyChain fuel fileName s = Some s' ->
    exists names, chainDeps s' = chainDeps s ++ map CallAdd names.
Proof.
  induction fuel as [|fuel IH]; intros fileName s s' Hrun; [discriminate|].
  rewrite applyChain_step in Hrun.
  destruct (enterChain_adds fileName s) as [n1 H1].
  destruct (applyEach_adds _ _ IH _ _ Hrun) as [n2 H2].
  exists (n1 ++ n2). rewrite H2. cbn [chainDeps withChainManager].
  by rewrite H1, map_app, app_assoc.
Qed.

Section ChainClosure.
Variable dm0 : DependencyManager.
Variable root : string.

Local Abbreviation CS := (ChainState (list DependencyCall)).

Lemma chainCounts_refl (s : CS) : chainCounts dm0 s s.
Proof. intros x. reflexivity. Qed.

Lemma chainCounts_trans (s1 s2 s3 : CS) :
  chainCounts dm0 s1 s2 -> chainCounts dm0 s2 s3 -> chainCounts dm0 s1 s3.
Proof. intros H1 H2 x. specialize (H1 x). specialize (H2 x). lia. Qed.

Lemma applyDep_counts d (s : CS) :
  chainCounts dm0 s (applyDep d s)
  /\ appliedChains (applyDep d s) = appliedChains s
  /\ chainManager (applyDep d s) = chainManager s.
Proof.
  unfold applyDep. case_bool_decide as Happlied;
    [split; [apply chainCounts_refl|done]|].
  split; [|done]. apply eq_None_not_Some in Happlied.
  assert (d ∉ dom (appliedDeps s)) as Hnew by (by apply not_elem_of_dom).
  intros x. cbn [chainDeps]. rewrite addCalls_add.
  unfold latched, appliedCount. cbn [appliedDeps appliedChains].
  rewrite dom_insert_L.
  destruct (decide (x = d)) as [->|Hne].
  - rewrite (decide_False (P := d ∈ dom (appliedDeps s))) by done.
    rewrite (decide_True (P := d ∈ {[d]} ∪ dom (appliedDeps s))) by set_solver. lia.
  - destruct (decide (x ∈ dom (appliedDeps s))).
    + rewrite (decide_True (P := x ∈ {[d]} ∪ dom (appliedDeps s))) by set_solver. lia.
    + rewrite (decide_False (P := x ∈ {[d]} ∪ dom (appliedDeps s))) by set_solver. lia.
Qed.

Lemma enterChain_counts fileName (s : CS) :
  sameGraph dm0 (chainManager s) ->
  latchSet s \/ (appliedChains s !! ".d.ts" = None /\ fileName <> ".d.ts") ->
  latchSet (enterChain fileName s)
  /\ chainCounts dm0 s (enterChain fileName s).
Proof.
  intros Hsame Hlatch. unfold enterChain, latchSet in *.
  set (dm1 := if hasDependencies fileName (chainManager s) then chainManager s
              else clearDependencies fileName (chainManager s)).
  assert (knownTypeDeclarations dm1 = knownTypeDeclarations dm0) as Hknown.
  { transitivity (knownTypeDeclarations (chainManager s)); [|apply Hsame].
    unfold dm1. by destruct (hasDependencies fileName (chainManager s)). }
  case_bool_decide as Htest.
  - assert (appliedChains s !! ".d.ts" = Some true) as Hset.
    { destruct Hlatch as [?|[Hnone Hne]]; [done|].
      rewrite lookup_insert_ne, Hnone in Htest by done. by destruct Htest. }
    split.
    + cbn. destruct (decide (fileName = ".d.ts")) as [->|Hne].
      * by rewrite lookup_insert_eq.
      * by rewrite lookup_insert_ne.
    + intros x. unfold latched, appliedCount. cbn. rewrite dom_insert_L.
      assert (".d.ts" ∈ dom (appliedChains s)) as Hin by (by apply elem_of_dom).
      rewrite (decide_True (P := ".d.ts" ∈ dom (appliedChains s))) by done.
      rewrite (decide_True (P := ".d.ts" ∈ {[fileName]} ∪ dom (appliedChains s)))
        by set_solver.
      reflexivity.
  - apply eq_None_not_Some in Htest.
    assert (fileName <> ".d.ts") as Hne
      by (intros ->; by rewrite lookup_insert_eq in Htest).
    rewrite lookup_insert_ne in Htest by done.
    split; [cbn; apply lookup_insert_eq|].
    intros x. unfold latched, appliedCount. cbn [chainDeps appliedDeps appliedChains].
    rewrite declarations_log, addCalls_app, addCalls_names, Hknown.
    rewrite !dom_insert_L.
    rewrite (decide_False (P := ".d.ts" ∈ dom (appliedChains s)))
      by (by apply not_elem_of_dom).
    rewrite (decide_True
               (P := ".d.ts" ∈ {[".d.ts"]} ∪ ({[fileName]} ∪ dom (appliedChains s))))
      by set_solver.
    lia.
Qed.

Lemma applyEach_counts recur (ds : list string) :
  (forall d (s1 s2 : CS),
     recur d s1 = Some s2 -> sameGraph dm0 (chainManager s1) ->
     latchSet s1 -> d <> ".d.ts" ->
     sameGraph dm0 (chainManager s2) /\ latchSet s2 /\ chainCounts dm0 s1 s2) ->
  forall s s' : CS,
    applyEach recur ds s = Some s' -> sameGraph dm0 (chainManager s) ->
    latchSet s ->
    sameGraph dm0 (chainManager s') /\ latchSet s' /\ chainCounts dm0 s s'.
Proof.
  intros Hrecur. induction ds as [|d ds IH]; intros s s' Hrun Hsame Hlatch;
    cbn [applyEach] in Hrun.
  - injection Hrun as <-. split; [done|]. split; [done|apply chainCounts_refl].
  - destruct (applyDep_counts d s) as (Hc1 & Hchains & Hdm).
    destruct (truthy (appliedChains (applyDep d s) !! d)) eqn:Hexpanded.
    + destruct (IH _ _ Hrun) as (Hs & Hl & Hc); [by rewrite Hdm|
        by unfold latchSet; rewrite Hchains|].
      split; [done|]. split; [done|by eapply chainCounts_trans].
    + destruct (recur d (applyDep d s)) as [s2|] eqn:Hcall; [|discriminate].
      destruct (Hrecur _ _ _ Hcall) as (Hs2 & Hl2 & Hc2);
        [by rewrite Hdm|by unfold latchSet; rewrite Hchains| |].
      { intros ->. rewrite Hchains in Hexpanded. unfold latchSet in Hlatch.
        by rewrite Hlatch in Hexpanded. }
      destruct (IH _ _ Hrun Hs2 Hl2) as (Hs & Hl & Hc).
      split; [done|]. split; [done|].
      eapply chainCounts_trans; [exact Hc1|by eapply chainCounts_trans].
Qed.

Lemma applyChain_counts fuel :
  forall fileName (s s' : CS),
    applyChain fuel fileName s = Some s' ->
    sameGraph dm0 (chainManager s) ->
    latchSet s \/ (appliedChains s !! ".d.ts" = None /\ fileName <> ".d.ts") ->
    sameGraph dm0 (chainManager s') /\ latchSet s' /\ chainCounts dm0 s s'.
Proof.
  induction fuel as [|fuel IH]; intros fileName s s' Hrun Hsame Hlatch;
    [discriminate|].
  rewrite applyChain_step in Hrun.
  destruct (enterChain_counts fileName s Hsame Hlatch) as [Hl1 Hc1].
  assert (sameGraph dm0 (chainManager (enterChain fileName s))) as Hsame1.
  { eapply sameGraph_trans; [exact Hsame|]. unfold enterChain.
    pose proof (proj2 (getDependencies_reads fileName (chainManager s))) as Hg.
    case_bool_decide; exact Hg. }
  set (s1 := enterChain fileName s) in *.
  pose proof (proj2 (getDependencies_reads fileName (chainManager s1))) as Hsame2.
  destruct (applyEach_counts (applyChain fuel)
              (getDependencies fileName (chainManager s1)).1)
    with (s := withChainManager (getDependencies fileName (chainManager s1)).2 s1)
         (s' := s')
    as (Hs & Hl & Hc); [|exact Hrun|by eapply sameGraph_trans|exact Hl1|].
  { intros d s2 s3 Hcall Hs2 Hl2 Hd. apply (IH d s2 s3 Hcall Hs2). by left. }
  split; [done|]. split; [done|].
  eapply chainCounts_trans; [exact Hc1|]. exact Hc.
Qed.

(** What is applied is reachable from the root, and is expanded once the
    traversal is back from it. *)
Lemma applyDep_reached d (s : CS) :
  dependencyPath dm0 root d ->
  chainReached dm0 root ∅ s -> chainReached dm0 root {[d]} (applyDep d s).
Proof.
  intros Hd (Hsame & Hreach & Hexp). unfold applyDep.
  case_bool_decide as Happlied.
  - split; [done|]. split; [done|]. intros e He.
    destruct (Hexp e He) as [?|?]; [by left|set_solver].
  - split; [done|]. split.
    + intros e. cbn. rewrite dom_insert_L, elem_of_union, elem_of_singleton.
      intros [->|He]; [done|by apply Hreach].
    + intros e. cbn. rewrite dom_insert_L, elem_of_union, elem_of_singleton.
      intros [->|He]; [right; set_solver|].
      destruct (Hexp e He) as [?|?]; [by left|set_solver].
Qed.

Lemma enterChain_reached fileName (s : CS) :
  chainReached dm0 root {[fileName]} s ->
  chainReached dm0 root ∅ (enterChain fileName s)
  /\ dom (appliedChains s) ⊆ dom (appliedChains (enterChain fileName s)).
Proof.
  intros (Hsame & Hreach & Hexp).
  assert (sameGraph dm0
            (if hasDependencies fileName (chainManager s) then chainManager s
             else clearDependencies fileName (chainManager s))) as Hsame1.
  { eapply sameGraph_trans; [exact Hsame|].
    exact (proj2 (getDependencies_reads fileName (chainManager s))). }
  unfold enterChain. case_bool_decide; (split; [split; [exact Hsame1|split]|]);
    cbn [appliedDeps appliedChains]; rewrite ?dom_insert_L;
    try exact Hreach; set_solver.
Qed.

Lemma applyEach_reached recur (ds : list string) :
  (forall d (s1 s2 : CS),
     recur d s1 = Some s2 -> dependencyPath dm0 root d ->
     chainReached dm0 root {[d]} s1 ->
     chainReached dm0 root ∅ s2
     /\ dom (appliedChains s1) ⊆ dom (appliedChains s2)) ->
  (forall d, d ∈ ds -> dependencyPath dm0 root d) ->
  forall s s' : CS,
    applyEach recur ds s = Some s' -> chainReached dm0 root ∅ s ->
    chainReached dm0 root ∅ s'
    /\ dom (appliedChains s) ⊆ dom (appliedChains s').
Proof.
  intros Hrecur. induction ds as [|d ds IH]; intros Hds s s' Hrun Hr;
    cbn [applyEach] in Hrun.
  - injection Hrun as <-. done.
  - assert (dependencyPath dm0 root d) as Hd by (apply Hds; left).
    assert (forall e, e ∈ ds -> dependencyPath dm0 root e) as Hrest
      by (intros; apply Hds; by right).
    pose proof (applyDep_reached d s Hd Hr) as Hr1.
    assert (appliedChains (applyDep d s) = appliedChains s) as Hchains
      by (unfold applyDep; by case_bool_decide).
    destruct (truthy (appliedChains (applyDep d s) !! d)) eqn:Hexpanded.
    + apply truthy_true_dom in Hexpanded.
      destruct (IH Hrest _ _ Hrun) as [Hr' Hsub]; [|by rewrite <- Hchains].
      destruct Hr1 as (Hsame1 & Hreach1 & Hexp1).
      split; [done|]. split; [done|]. intros e He.
      destruct (Hexp1 e He) as [?|Heq]; [by left|].
      apply elem_of_singleton in Heq as ->. by left.
    + destruct (recur d (applyDep d s)) as [s2|] eqn:Hcall; [|discriminate].
      destruct (Hrecur _ _ _ Hcall Hd Hr1) as [Hr2 Hsub2].
      destruct (IH Hrest _ _ Hrun Hr2) as [Hr' Hsub'].
      split; [done|]. rewrite <- Hchains. set_solver.
Qed.

Lemma applyChain_reached fuel :
  forall fileName (s s' : CS),
    applyChain fuel fileName s = Some s' ->
    fileName = root \/ dependencyPath dm0 root fileName ->
    chainReached dm0 root {[fileName]} s ->
    chainReached dm0 root ∅ s'
    /\ dom (appliedChains s) ⊆ dom (appliedChains s').
Proof.
  induction fuel as [|fuel IH]; intros fileName s s' Hrun Hfrom Hr;
    [discriminate|].
  rewrite applyChain_step in Hrun.
  destruct (enterChain_reached fileName s Hr) as [Hr1 Hsub1].
  set (s1 := enterChain fileName s) in *.
  destruct (getDependencies_reads fileName (chainManager s1)) as [Hdeps Hsame2].
  destruct (applyEach_reached (applyChain fuel)
              (getDependencies fileName (chainManager s1)).1)
    with (s := withChainManager (getDependencies fileName (chainManager s1)).2 s1)
         (s' := s')
    as [Hr' Hsub']; [| |exact Hrun| |].
  - intros d s2 s3 Hcall Hd Hr2. apply (IH d s2 s3 Hcall); [by right|exact Hr2].
  - intros d. rewrite Hdeps. destruct Hr1 as ((Hg & _) & _). rewrite Hg.
    intros Hd. destruct Hfrom as [->|Hpath].
    + by apply tc_once.
    + eapply tc_r; [exact Hpath|exact Hd].
  - destruct Hr1 as (Hsame1 & Hreach1 & Hexp1).
    split; [by eapply sameGraph_trans|]. split; [exact Hreach1|exact Hexp1].
  - split; [exact Hr'|]. cbn in Hsub'. set_solver.
Qed.

End ChainClosure.

Lemma closure_applied dm (s : ChainState (list DependencyCall)) :
  ".d.ts" ∉ targets dm ->
  expandedClosed dm ∅ s ->
  (forall d, d ∈ dom (appliedDeps s) -> d ∈ dom (appliedChains s)) ->
  forall y x, dependencyPath dm y x ->
              y ∈ dom (appliedChains s) -> y <> ".d.ts" ->
              x ∈ dom (appliedDeps s).
Proof.
  intros Hlatch Hclosed Hexp y x Hpath.
  induction Hpath as [y x Hedge|y z x Hedge Hpath IH]; intros Hy Hne.
  - by apply (Hclosed y x).
  - assert (z ∈ dom (appliedDeps s)) as Hz by (by apply (Hclosed y z)).
    apply IH; [by apply Hexp|]. intros ->. apply Hlatch.
    by apply (elem_of_targets dm y).
Qed.

(** X9. [applyDeps] on a unit other than [".d.ts"], in a graph in which
    [".d.ts"] is the dependency of no unit, returns for any fuel beyond the
    number of units.  It calls [clear], [add] with the unit, and then [add]
    only: once for every occurrence of a unit in the registry and once for
    every unit that a dependency path leads to from the unit, and for
    nothing else.  It leaves the unit store and the graph as they are. *)
Theorem applyDeps_reports_closure fuel fileName (log : list DependencyCall) st
    (Hroot : fileName <> ".d.ts")
    (Hlatch : ".d.ts" ∉ targets (depManager st))
    (Hfuel : size (targets (depManager st) ∪ {[fileName]}) <= fuel) :
  exists names st',
    applyDeps fuel fileName log st
    = Some (log ++ CallClear :: CallAdd fileName :: map CallAdd names, st')
    /\ files st' = files st
    /\ sameGraph (depManager st) (depManager st')
    /\ forall x,
         (dependencyPath (depManager st) fileName x ->
          occurrences x names
          = occurrences x (knownTypeDeclarations (depManager st)) + 1)
         /\ (~ dependencyPath (depManager st) fileName x ->
             occurrences x names
             = occurrences x (knownTypeDeclarations (depManager st))).
Proof.
  set (dm := depManager st) in *.
  set (s0 := {| chainManager := dm; chainDeps := add fileName (clear log);
                appliedChains := ∅; appliedDeps := ∅ |}).
  destruct (applyChain_inv dm fileName fuel ∅ fileName s0)
    as (s' & Hrun & (Hsame & _ & Hclosed) & _ & Hentered & _).
  { split; [apply sameGraph_refl|]. split.
    - intros x v. cbn. rewrite lookup_empty. discriminate.
    - intros x d. cbn. rewrite dom_empty_L. set_solver. }
  { set_solver. }
  { cbn. rewrite dom_empty_L. set_solver. }
  { cbn. rewrite dom_empty_L, difference_empty_L. exact Hfuel. }
  destruct (applyChain_counts dm fuel fileName s0 s' Hrun)
    as (_ & Hset & Hcount); [apply sameGraph_refl|right; by split|].
  destruct (applyChain_reached dm fileName fuel fileName s0 s' Hrun)
    as ((_ & Hreach & Hexp) & _); [by left| |].
  { split; [apply sameGraph_refl|].
    split; intros d; cbn; rewrite dom_empty_L; set_solver. }
  destruct (applyChain_adds fuel fileName s0 s' Hrun) as [names Hnames].
  exists names, (withDepManager (chainManager s') st).
  unfold applyDeps. fold dm s0. rewrite Hrun, Hnames. cbn [chainDeps s0].
  split; [cbn; by rewrite <- !app_assoc|]. split; [reflexivity|].
  split; [exact Hsame|].
  assert (forall x, occurrences x names
                    = appliedCount x s' + occurrences x (knownTypeDeclarations dm))
    as Htotal.
  { assert (latched s0 = 0) as Hl0 by reflexivity.
    assert (latched s' = 1) as Hl1.
    { unfold latched. rewrite decide_True; [done|]. apply elem_of_dom.
      by rewrite Hset. }
    intros x. specialize (Hcount x).
    assert (appliedCount x s0 = 0) as Ha0 by reflexivity.
    rewrite Hnames, addCalls_app, addCalls_names, Hl0, Hl1, Ha0 in Hcount. lia. }
  intros x. rewrite Htotal. unfold appliedCount. split.
  - intros Hpath. rewrite decide_True; [lia|].
    apply (closure_applied dm s' Hlatch Hclosed) with (y := fileName); try done.
    intros d Hd. destruct (Hexp d Hd) as [?|?]; [done|set_solver].
  - intros Hno. rewrite decide_False; [lia|]. intros Hx. by apply Hno, Hreach.
Qed.

Lemma applyDeps_reports_closure_witness :
  let st := {| files := []; depManager := diamondGraph;
               validFiles := {| validFlags := ∅ |}; runtimeRead := true |} in
  exists names st',
    applyDeps 5 "A.ts" [] st
    = Some ([] ++ CallClear :: CallAdd "A.ts" :: map CallAdd names, st')
    /\ files st' = files st
    /\ sameGraph (depManager st) (depManager st')
    /\ forall x,
         (dependencyPath (depManager st) "A.ts" x ->
          occurrences x names
          = occurrences x (knownTypeDeclarations (depManager st)) + 1)
         /\ (~ dependencyPath (depManager st) "A.ts" x ->
             occurrences x names
             = occurrences x (knownTypeDeclarations (depManager st))).
Proof.
  intros st. apply applyDeps_reports_closure.
  - discriminate.
  - apply (bool_decide_unpack _). vm_compute. exact I.
  - vm_compute. lia.
Defined.

(** ** Any sink *)

Section Replay.
Context {D : Type} `{Dependency D}.
Variable depsManager0 : D.

Lemma replay_app (l1 l2 : list DependencyCall) (d : D) :
  replay (l1 ++ l2) d = replay l2 (replay l1 d).
Proof. unfold replay. apply fold_left_app. Qed.

Lemma replay_declarations (known : list string) (d : D) :
  replay (map CallAdd known) d
  = fold_left (fun d declFileName => add declFileName d) known d.
Proof.
  revert d. induction known as [|k known IH]; intros d; [reflexivity|].
  cbn. apply IH.
Qed.

Lemma applyDep_replay x s sl :
  sameTraversal depsManager0 s sl ->
  sameTraversal depsManager0 (applyDep x s) (applyDep x sl).
Proof.
  intros (Hm & Hc & Ha & Hd). unfold applyDep. rewrite Ha.
  case_bool_decide; [done|]. repeat split; try done. cbn [chainDeps].
  change (add x (chainDeps sl)) with (chainDeps sl ++ [CallAdd x]).
  by rewrite replay_app, <- Hd.
Qed.

Lemma enterChain_replay fileName s sl :
  sameTraversal depsManager0 s sl ->
  sameTraversal depsManager0 (enterChain fileName s) (enterChain fileName sl).
Proof.
  intros (Hm & Hc & Ha & Hd). unfold enterChain. rewrite Hm, Hc.
  case_bool_decide; repeat split; try done. cbn [chainDeps].
  by rewrite declarations_log, replay_app, replay_declarations, Hd.
Qed.

Lemma applyEach_replay recur recurl ds :
  (forall x s sl, sameTraversal depsManager0 s sl ->
                  bothReturn (sameTraversal depsManager0) (recur x s) (recurl x sl)) ->
  forall s sl,
    sameTraversal depsManager0 s sl ->
    bothReturn (sameTraversal depsManager0)
      (applyEach recur ds s) (applyEach recurl ds sl).
Proof.
  intros Hrecur. induction ds as [|x ds IH]; intros s sl Hsim; cbn [applyEach].
  - exact Hsim.
  - pose proof (applyDep_replay x s sl Hsim) as Hsim1.
    rewrite (proj1 (proj2 Hsim1)).
    destruct (truthy (appliedChains (applyDep x sl) !! x)).
    + by apply IH.
    + specialize (Hrecur x _ _ Hsim1).
      destruct (recur x (applyDep x s)) as [s2|],
               (recurl x (applyDep x sl)) as [sl2|]; try done.
      by apply IH.
Qed.

Lemma applyChain_replay fuel :
  forall fileName s sl,
    sameTraversal depsManager0 s sl ->
    bothReturn (sameTraversal depsManager0)
      (applyChain fuel fileName s) (applyChain fuel fileName sl).
Proof.
  induction fuel as [|fuel IH]; intros fileName s sl Hsim; [done|].
  rewrite !applyChain_step.
  pose proof (enterChain_replay fileName s sl Hsim) as Hsim1.
  rewrite (proj1 Hsim1).
  apply applyEach_replay; [intros x s2 sl2; apply IH|].
  destruct Hsim1 as (Hm & Hc & Ha & Hd). by repeat split.
Qed.

Lemma applyDeps_replay fuel fileName st :
  applyDeps fuel fileName depsManager0 st
  = (fun '(log, st') => (replay log depsManager0, st'))
      <$> applyDeps fuel fileName [] st.
Proof.
  unfold applyDeps.
  pose proof (applyChain_replay fuel fileName
                {| chainManager := depManager st;
                   chainDeps := add fileName (clear depsManager0);
                   appliedChains := ∅; appliedDeps := ∅ |}
                {| chainManager := depManager st;
                   chainDeps := add fileName (clear []);
                   appliedChains := ∅; appliedDeps := ∅ |}) as Hsim.
  destruct (applyChain fuel fileName _) as [s|],
           (applyChain fuel fileName _) as [sl|]; cbn in *.
  - destruct Hsim as (Hm & _ & _ & Hd); [by repeat split|]. by rewrite Hm, Hd.
  - by destruct Hsim.
  - by destruct Hsim.
  - reflexivity.
Qed.

End Replay.

(** X26. Whatever sink implements [Dependency], [applyDeps], [emitSync]
    and [emitAsync] do to the store and return what they do with the sink
    that records, and they leave the sink as the recorded calls, made in
    their order, leave it. *)
Theorem sink_replays_log {D} `{Dependency D} env fuel fileName (depsManager : D) st :
  applyDeps fuel fileName depsManager st
  = (fun '(log, st') => (replay log depsManager, st'))
      <$> applyDeps fuel fileName [] st
  /\ (forall resolver,
        emitSync env fuel resolver fileName depsManager st
        = (fun '(r, st', log) => (r, st', replay log depsManager))
            <$> emitSync env fuel resolver fileName [] st)
  /\ (forall resolver schedule,
        emitAsync env fuel resolver schedule fileName depsManager st
        = (fun '(r, st', log) => (r, st', replay log depsManager))
            <$> emitAsync env fuel resolver schedule fileName [] st).
Proof.
  split; [apply applyDeps_replay|]. split.
  - intros resolver. unfold emitSync.
    destruct (checkDependenciesSync _ _ _ _ _) as [[[deps|e] st2]|];
      [|reflexivity..].
    rewrite (applyDeps_replay depsManager).
    by destruct (applyDeps fuel fileName [] st2) as [[log st3]|].
  - intros resolver schedule. unfold emitAsync.
    destruct (rootOutcome _) as [outcome|]; [|reflexivity].
    rewrite (applyDeps_replay depsManager).
    by destruct (applyDeps fuel fileName [] _) as [[log st3]|].
Qed.

(** ** Completeness of the recompile-reason finder *)

Lemma followsEdges_app dm x l1 y l2 :
  followsEdges dm x (l1 ++ y :: l2) ->
  followsEdges dm x (l1 ++ [y]) /\ followsEdges dm y l2.
Proof.
  revert x. induction l1 as [|z l1 IH]; intros x; cbn.
  - tauto.
  - intros [Hedge Hrest]. destruct (IH _ Hrest). tauto.
Qed.

Lemma path_followsEdges dm x c :
  dependencyPath dm x c -> exists l, followsEdges dm x (l ++ [c]).
Proof.
  induction 1 as [x c Hedge|x y c Hedge _ [l IH]].
  - exists []. cbn. done.
  - exists (y :: l). cbn. done.
Qed.

(** A path can be cut down to one that visits no unit twice and does not
    come back to its start. *)
Lemma simple_path dm c l :
  forall x, followsEdges dm x (l ++ [c]) ->
    exists l', followsEdges dm x (l' ++ [c]) /\ NoDup l' /\ x ∉ l'.
Proof.
  induction l as [|y l IH]; intros x Hpath.
  - exists []. split; [done|]. split; [constructor|set_solver].
  - destruct Hpath as [Hedge Hrest].
    destruct (IH y Hrest) as (l1 & Hl1 & Hnd & Hy).
    destruct (decide (x = y)) as [->|Hne]; [by exists l1|].
    destruct (decide (x ∈ l1)) as [Hx|Hx].
    + apply list_elem_of_split in Hx as (l2 & l3 & ->).
      rewrite <- app_assoc in Hl1. cbn in Hl1.
      apply followsEdges_app in Hl1 as [_ Hl3].
      apply NoDup_app in Hnd as (_ & _ & Hnd).
      apply NoDup_cons in Hnd as [Hx Hnd]. by exists l3.
    + exists (y :: l1). split; [by split|]. split; [by constructor|].
      set_solver.
Qed.

Section ReasonComplete.
Variable dm0 : DependencyManager.
Variable changedFilesSet : gmap string bool.

(** The loop returns a reason as soon as one of the dependencies is changed,
    or is not on the current path and has a reason itself. *)
Lemma reasonLoop_finds recur current ds y :
  y ∈ ds ->
  (forall d dm1 r1 dm1', recur d dm1 = Some (r1, dm1') -> sameGraph dm0 dm1 ->
                         sameGraph dm0 dm1') ->
  is_Some (changedFilesSet !! y)
  \/ (current !! y = None
      /\ forall dm1 r1 dm1', sameGraph dm0 dm1 -> recur y dm1 = Some (r1, dm1') ->
                             r1 <> []) ->
  forall dm r dm',
    sameGraph dm0 dm ->
    reasonLoop recur changedFilesSet current ds dm = Some (r, dm') -> r <> [].
Proof.
  intros Hy Hrecur Hfinds. induction ds as [|d ds IH]; [inversion Hy|].
  intros dm r dm' Hsame Hloop. cbn in Hloop.
  case_bool_decide as Hchanged; [by injection Hloop as <- _|].
  assert (d = y -> current !! d = None
                   /\ forall dm1 r1 dm1', sameGraph dm0 dm1 ->
                        recur d dm1 = Some (r1, dm1') -> r1 <> []) as Hhere.
  { intros ->. by destruct Hfinds. }
  assert (d <> y -> y ∈ ds) as Hlater.
  { intros Hne. apply elem_of_cons in Hy as [->|?]; done. }
  case_bool_decide as Hvisited.
  - destruct (decide (d = y)) as [Heq|Hne].
    + destruct (Hhere Heq) as [Hnone _]. rewrite Hnone in Hvisited.
      by destruct Hvisited.
    + exact (IH (Hlater Hne) dm r dm' Hsame Hloop).
  - destruct (recur d dm) as [[r1 dm1]|] eqn:Hcall; [|discriminate].
    pose proof (Hrecur _ _ _ _ Hcall Hsame) as Hsame1.
    destruct r1 as [|z r1]; [|by injection Hloop as <- _].
    destruct (decide (d = y)) as [Heq|Hne].
    + destruct (Hhere Heq) as [_ Hnonempty]. by destruct (Hnonempty _ _ _ Hsame Hcall).
    + exact (IH (Hlater Hne) dm1 r dm' Hsame1 Hloop).
Qed.

Lemma recompileReasonInternal_finds c (l : list string) :
  is_Some (changedFilesSet !! c) ->
  forall fileName visited fuel dm r dm',
    followsEdges dm0 fileName (l ++ [c]) -> NoDup l -> fileName ∉ l ->
    (forall y, y ∈ l -> visited !! y = None) ->
    sameGraph dm0 dm ->
    recompileReasonInternal fuel fileName changedFilesSet visited dm = Some (r, dm') ->
    r <> [].
Proof.
  intros Hc. induction l as [|y l IH];
    intros fileName visited fuel dm r dm' Hpath Hnd Hroot Hfresh Hsame Hrun;
    (destruct fuel as [|fuel]; [discriminate|]);
    rewrite recompileReasonInternal_step in Hrun;
    destruct (getDependencies_reads fileName dm) as [Hdeps Hsame1];
    destruct Hpath as [Hedge Hrest];
    (eapply reasonLoop_finds; [| | |eapply sameGraph_trans; eassumption|exact Hrun]).
  - rewrite Hdeps, (proj1 Hsame). exact Hedge.
  - intros d dm1 r1 dm1' Hcall Hs.
    by destruct (recompileReasonInternal_sound dm0 _ _ _ _ _ _ _ Hs Hcall).
  - by left.
  - rewrite Hdeps, (proj1 Hsame). exact Hedge.
  - intros d dm1 r1 dm1' Hcall Hs.
    by destruct (recompileReasonInternal_sound dm0 _ _ _ _ _ _ _ Hs Hcall).
  - right. split.
    + rewrite lookup_insert_ne by set_solver. apply Hfresh. by left.
    + intros dm1 r1 dm1' Hs Hcall. apply NoDup_cons in Hnd as [Hy Hnd].
      apply (IH y (<[fileName := true]> visited) fuel dm1 r1 dm1'); try done.
      intros z Hz. rewrite lookup_insert_ne by set_solver. apply Hfresh. by right.
Qed.

Lemma reasonLoop_ends recur current ds dm r dm' :
  (forall d dm1 r1 dm1', recur d dm1 = Some (r1, dm1') ->
                         endsAtFirstChange changedFilesSet r1) ->
  reasonLoop recur changedFilesSet current ds dm = Some (r, dm') ->
  endsAtFirstChange changedFilesSet r.
Proof.
  intros Hrecur. revert dm. induction ds as [|d ds IH]; intros dm Hloop;
    cbn in Hloop.
  - injection Hloop as <- _. intros [|? ?] c [=].
  - case_bool_decide as Hchanged.
    { injection Hloop as <- _. intros [|? [|? ?]] c [=]. intros y Hy. inversion Hy. }
    apply eq_None_not_Some in Hchanged.
    case_bool_decide as Hvisited; [by apply (IH dm)|].
    destruct (recur d dm) as [[r1 dm1]|] eqn:Hcall; [|discriminate].
    pose proof (Hrecur _ _ _ _ Hcall) as Hr1.
    destruct r1 as [|z r1]; [by apply (IH dm1)|].
    injection Hloop as <- _. intros l c Heq y Hy.
    destruct l as [|d' l]; [by destruct r1|].
    injection Heq as <- Heq. apply elem_of_cons in Hy as [->|Hy]; [done|].
    by apply (Hr1 l c).
Qed.

Lemma recompileReasonInternal_ends fuel :
  forall fileName visited dm r dm',
    recompileReasonInternal fuel fileName changedFilesSet visited dm = Some (r, dm') ->
    endsAtFirstChange changedFilesSet r.
Proof.
  induction fuel as [|fuel IH]; intros fileName visited dm r dm' Hrun;
    [discriminate|].
  rewrite recompileReasonInternal_step in Hrun.
  eapply reasonLoop_ends; [|exact Hrun].
  intros d dm1 r1 dm1'. apply IH.
Qed.

End ReasonComplete.

(** X10. When a dependency path leads from a unit to a changed unit,
    [recompileReason] returns, for any fuel beyond the number of units, a
    non-empty sequence: it follows the edges of the graph from the unit, its
    last unit is a changed one and no other unit of it is; the graph is
    left as it is. *)
Theorem recompileReason_finds_changed dm changedFiles fileName fuel c
    (Hfuel : size (targets dm) < fuel)
    (Hchanged : c ∈ changedFiles)
    (Hpath : dependencyPath dm fileName c) :
  exists l c' dm',
    recompileReason fuel fileName changedFiles dm = Some (l ++ [c'], dm')
    /\ sameGraph dm dm'
    /\ followsEdges dm fileName (l ++ [c'])
    /\ c' ∈ changedFiles
    /\ forall y, y ∈ l -> y ∉ changedFiles.
Proof.
  unfold recompileReason.
  destruct (recompileReasonInternal_returns dm (toFileSet changedFiles) fuel
              fileName ∅ dm (sameGraph_refl dm)) as (r & dm' & Hrun).
  { assert (targets dm ∖ dom (<[fileName := true]> (∅ : gmap string bool))
            ⊆ targets dm) as Hsub by set_solver.
    apply subseteq_size in Hsub. lia. }
  destruct (recompileReasonInternal_sound dm _ _ _ _ _ _ _
              (sameGraph_refl dm) Hrun) as [Hr Hsame].
  pose proof (recompileReasonInternal_ends _ _ _ _ _ _ _ Hrun) as Hends.
  apply path_followsEdges in Hpath as [l0 Hl0].
  apply simple_path in Hl0 as (l1 & Hl1 & Hnd & Hroot).
  assert (r <> []) as Hfound.
  { eapply (recompileReasonInternal_finds dm (toFileSet changedFiles) c l1);
      [by apply toFileSet_lookup|exact Hl1|exact Hnd|exact Hroot| |
       apply sameGraph_refl|exact Hrun].
    intros y _. apply lookup_empty. }
  destruct Hr as [->|(Hfollow & c' & Hlast & Hc')]; [done|].
  apply last_Some in Hlast as [l ->].
  exists l, c', dm'. split; [exact Hrun|]. split; [exact Hsame|].
  split; [exact Hfollow|]. split; [by apply toFileSet_lookup|].
  intros y Hy Hin. apply toFileSet_lookup in Hin.
  rewrite (Hends l c' eq_refl y Hy) in Hin. by destruct Hin.
Qed.

Lemma recompileReason_finds_changed_witness :
  exists l c' dm',
    recompileReason 5 "A.ts" ["D.ts"] diamondGraph = Some (l ++ [c'], dm')
    /\ sameGraph diamondGraph dm'
    /\ followsEdges diamondGraph "A.ts" (l ++ [c'])
    /\ c' ∈ ["D.ts"]
    /\ forall y, y ∈ l -> y ∉ ["D.ts"].
Proof.
  apply (recompileReason_finds_changed diamondGraph ["D.ts"] "A.ts" 5 "D.ts").
  - vm_compute. lia.
  - set_solver.
  - apply tc_l with "B.ts"; [|apply tc_once];
      unfold edge; apply (bool_decide_unpack _); vm_compute; exact I.
Defined.

(** ** The two resolution functions *)

(** X11. With a resolver whose failures are all operational errors,
    [resolveAsync] and [resolveSync] make the same calls of the resolver and
    end in the same way. *)
Theorem resolve_modes_agree env resolver fileName defPath
    (Hoperational : failsOperationally resolver) :
  resolveAsync env resolver fileName defPath
  = resolveSync env resolver fileName defPath.
Proof.
  unfold resolveAsync, resolveSync, callResolver, promiseError, catchAll.
  destruct (hasNoExtension defPath); [|destruct (matchesDts defPath); [done|]].
  - destruct (resolver _ (defPath +:+ ".ts")) as [p|e1] eqn:E1; [done|].
    rewrite (Hoperational _ _ _ E1).
    destruct (resolver _ (defPath +:+ ".d.ts")) as [p|e2] eqn:E2; [done|].
    cbn. rewrite (Hoperational _ _ _ E2).
    destruct (resolver _ defPath) as [p|e3] eqn:E3; [done|].
    cbn. by rewrite (Hoperational _ _ _ E3).
  - destruct (resolver _ defPath) as [p|e3] eqn:E3; [done|].
    by rewrite (Hoperational _ _ _ E3).
Qed.

Lemma tableResolver_failsOperationally table :
  failsOperationally (tableResolver table).
Proof.
  intros base dep e. unfold tableResolver. case_bool_decide; [discriminate|].
  by intros [= <-].
Qed.

Lemma resolve_modes_agree_witness :
  resolveAsync (tableEnv brokenTable) (tableResolver brokenTable) "main.ts" "missing"
  = resolveSync (tableEnv brokenTable) (tableResolver brokenTable) "main.ts" "missing".
Proof.
  apply resolve_modes_agree. apply tableResolver_failsOperationally.
Defined.

(** X12. What the resolution functions fail with.  [resolveSync] throws
    a [ResolutionError] only: it carries the importing unit and, as its
    cause, the failure of the last call of the resolver.  [resolveAsync]
    does the same for an operational failure of the resolver, and passes any
    other failure on as it is. *)
Theorem resolve_failures env resolver fileName defPath e :
  ((resolveSync env resolver fileName defPath).1 = Throw e ->
   exists cause,
     lastAttemptFailed resolver (resolveSync env resolver fileName defPath).2 cause
     /\ e = detailedError cause fileName)
  /\ ((resolveAsync env resolver fileName defPath).1 = Throw e ->
      exists cause,
        lastAttemptFailed resolver (resolveAsync env resolver fileName defPath).2 cause
        /\ e = if isOperational cause then detailedError cause fileName else cause).
Proof.
  unfold resolveAsync, resolveSync, callResolver, promiseError, catchAll,
    lastAttemptFailed.
  split.
  - destruct (hasNoExtension defPath); [|destruct (matchesDts defPath); [done|]].
    + destruct (resolver _ (defPath +:+ ".ts")) as [p|e1] eqn:E1; [done|].
      destruct (resolver _ (defPath +:+ ".d.ts")) as [p|e2] eqn:E2; [done|].
      destruct (resolver _ defPath) as [p|e3] eqn:E3; [done|].
      cbn. intros [= <-]. eauto 6.
    + destruct (resolver _ defPath) as [p|e3] eqn:E3; [done|].
      cbn. intros [= <-]. eauto 6.
  - destruct (hasNoExtension defPath); [|destruct (matchesDts defPath); [done|]].
    + destruct (resolver _ (defPath +:+ ".ts")) as [p|e1] eqn:E1; [done|].
      destruct (isOperational e1) eqn:O1.
      * destruct (resolver _ (defPath +:+ ".d.ts")) as [p|e2] eqn:E2; [done|].
        cbn. destruct (isOperational e2) eqn:O2.
        -- destruct (resolver _ defPath) as [p|e3] eqn:E3; [done|].
           cbn. destruct (isOperational e3) eqn:O3; cbn; intros [= <-];
             exists e3; rewrite O3; eauto 6.
        -- repeat (cbn; rewrite ?O2). intros [= <-]. exists e2. rewrite O2.
           eauto 6.
      * repeat (cbn; rewrite ?O1). intros [= <-]. exists e1. rewrite O1. eauto 6.
    + destruct (resolver _ defPath) as [p|e3] eqn:E3; [done|].
      destruct (isOperational e3) eqn:O3; cbn; intros [= <-];
        exists e3; rewrite O3; eauto 6.
Qed.

Lemma resolve_failures_witness :
  let e := detailedError (ResolverError true "Cannot resolve missing") "main.ts" in
  exists cause,
    lastAttemptFailed (tableResolver brokenTable)
      (resolveSync (tableEnv brokenTable) (tableResolver brokenTable)
         "main.ts" "missing").2 cause
    /\ e = detailedError cause "main.ts".
Proof.
  intros e.
  exact (proj1 (resolve_failures (tableEnv brokenTable) (tableResolver brokenTable)
                  "main.ts" "missing" e) eq_refl).
Defined.

(** ** The import extractor *)

Lemma Node_induction (P : Node -> Prop) :
  (forall node, Forall P (childrenOf node) -> P node) -> forall node, P node.
Proof.
  intros Hnode. fix IH 1. intros node. apply Hnode.
  destruct node as [ref children|fileName refs children|children]; cbn;
    (induction children as [|c cs IHcs]; constructor; [apply IH|apply IHcs]).
Qed.

Lemma visit_unfold env node acc :
  visit env node acc
  = fold_left (fun r child => visit env child r) (childrenOf node)
      (acc ++ ownImports env node).
Proof.
  destruct node as [[t|] children|fileName refs children|children]; cbn;
    rewrite ?app_nil_r; reflexivity.
Qed.

Lemma visit_children env (children : list Node) :
  Forall (fun child => forall acc,
            visit env child acc = acc ++ importsBelow env child) children ->
  forall acc,
    fold_left (fun r child => visit env child r) children acc
    = acc ++ concat (map (importsBelow env) children).
Proof.
  induction 1 as [|c cs Hc _ IH]; intros acc; cbn.
  - by rewrite app_nil_r.
  - by rewrite IH, Hc, app_assoc.
Qed.

Lemma visit_accumulates env :
  forall node acc, visit env node acc = acc ++ importsBelow env node.
Proof.
  induction node as [node IH] using Node_induction. intros acc.
  unfold importsBelow. rewrite !visit_unfold, !visit_children by exact IH.
  by rewrite app_nil_l, app_assoc.
Qed.

(** X13. [findImportDeclarations] lists the imports of the syntax tree of
    the unit in pre-order: what a node contributes itself (the specifier of
    an external import, the resolved references of a source file) comes
    before what its children contribute, and the children come in their
    order; [visit] only appends to what was found before. *)
Theorem findImportDeclarations_preorder env fileName st :
  (forall node,
     importsBelow env node
     = ownImports env node ++ concat (map (importsBelow env) (childrenOf node)))
  /\ findImportDeclarations env fileName st
     = importsBelow env (getSourceFile env (files st) fileName)
  /\ (forall node acc, visit env node acc = acc ++ importsBelow env node).
Proof.
  split; [|split; [reflexivity|apply visit_accumulates]].
  intros node. unfold importsBelow at 1.
  rewrite visit_unfold, visit_children.
  - reflexivity.
  - apply Forall_forall. intros child _. apply visit_accumulates.
Qed.

(** ** What the language service sees through [Host] *)

Lemma substring_all s : String.substring 0 (String.length s) s = s.
Proof. induction s as [|c s IH]; cbn; [reflexivity|by rewrite IH]. Qed.

Lemma jsSubstring_all s : jsSubstring s 0 (String.length s) = s.
Proof.
  unfold jsSubstring. rewrite Nat.min_id, Nat.min_0_l, Nat.max_0_l, Nat.sub_0_r.
  cbn [Nat.min]. apply substring_all.
Qed.

(** X14. After [updateFile] the snapshot of the unit holds the new text,
    the snapshots and versions of the other units are what they were, and
    the unit is listed once, a new unit last.  Without [checked] the version
    string of a loaded unit differs from the one before; a unit that was not
    in the store is stored as [addFile] stores it, at version ["0"]. *)
Theorem host_sees_update fileName newText checked st :
  let st' := withFiles (updateFile fileName newText checked (files st)).2 st in
  (exists snapshot,
     getScriptSnapshot fileName st' = Some snapshot
     /\ getText snapshot 0 (getLength snapshot) = newText)
  /\ (forall other, other <> fileName ->
        getScriptSnapshot other st' = getScriptSnapshot other st
        /\ getScriptVersion other st' = getScriptVersion other st)
  /\ (getScriptFileNames st'
      = if decide (fileName ∈ getScriptFileNames st) then getScriptFileNames st
        else getScriptFileNames st ++ [fileName])
  /\ (checked = false -> fileName ∈ getScriptFileNames st ->
      getScriptVersion fileName st' <> getScriptVersion fileName st)
  /\ (fileName ∉ getScriptFileNames st ->
      getScriptVersion fileName st' = Some "0"
      /\ (updateFile fileName newText checked (files st)).2
         = addFile fileName newText (files st)).
Proof.
  intros st'. subst st'. unfold getScriptSnapshot, getScriptVersion,
    getScriptFileNames. cbn [files withFiles].
  split; [|split; [|split; [|split]]].
  - destruct (updateFile_stored fileName newText checked (files st)) as [v ->].
    eexists. split; [reflexivity|]. cbn. apply jsSubstring_all.
  - intros other Hne. unfold updateFile.
    destruct (filesGet fileName (files st)) as [prev|];
      [destruct (negb checked || checked && negb (newText =? text prev)%string)|];
      cbn; by rewrite filesGet_filesSet_ne.
  - unfold updateFile.
    destruct (filesGet fileName (files st)) as [prev|] eqn:Hprev;
      [destruct (negb checked || checked && negb (newText =? text prev)%string)|];
      cbn; rewrite filesKeys_filesSet, Hprev.
    + rewrite decide_True; [done|]. apply filesGet_is_Some. eauto.
    + rewrite decide_True; [done|]. apply filesGet_is_Some. eauto.
    + rewrite decide_False; [done|]. rewrite <- filesGet_is_Some, Hprev.
      by intros [? ?].
  - intros -> Hloaded. apply filesGet_is_Some in Hloaded as [prev Hprev].
    rewrite (updateFile_unchecked _ _ _ _ Hprev). cbn.
    rewrite filesGet_filesSet_eq, Hprev. cbn. intros [= Heq].
    apply (inj pretty) in Heq. lia.
  - intros Hnew. rewrite <- filesGet_is_Some in Hnew.
    apply eq_None_not_Some in Hnew. unfold updateFile, addFile. rewrite Hnew. cbn.
    by rewrite filesGet_filesSet_eq.
Qed.

Lemma host_sees_update_witness :
  let st := loadedState pairTable in
  let st' := withFiles (updateFile "A.ts" "A.ts" false (files st)).2 st in
  getScriptVersion "A.ts" st' <> getScriptVersion "A.ts" st.
Proof.
  intros st st'.
  destruct (host_sees_update "A.ts" "A.ts" false st) as (_ & _ & _ & Hversion & _).
  apply Hversion; [reflexivity|].
  apply (bool_decide_unpack _). vm_compute. exact I.
Defined.

(** ** The graph and the registry as data *)

(** X15. What [getDependencies] returns after the other methods of the
    graph: nothing after [clearDependencies], one more dependency at the end
    after [addDependency], and for any other unit what it returned before;
    reading changes what no later read returns, and none of the three
    touches the registry. *)
Theorem dependency_entries_round_trip fileName depFileName dm :
  let read g m := (getDependencies g m).1 in
  read fileName (clearDependencies fileName dm) = []
  /\ read fileName (addDependency fileName depFileName dm)
     = read fileName dm ++ [depFileName]
  /\ (forall g, g <> fileName ->
        read g (clearDependencies fileName dm) = read g dm
        /\ read g (addDependency fileName depFileName dm) = read g dm)
  /\ (forall g, read g (getDependencies fileName dm).2 = read g dm)
  /\ knownTypeDeclarations (clearDependencies fileName dm) = knownTypeDeclarations dm
  /\ knownTypeDeclarations (addDependency fileName depFileName dm)
     = knownTypeDeclarations dm
  /\ knownTypeDeclarations (getDependencies fileName dm).2 = knownTypeDeclarations dm.
Proof.
  intros read. subst read. cbv beta.
  assert (forall g m, (getDependencies g m).1 = depsOf m g) as Hread
    by (intros; apply getDependencies_reads).
  rewrite !Hread.
  split; [|split; [|split; [|split; [|split; [|split]]]]].
  - rewrite depsOf_clearDependencies. by rewrite decide_True.
  - rewrite depsOf_addDependency. by rewrite decide_True.
  - intros g Hne. rewrite !Hread, depsOf_clearDependencies, depsOf_addDependency.
    by rewrite !decide_False.
  - intros g. rewrite !Hread. apply (getDependencies_reads fileName dm).
  - reflexivity.
  - unfold addDependency. by destruct (hasDependencies fileName dm).
  - apply (getDependencies_reads fileName dm).
Qed.

(** X16. [addTypeDeclaration] makes [hasTypeDeclaration] true for the
    unit and changes it for no other unit; adding a unit twice is adding it
    once, the units of the registry stay distinct, and the graph is not
    touched. *)
Theorem registry_is_a_set fileName dm :
  hasTypeDeclaration fileName (addTypeDeclaration fileName dm) = true
  /\ addTypeDeclaration fileName (addTypeDeclaration fileName dm)
     = addTypeDeclaration fileName dm
  /\ (forall other,
        hasTypeDeclaration other (addTypeDeclaration fileName dm)
        = hasTypeDeclaration other dm || bool_decide (other = fileName))
  /\ (NoDup (knownTypeDeclarations dm) ->
      NoDup (knownTypeDeclarations (addTypeDeclaration fileName dm)))
  /\ dependencies (addTypeDeclaration fileName dm) = dependencies dm.
Proof.
  assert (hasTypeDeclaration fileName (addTypeDeclaration fileName dm) = true) as Hhas.
  { unfold hasTypeDeclaration at 1. apply bool_decide_eq_true. cbn.
    unfold hasTypeDeclaration. case_bool_decide; [done|]. set_solver. }
  split; [exact Hhas|]. split; [|split; [|split]].
  - unfold addTypeDeclaration at 1. by rewrite Hhas.
  - intros other. unfold hasTypeDeclaration, addTypeDeclaration. cbn.
    unfold hasTypeDeclaration.
    repeat case_bool_decide; cbn; try reflexivity; exfalso; set_solver.
  - apply (registryStaysDistinct_declare fileName
             {| files := []; depManager := dm;
                validFiles := {| validFlags := ∅ |}; runtimeRead := false |}).
  - reflexivity.
Qed.

(** X17. With arrays as objects, [addDependency] changes the array of its
    unit only: the entry of the unit gets the dependency at its end, the
    entry of every other unit is what it was, no two units come to share an
    array, and the lists stored are those of the model with lists. *)
Theorem push_is_private fileName depFileName m (Hwf : Ref.wellFormed m) :
  Ref.wellFormed (Ref.addDependency fileName depFileName m)
  /\ Ref.entry (Ref.addDependency fileName depFileName m) fileName
     = Some (default [] (Ref.entry m fileName) ++ [depFileName])
  /\ (forall g, g <> fileName ->
        Ref.entry (Ref.addDependency fileName depFileName m) g = Ref.entry m g)
  /\ (forall known,
        Ref.graph (Ref.addDependency fileName depFileName m)
        = dependencies
            (addDependency fileName depFileName
               {| dependencies := Ref.graph m; knownTypeDeclarations := known |})).
Proof.
  pose proof (graph_addDependency fileName depFileName m [] Hwf) as Hgraph.
  assert (forall g,
            Ref.entry (Ref.addDependency fileName depFileName m) g
            = dependencies
                (addDependency fileName depFileName
                   {| dependencies := Ref.graph m; knownTypeDeclarations := [] |})
              !! g) as Hentry.
  { intros g. by rewrite <- Hgraph, graph_lookup. }
  split; [by apply wellFormed_addDependency|]. split; [|split].
  - rewrite Hentry. unfold addDependency, hasDependencies. cbn.
    rewrite graph_lookup. case_bool_decide as Hsome; cbn.
    + rewrite lookup_insert_eq. unfold depsOf. cbn. by rewrite graph_lookup.
    + rewrite lookup_insert_eq. unfold depsOf. cbn. rewrite lookup_insert_eq.
      apply eq_None_not_Some in Hsome. by rewrite Hsome.
  - intros g Hne. rewrite Hentry. unfold addDependency, hasDependencies. cbn.
    case_bool_decide; cbn; rewrite !lookup_insert_ne by done; apply graph_lookup.
  - intros known. apply graph_addDependency. exact Hwf.
Qed.

Lemma push_is_private_witness :
  let m := Ref.addDependency "B.ts" "C.ts" (Ref.addDependency "A.ts" "B.ts" Ref.empty) in
  Ref.entry (Ref.addDependency "A.ts" "C.ts" m) "A.ts" = Some (["B.ts"] ++ ["C.ts"])
  /\ Ref.entry (Ref.addDependency "A.ts" "C.ts" m) "B.ts" = Some ["C.ts"].
Proof.
  intros m.
  assert (Ref.wellFormed m) as Hwf
    by (do 2 apply wellFormed_addDependency; apply wellFormed_empty).
  destruct (push_is_private "A.ts" "C.ts" m Hwf) as (_ & Hown & Hothers & _).
  split.
  - exact (eq_trans Hown eq_refl).
  - exact (eq_trans (Hothers "B.ts" ltac:(discriminate)) eq_refl).
Defined.

(** ** The compilation facade and the sink *)

Lemma applyDeps_adds fuel fileName (log log' : list DependencyCall) st st' :
  applyDeps fuel fileName log st = Some (log', st') ->
  exists names, log' = log ++ CallClear :: CallAdd fileName :: map CallAdd names.
Proof.
  unfold applyDeps.
  destruct (applyChain _ _ _) as [s|] eqn:Hrun; [|discriminate].
  intros [= <- <-]. destruct (applyChain_adds _ _ _ _ Hrun) as [names Hnames].
  exists names. rewrite Hnames. cbn. by rewrite <- !app_assoc.
Qed.

(** X18. [emitAsync], whenever it settles, has called [clear] on the sink
    once, then [add] with the unit, then [add] only.  [emitSync] has done
    the same when the dependency check returned, and then returns or throws
    what [emitAndCheck] does on the store the check left; when the check
    threw, [emitSync] throws the same error from the store the check left
    and has not called the sink. *)
Theorem emit_finalizes_sink env fuel fileName (log log' : list DependencyCall)
    st r st' :
  (forall resolver schedule,
     emitAsync env fuel resolver schedule fileName log st = Some (r, st', log') ->
     exists names,
       log' = log ++ CallClear :: CallAdd fileName :: map CallAdd names)
  /\ (forall resolver,
        emitSync env fuel resolver fileName log st = Some (r, st', log') ->
        (exists e,
           checkDependenciesSync env fuel resolver fileName (invokeRuntime env st)
           = Some (Throw e, st')
           /\ r = Throw e /\ log' = log)
        \/ (exists deps st2 names,
              checkDependenciesSync env fuel resolver fileName (invokeRuntime env st)
              = Some (Normal deps, st2)
              /\ r = emitAndCheck env fileName st2
              /\ log' = log ++ CallClear :: CallAdd fileName :: map CallAdd names)).
Proof.
  split.
  - intros resolver schedule. unfold emitAsync.
    destruct (rootOutcome _) as [outcome|]; [|discriminate].
    destruct (applyDeps _ _ _ _) as [[log1 st1]|] eqn:Happly; [|discriminate].
    intros [= _ _ <-]. by eapply applyDeps_adds.
  - intros resolver. unfold emitSync.
    destruct (checkDependenciesSync _ _ _ _ _) as [[[deps|e] st2]|]; [| |discriminate].
    + destruct (applyDeps _ _ _ _) as [[log1 st1]|] eqn:Happly; [|discriminate].
      intros [= <- _ <-]. right. apply applyDeps_adds in Happly as [names ->].
      by exists deps, st2, names.
    + intros [= <- <- <-]. left. by exists e.
Qed.

Lemma emit_finalizes_sink_witness :
  match emitAsync (tableEnv brokenTable) 3 (tableResolver brokenTable) (fifo 4)
          "main.ts" [CallAdd "stale.ts"] (loadedState brokenTable) with
  | Some (_, _, log') =>
      exists names,
        log' = [CallAdd "stale.ts"]
               ++ CallClear :: CallAdd "main.ts" :: map CallAdd names
  | None => False
  end.
Proof.
  destruct (emitAsync (tableEnv brokenTable) 3 (tableResolver brokenTable) (fifo 4)
              "main.ts" [CallAdd "stale.ts"] (loadedState brokenTable))
    as [[[r st'] log']|] eqn:Hrun.
  - exact (proj1 (emit_finalizes_sink _ _ _ _ _ _ _ _) _ _ Hrun).
  - vm_compute in Hrun. discriminate Hrun.
Defined.

Lemma sequential_pass_latch env fuel resolver fileName :
  relates latchKept (checkDependenciesSync env fuel resolver fileName).
Proof.
  apply relates_checkDependenciesSync; unfold latchKept; try done.
  intros st1 st2 st3 H1 H2. congruence.
Qed.

Lemma concurrent_run_latch env resolver schedule a :
  latchKept (store a) (store (asyncRun env resolver schedule a)).
Proof.
  apply relates_asyncRun; unfold latchKept; try done.
  intros st1 st2 st3 H1 H2. congruence.
Qed.

Lemma runtimeRead_invokeRuntime env st : runtimeRead (invokeRuntime env st) = true.
Proof. unfold invokeRuntime. by destruct (runtimeRead st) eqn:E. Qed.

Lemma runtimeRead_applyDeps {D} `{Dependency D} fuel fileName (sink sink' : D) st st' :
  applyDeps fuel fileName sink st = Some (sink', st') ->
  runtimeRead st' = runtimeRead st /\ files st' = files st
  /\ validFiles st' = validFiles st.
Proof.
  unfold applyDeps. destruct (applyChain _ _ _); [|discriminate].
  by intros [= _ <-].
Qed.

(** X19. However [emitSync] and [emitAsync] end, they leave the latch of
    the runtime declarations set: [invokeRuntime] sets it, and neither the
    dependency check nor [applyDeps] resets it.  [invokeRuntime] does
    nothing the second time. *)
Theorem emit_latches_runtime {D} `{Dependency D} env fuel fileName (sink sink' : D)
    st r st' :
  (forall resolver,
     emitSync env fuel resolver fileName sink st = Some (r, st', sink') ->
     runtimeRead st' = true)
  /\ (forall resolver schedule,
        emitAsync env fuel resolver schedule fileName sink st = Some (r, st', sink') ->
        runtimeRead st' = true)
  /\ invokeRuntime env (invokeRuntime env st) = invokeRuntime env st.
Proof.
  split; [|split].
  - intros resolver. unfold emitSync.
    destruct (checkDependenciesSync _ _ _ _ _) as [[[deps|e] st2]|] eqn:Hcheck;
      [| |discriminate].
    + apply sequential_pass_latch in Hcheck. unfold latchKept in Hcheck.
      rewrite runtimeRead_invokeRuntime in Hcheck.
      destruct (applyDeps _ _ _ _) as [[sink1 st3]|] eqn:Happly; [|discriminate].
      apply runtimeRead_applyDeps in Happly as (Hlatch & _).
      intros [= _ <- _]. congruence.
    + apply sequential_pass_latch in Hcheck. unfold latchKept in Hcheck.
      rewrite runtimeRead_invokeRuntime in Hcheck.
      intros [= _ <- _]. exact Hcheck.
  - intros resolver schedule. unfold emitAsync.
    destruct (rootOutcome _); [|discriminate].
    destruct (applyDeps _ _ _ _) as [[sink1 st3]|] eqn:Happly; [|discriminate].
    apply runtimeRead_applyDeps in Happly as (Hlatch & _).
    intros [= _ <- _]. rewrite Hlatch.
    pose proof (concurrent_run_latch env resolver schedule
                  (startCheckDependencies fileName (invokeRuntime env st))) as Hrun.
    unfold latchKept in Hrun. rewrite Hrun. cbn. apply runtimeRead_invokeRuntime.
  - unfold invokeRuntime at 1. by rewrite runtimeRead_invokeRuntime.
Qed.

Lemma emit_latches_runtime_witness :
  match emitSync (tableEnv pairTable) 3 (tableResolver pairTable)
          "A.ts" ([] : list DependencyCall) (loadedState pairTable) with
  | Some (_, st', _) => runtimeRead st' = true
  | None => False
  end.
Proof.
  destruct (emitSync (tableEnv pairTable) 3 (tableResolver pairTable)
              "A.ts" ([] : list DependencyCall) (loadedState pairTable))
    as [[[r st'] log']|] eqn:Hrun.
  - exact (proj1 (emit_latches_runtime _ _ _ _ _ _ _ _) _ Hrun).
  - vm_compute in Hrun. discriminate Hrun.
Defined.

(** ** Declaration files *)

Lemma elem_of_targets_inv dm d :
  d ∈ targets dm -> exists fileName, d ∈ depsOf dm fileName.
Proof.
  unfold targets. intros Hd. apply elem_of_union_list in Hd as (X & HX & Hd).
  apply list_elem_of_fmap in HX as ([f l] & -> & Hfl).
  apply elem_of_map_to_list in Hfl. cbn in Hd. apply elem_of_list_to_set in Hd.
  exists f. unfold depsOf. by rewrite Hfl.
Qed.

Lemma engineGraph_sameGraph dm dm' :
  sameGraph dm dm' -> engineGraph dm -> engineGraph dm'.
Proof.
  intros [Hdeps Hknown] [He Hd]. split.
  - intros f d. rewrite Hdeps. apply He.
  - intros d. rewrite Hknown. apply Hd.
Qed.

(** X20. The passes of both modes and [applyDeps] keep the graphs of the
    engine: no edge leads to a path that the declaration test accepts, and
    the registry holds such paths only.  In such a graph [".d.ts"] is the
    dependency of no unit, and neither is a unit of the registry. *)
Theorem engine_keeps_declarations_apart env :
  (forall fuel resolver fileName st r st',
     engineGraph (depManager st) ->
     checkDependenciesSync env fuel resolver fileName st = Some (r, st') ->
     engineGraph (depManager st'))
  /\ (forall resolver schedule a,
        engineGraph (depManager (store a)) ->
        engineGraph (depManager (store (asyncRun env resolver schedule a))))
  /\ (forall fuel fileName (log log' : list DependencyCall) st st',
        engineGraph (depManager st) ->
        applyDeps fuel fileName log st = Some (log', st') ->
        engineGraph (depManager st'))
  /\ (forall dm,
        engineGraph dm ->
        (".d.ts" ∉ targets dm)
        /\ forall d, d ∈ knownTypeDeclarations dm -> d ∉ targets dm).
Proof.
  split; [|split; [|split]].
  - intros fuel resolver fileName st r st'.
    apply (keeps_checkDependenciesSync
             (fun d => matchesDAnyTs d = false) (fun d => matchesDAnyTs d = true));
      auto.
  - intros resolver schedule a.
    apply (asyncRun_keeps
             (fun d => matchesDAnyTs d = false) (fun d => matchesDAnyTs d = true));
      auto.
  - intros fuel fileName log log' st st' Hengine. unfold applyDeps.
    destruct (applyChain _ _ _) as [s|] eqn:Hrun; [|discriminate].
    intros [= _ <-]. cbn.
    destruct (applyChain_reached (depManager st) fileName fuel fileName _ s Hrun)
      as ((Hsame & _) & _); [by left| |by eapply engineGraph_sameGraph].
    split; [apply sameGraph_refl|].
    split; intros d; cbn; rewrite dom_empty_L; set_solver.
  - intros dm [He Hd]. split.
    + intros Hin. apply elem_of_targets_inv in Hin as [f Hf].
      apply He in Hf. discriminate Hf.
    + intros d Hknown Hin. apply elem_of_targets_inv in Hin as [f Hf].
      apply He in Hf. apply Hd in Hknown. congruence.
Qed.

Lemma engine_keeps_declarations_apart_witness :
  engineGraph mutualGraph /\ (".d.ts" ∉ targets mutualGraph).
Proof.
  destruct (engine_keeps_declarations_apart (tableEnv mutualTable))
    as (Hsync & _ & _ & Hapart).
  assert (engineGraph mutualGraph) as Hengine.
  { unfold mutualGraph.
    destruct (checkDependenciesSync (tableEnv mutualTable) 3
                (tableResolver mutualTable) "A.ts" (loadedState mutualTable))
      as [[r st]|] eqn:Hrun; [|apply engineGraph_empty].
    eapply Hsync; [|exact Hrun]. apply engineGraph_empty. }
  split; [exact Hengine|]. exact (proj1 (Hapart mutualGraph Hengine)).
Defined.

Lemma matchesDts_matchesDAnyTs d : matchesDts d = true -> matchesDAnyTs d = true.
Proof.
  unfold matchesDts, matchesDAnyTs.
  destruct (charsRev d) as [|c5 [|c4 [|c3 [|c2 [|c1 l]]]]]; try discriminate.
  intros H. rewrite !andb_true_iff, !bool_decide_eq_true in H.
  destruct H as [[[[-> ->] ->] ->] ->]. reflexivity.
Qed.

(** X21. The declaration test of the resolution functions, [/\.d\.ts$/],
    is stricter than the one of the dependency checks, [/\.d.ts$/]: a path
    that the first accepts is accepted by the second, is no compiled module
    and has an extension, so it is resolved to itself and handled as a
    declaration; the second also accepts paths that the first rejects. *)
Theorem declaration_tests_differ :
  (forall d, matchesDts d = true ->
             matchesDAnyTs d = true /\ matchesJs d = false
             /\ hasNoExtension d = false)
  /\ (forall env resolver fileName d,
        matchesDts d = true ->
        forall recur st,
          (resolveSync env resolver fileName d).1 = Normal d
          /\ (hasTypeDeclaration d (depManager st) = true ->
              processImportSync recur fileName d st = Some (Normal None, st)))
  /\ (exists d, matchesDAnyTs d = true /\ matchesDts d = false).
Proof.
  split; [|split].
  - intros d Hd. pose proof (matchesDts_matchesDAnyTs d Hd) as Hany.
    split; [exact Hany|]. split; [by apply matchesDAnyTs_not_js|].
    by apply matchesDts_has_extension.
  - intros env resolver fileName d Hd recur st. split.
    + unfold resolveSync. by rewrite (matchesDts_has_extension d Hd), Hd.
    + intros Hknown. unfold processImportSync.
      rewrite (matchesDts_matchesDAnyTs d Hd). unfold bind, getState.
      by rewrite Hknown.
  - exists "lib.dxts". split; reflexivity.
Qed.

(** X22. A declaration whose dependency check threw stays in the
    registry: the sequential mode registers a declaration before it checks
    it and does not take it back, so every later import of the declaration
    is skipped. *)
Theorem failed_declaration_stays_registered env fuel resolver fileName d st e st'
    (Hdeclaration : matchesDAnyTs d = true)
    (Hfails : processImportSync (checkDependenciesSync env fuel resolver)
                fileName d st = Some (Throw e, st')) :
  hasTypeDeclaration d (depManager st') = true
  /\ forall recur other,
       processImportSync recur other d st' = Some (Normal None, st').
Proof.
  assert (hasTypeDeclaration d (depManager st') = true) as Hknown.
  { revert Hfails. unfold processImportSync. rewrite Hdeclaration.
    unfold bind at 1, getState at 1.
    destruct (hasTypeDeclaration d (depManager st)) eqn:Hbefore; [discriminate|].
    unfold bind at 1, modify at 1. unfold bind at 1.
    destruct (checkDependenciesSync env fuel resolver d _)
      as [[[deps|e1] st1]|] eqn:Hcheck; [discriminate| |discriminate].
    intros [= _ <-]. apply sequential_pass_grows in Hcheck as (Hprefix & _).
    apply bool_decide_eq_true. eapply elem_of_prefix; [|exact Hprefix].
    cbn. rewrite Hbefore. set_solver. }
  split; [exact Hknown|]. intros recur other. unfold processImportSync.
  rewrite Hdeclaration. unfold bind, getState. by rewrite Hknown.
Qed.

Lemma failed_declaration_stays_registered_witness :
  match processImportSync
          (checkDependenciesSync (tableEnv brokenDeclarationTable) 2
             (tableResolver brokenDeclarationTable))
          "main.ts" "lib.d.ts" (loadedState brokenDeclarationTable) with
  | Some (Throw _, st') => hasTypeDeclaration "lib.d.ts" (depManager st') = true
  | _ => False
  end.
Proof.
  destruct (processImportSync
              (checkDependenciesSync (tableEnv brokenDeclarationTable) 2
                 (tableResolver brokenDeclarationTable))
              "main.ts" "lib.d.ts" (loadedState brokenDeclarationTable))
    as [[[v|e] st']|] eqn:Hrun.
  - vm_compute in Hrun. discriminate Hrun.
  - exact (proj1 (failed_declaration_stays_registered
                    (tableEnv brokenDeclarationTable) 2
                    (tableResolver brokenDeclarationTable) "main.ts" "lib.d.ts"
                    (loadedState brokenDeclarationTable) e st' eq_refl Hrun)).
  - vm_compute in Hrun. discriminate Hrun.
Defined.
